(** * Aisle3 token lifecycle: a shallow embedding of the Tauri backend

    This file models the credential-custody core of the Aisle3 desktop mail
    client ([src-tauri/src]): the per-operation rate limiter
    ([rate_limiter.rs]), the secure token store and its legacy-file
    migration ([secure_storage.rs]), the OAuth helpers ([gmail_auth.rs]),
    the credentials read from the environment ([gmail_config.rs]), the
    request building and message decoding of the REST client
    ([gmail_client.rs]) and the Tauri command handlers that tie them
    together, with the start-up token loading ([main.rs]).

    Modelling conventions.
    - Rust [String]s are Rocq [string]s (lists of bytes, i.e. UTF-8 code
      units); [Result<T, E>] is [result T E].
    - [std::time::Instant] is a number of nanoseconds ([N]); a
      [Duration::from_secs s] is [s * 10^9] nanoseconds.
    - [HashMap]s are stdpp [gmap]s.
    - serde_json's [to_string]/[from_str] for [AuthTokens] are modelled by a
      small JSON printer and parser ([print_json], [parse_json]).
    - Network calls to the provider are answers of an [Upstream] oracle; each
      handler runs in a state-and-error monad over the application state,
      which also records a trace of the effects it performs. *)

Set Warnings "-register-all".
From Stdlib Require Import String Ascii List NArith Lia.
From stdpp Require Import base gmap strings.
Import ListNotations.
Open Scope string_scope.

(* ================================================================= *)
(** ** Results *)

Inductive result (A E : Type) : Type :=
| Ok : A -> result A E
| Err : E -> result A E.
Arguments Ok {A E} _.
Arguments Err {A E} _.

Definition map_err {A E F} (f : E -> F) (r : result A E) : result A F :=
  match r with Ok a => Ok a | Err e => Err (f e) end.

Definition ok_or {A E} (o : option A) (e : E) : result A E :=
  match o with Some a => Ok a | None => Err e end.

Definition is_ok {A E} (r : result A E) : bool :=
  match r with Ok _ => true | Err _ => false end.

(* ================================================================= *)
(** ** Decimal numbers (Rust's [Display] for unsigned integers) *)

Definition digit_char (d : N) : ascii := ascii_of_N (48 + d).

Fixpoint digits_fuel (fuel : nat) (n : N) : string :=
  match fuel with
  | O => String (digit_char n) EmptyString
  | S f =>
      if (n <? 10)%N then String (digit_char n) EmptyString
      else digits_fuel f (n / 10) ++ String (digit_char (n mod 10)) EmptyString
  end.

(** [n.to_string()] for an unsigned integer. *)
Definition N_to_string (n : N) : string :=
  digits_fuel (S (N.to_nat (N.size n))) n.

Definition is_digit (c : ascii) : bool :=
  (48 <=? N_of_ascii c)%N && (N_of_ascii c <=? 57)%N.

Definition digit_val (c : ascii) : N := (N_of_ascii c - 48)%N.

(** Reads a maximal run of decimal digits; returns the digits' value, the
    number of digits read and the rest of the input. *)
Fixpoint lex_digits (acc : N) (len : nat) (s : string) : N * nat * string :=
  match s with
  | String c rest =>
      if is_digit c then lex_digits (acc * 10 + digit_val c)%N (S len) rest
      else (acc, len, s)
  | EmptyString => (acc, len, s)
  end.

(** The value of a run of decimal digits, continuing from [acc]. *)
Fixpoint digits_value (acc : N) (s : string) : N :=
  match s with
  | EmptyString => acc
  | String c rest => digits_value (acc * 10 + digit_val c)%N rest
  end.

(* ================================================================= *)
(** ** JSON values (serde_json) *)

Inductive json : Type :=
| JNull
| JBool (b : bool)
| JNum (neg : bool) (n : N)
| JFloat                            (* a number with a fraction or an exponent *)
| JStr (s : string)
| JStrW (s : string)                (* a string with a lone surrogate escape *)
| JArr (l : list json)
| JObj (l : list (string * json))
| JObjW (l : list (string * json)). (* an object with such a string as a key *)

(** [JFloat], [JStrW] and [JObjW] are what serde_json reads without
    complaint only where the value is ignored (an unknown field): a lone
    surrogate escape has no Rust [String], and a float no [u64]. *)

(** The double-quote byte (code 34). *)
Definition dq : ascii := "034"%char.

(** The backslash byte (code 92). *)
Definition bs : ascii := "092"%char.

Definition hex_char (d : N) : ascii :=
  if (d <? 10)%N then ascii_of_N (48 + d) else ascii_of_N (87 + d).

(** serde_json's string escaping: the double quote, the backslash and the
    control characters below 0x20 are escaped (backspace, tab, newline,
    form feed and carriage return by letter, the others as a [u00XX]
    escape with lowercase hex digits); every other byte is copied. *)
Definition escape_char (c : ascii) : string :=
  let n := N_of_ascii c in
  if (n =? 34)%N then String bs (String dq EmptyString)
  else if (n =? 92)%N then "\\"
  else if (n =? 8)%N then "\b"
  else if (n =? 12)%N then "\f"
  else if (n =? 10)%N then "\n"
  else if (n =? 13)%N then "\r"
  else if (n =? 9)%N then "\t"
  else if (n <? 32)%N then
    String bs (String "u" (String "0" (String "0"
      (String (hex_char (n / 16)) (String (hex_char (n mod 16)) EmptyString)))))
  else String c EmptyString.

Fixpoint escape (s : string) : string :=
  match s with
  | EmptyString => EmptyString
  | String c rest => escape_char c ++ escape rest
  end.

Definition quoted (s : string) : string :=
  String dq (escape s ++ String dq EmptyString).

(** [serde_json::to_string] (compact form: no whitespace). *)
Fixpoint print_json (v : json) : string :=
  match v with
  | JNull => "null"
  | JBool true => "true"
  | JBool false => "false"
  | JNum neg n => (if neg then "-" else "") ++ N_to_string n
  | JFloat => "0.0"
  | JStr s | JStrW s => quoted s
  | JArr l =>
      "[" ++ (fix elems (l : list json) : string :=
                match l with
                | [] => ""
                | [x] => print_json x
                | x :: r => print_json x ++ "," ++ elems r
                end) l ++ "]"
  | JObj l | JObjW l =>
      "{" ++ (fix members (l : list (string * json)) : string :=
                match l with
                | [] => ""
                | [(k, x)] => quoted k ++ ":" ++ print_json x
                | (k, x) :: r => quoted k ++ ":" ++ print_json x ++ "," ++ members r
                end) l ++ "}"
  end.

(** The members of a printed object, between its braces. *)
Fixpoint print_members (l : list (string * json)) : string :=
  match l with
  | [] => ""
  | [(k, x)] => quoted k ++ ":" ++ print_json x
  | (k, x) :: r => quoted k ++ ":" ++ print_json x ++ "," ++ print_members r
  end.

Definition is_ws (c : ascii) : bool :=
  let n := N_of_ascii c in
  (n =? 32)%N || (n =? 9)%N || (n =? 10)%N || (n =? 13)%N.

Fixpoint skip_ws (s : string) : string :=
  match s with
  | String c rest => if is_ws c then skip_ws rest else s
  | EmptyString => EmptyString
  end.

Definition hex_val (c : ascii) : option N :=
  let n := N_of_ascii c in
  if (48 <=? n)%N && (n <=? 57)%N then Some (n - 48)%N
  else if (97 <=? n)%N && (n <=? 102)%N then Some (n - 87)%N
  else if (65 <=? n)%N && (n <=? 70)%N then Some (n - 55)%N
  else None.

Definition hex4 (a b c d : ascii) : option N :=
  match hex_val a, hex_val b, hex_val c, hex_val d with
  | Some x, Some y, Some z, Some w => Some (((x * 16 + y) * 16 + z) * 16 + w)%N
  | _, _, _, _ => None
  end.

Definition bind_res {A B E} (r : result A E) (k : A -> result B E) : result B E :=
  match r with Ok a => k a | Err e => Err e end.

(** The bytes serde_json pushes for a code point below U+110000: its UTF-8
    encoding, and for a lone surrogate the three bytes of the same shape
    (WTF-8). *)
Definition wtf8_of (cp : N) : string :=
  if (cp <? 128)%N then String (ascii_of_N cp) EmptyString
  else if (cp <? 2048)%N then
    String (ascii_of_N (192 + cp / 64))
      (String (ascii_of_N (128 + cp mod 64)) EmptyString)
  else if (cp <? 65536)%N then
    String (ascii_of_N (224 + cp / 4096))
      (String (ascii_of_N (128 + (cp / 64) mod 64))
        (String (ascii_of_N (128 + cp mod 64)) EmptyString))
  else
    String (ascii_of_N (240 + cp / 262144))
      (String (ascii_of_N (128 + (cp / 4096) mod 64))
        (String (ascii_of_N (128 + (cp / 64) mod 64))
          (String (ascii_of_N (128 + cp mod 64)) EmptyString))).

Definition is_lead_surrogate (n : N) : bool := (55296 <=? n)%N && (n <=? 56319)%N.

Definition is_trail_surrogate (n : N) : bool := (56320 <=? n)%N && (n <=? 57343)%N.

(** The code point of a surrogate pair. *)
Definition pair_code_point (n1 n2 : N) : N := (65536 + (n1 - 55296) * 1024 + (n2 - 56320))%N.

(** The result of [lex_string]: the decoded bytes, whether every surrogate
    escape was paired, and the input after the closing quote. *)
Definition lexed := result (string * bool * string) string.

Definition prepend (p : string) (r : lexed) : lexed :=
  match r with
  | Ok (v, paired, rest) => Ok (p ++ v, paired, rest)
  | Err e => Err e
  end.

(** [prepend] for the bytes of a lone surrogate. *)
Definition prepend_lone (p : string) (r : lexed) : lexed :=
  match r with
  | Ok (v, _, rest) => Ok (p ++ v, false, rest)
  | Err e => Err e
  end.

(** The body of a JSON string, after its opening quote. A [\u] escape of a
    leading surrogate directly followed by a [\u] escape of a trailing one
    is one code point (serde_json's [parse_unicode_escape]); any other
    surrogate escape is lone: serde_json refuses it where it builds a
    [String] (a typed field, a key) and accepts it in an ignored value
    ([ignore_escape] checks the four hex digits only), so it is reported
    in the flag. Errors are the same in both modes otherwise. *)
Fixpoint lex_string (s : string) : lexed :=
  match s with
  | EmptyString => Err "EOF while parsing a string"
  | String c rest =>
      if Ascii.eqb c dq then Ok (EmptyString, true, rest)
      else if Ascii.eqb c bs then
        match rest with
        | EmptyString => Err "EOF while parsing a string"
        | String e rest' =>
            if Ascii.eqb e dq then prepend (String dq EmptyString) (lex_string rest')
            else if Ascii.eqb e bs then prepend (String bs EmptyString) (lex_string rest')
            else if Ascii.eqb e "/" then prepend "/" (lex_string rest')
            else if Ascii.eqb e "b" then prepend (String (ascii_of_N 8) EmptyString) (lex_string rest')
            else if Ascii.eqb e "f" then prepend (String (ascii_of_N 12) EmptyString) (lex_string rest')
            else if Ascii.eqb e "n" then prepend (String (ascii_of_N 10) EmptyString) (lex_string rest')
            else if Ascii.eqb e "r" then prepend (String (ascii_of_N 13) EmptyString) (lex_string rest')
            else if Ascii.eqb e "t" then prepend (String (ascii_of_N 9) EmptyString) (lex_string rest')
            else if Ascii.eqb e "u" then
              match rest' with
              | String h1 (String h2 (String h3 (String h4 rest''))) =>
                  match hex4 h1 h2 h3 h4 with
                  | None => Err "invalid escape"
                  | Some n1 =>
                      if is_trail_surrogate n1 then prepend_lone (wtf8_of n1) (lex_string rest'')
                      else if is_lead_surrogate n1 then
                        match rest'' with
                        | String b (String u (String k1 (String k2 (String k3 (String k4 rest3))))) =>
                            if Ascii.eqb b bs && Ascii.eqb u "u" then
                              match hex4 k1 k2 k3 k4 with
                              | Some n2 =>
                                  if is_trail_surrogate n2
                                  then prepend (wtf8_of (pair_code_point n1 n2)) (lex_string rest3)
                                  else prepend_lone (wtf8_of n1) (lex_string rest'')
                              | None => prepend_lone (wtf8_of n1) (lex_string rest'')
                              end
                            else prepend_lone (wtf8_of n1) (lex_string rest'')
                        | _ => prepend_lone (wtf8_of n1) (lex_string rest'')
                        end
                      else prepend (wtf8_of n1) (lex_string rest'')
                  end
              | _ => Err "EOF while parsing a string"
              end
            else Err "invalid escape"
        end
      else if (N_of_ascii c <? 32)%N then
        Err "control character found while parsing a string"
      else prepend (String c EmptyString) (lex_string rest)
  end.

(** The input after a run of digits. *)
Fixpoint skip_digits (s : string) : string :=
  match s with
  | String c rest => if is_digit c then skip_digits rest else s
  | EmptyString => EmptyString
  end.

(** One digit or more, then the input after them. *)
Definition lex_digits1 (s : string) : result string string :=
  match s with
  | String c _ => if is_digit c then Ok (skip_digits s) else Err "invalid number"
  | EmptyString => Err "EOF while parsing a value"
  end.

(** An optional exponent ([e] or [E], an optional sign, digits) ending a
    float. *)
Definition lex_exponent (s : string) : result (json * string) string :=
  match s with
  | String e r =>
      if Ascii.eqb e "e" || Ascii.eqb e "E" then
        let r' := match r with
                  | String sg r0 => if Ascii.eqb sg "+" || Ascii.eqb sg "-" then r0 else r
                  | EmptyString => r
                  end in
        bind_res (lex_digits1 r') (fun rest => Ok (JFloat, rest))
      else Ok (JFloat, s)
  | EmptyString => Ok (JFloat, s)
  end.

(** A JSON number after its optional minus sign: an integer ([0] or a
    digit run not starting with [0]), then optionally a fraction ([.] and
    digits) and an exponent, which make it a float. *)
Definition lex_number (neg : bool) (s : string) : result (json * string) string :=
  match s with
  | String c tl =>
      if is_digit c then
        let '(n, _, rest) :=
          if Ascii.eqb c "0" then (0%N, 1%nat, tl)
          else lex_digits 0 0 s in
        match rest with
        | String d r =>
            if Ascii.eqb d "." then bind_res (lex_digits1 r) lex_exponent
            else if Ascii.eqb d "e" || Ascii.eqb d "E" then lex_exponent rest
            else Ok (JNum neg n, rest)
        | EmptyString => Ok (JNum neg n, rest)
        end
      else Err "invalid number"
  | EmptyString => Err "EOF while parsing a value"
  end.

Definition expect_word (w : string) (s : string) (v : json) : result (json * string) string :=
  if String.prefix w s
  then Ok (v, substring (String.length w) (String.length s - String.length w) s)
  else Err "expected ident".

(** The elements of an array after its [[], each read by [value]; one
    unit of [g] per element. *)
Fixpoint parse_elems (value : string -> result (json * string) string)
    (g : nat) (acc : list json) (t : string) : result (json * string) string :=
  match g with
  | O => Err "recursion limit exceeded"
  | S g' =>
      bind_res (value t) (fun '(v, t1) =>
        match skip_ws t1 with
        | String "," t2 => parse_elems value g' (v :: acc) t2
        | String "]" t2 => Ok (JArr (rev (v :: acc)), t2)
        | _ => Err "expected , or ]"
        end)
  end.

(** The members of an object after its opening brace, each value read by
    [value]; one unit of [g] per member; [keys_ok] records that the keys
    read so far have no lone surrogate. *)
Fixpoint parse_members (value : string -> result (json * string) string)
    (g : nat) (keys_ok : bool) (acc : list (string * json)) (t : string)
    : result (json * string) string :=
  match g with
  | O => Err "recursion limit exceeded"
  | S g' =>
      match skip_ws t with
      | String q t0 =>
          if Ascii.eqb q dq then
            bind_res (lex_string t0) (fun '(k, paired, t1) =>
              match skip_ws t1 with
              | String ":" t2 =>
                  bind_res (value t2) (fun '(v, t3) =>
                    match skip_ws t3 with
                    | String "," t4 => parse_members value g' (keys_ok && paired) ((k, v) :: acc) t4
                    | String "}" t4 =>
                        Ok ((if keys_ok && paired then JObj else JObjW) (rev ((k, v) :: acc)), t4)
                    | _ => Err "expected , or }"
                    end)
              | _ => Err "expected :"
              end)
          else Err "key must be a string"
      | EmptyString => Err "EOF while parsing an object"
      end
  end.

(** A JSON value with a nesting budget [fuel]. *)
Fixpoint parse_value (fuel : nat) (s : string) : result (json * string) string :=
  match fuel with
  | O => Err "recursion limit exceeded"
  | S f =>
      match skip_ws s with
      | EmptyString => Err "EOF while parsing a value"
      | String c r =>
          if Ascii.eqb c "n" then expect_word "ull" r JNull
          else if Ascii.eqb c "t" then expect_word "rue" r (JBool true)
          else if Ascii.eqb c "f" then expect_word "alse" r (JBool false)
          else if Ascii.eqb c "-" then lex_number true r
          else if is_digit c then lex_number false (String c r)
          else if Ascii.eqb c dq then
            bind_res (lex_string r) (fun '(str, paired, rest) =>
              Ok (if paired then JStr str else JStrW str, rest))
          else if Ascii.eqb c "[" then
            match skip_ws r with
            | String "]" r' => Ok (JArr [], r')
            | _ => parse_elems (parse_value f) f [] r
            end
          else if Ascii.eqb c "{" then
            match skip_ws r with
            | String "}" r' => Ok (JObj [], r')
            | _ => parse_members (parse_value f) f true [] r
            end
          else Err "expected value"
      end
  end.

(** [serde_json::from_str] on a whole document. *)
Definition parse_json (s : string) : result json string :=
  bind_res (parse_value (S (String.length s)) s) (fun '(v, rest) =>
    match skip_ws rest with
    | EmptyString => Ok v
    | _ => Err "trailing characters"
    end).

(* ================================================================= *)
(** ** Credentials ([gmail_auth.rs], [AuthTokens]) *)

Record AuthTokens := {
  access_token : string;
  refresh_token : option string;
  expires_in : option N  (* u64 *)
}.

Definition u64_max_plus_one : N := 2 ^ 64.

(** Every field fits its Rust type ([expires_in] is a [u64]). *)
Definition tokens_wf (t : AuthTokens) : Prop :=
  match expires_in t with Some n => (n < u64_max_plus_one)%N | None => True end.

(** [#[derive(Serialize)]]: a map with the three fields in declaration
    order; [None] is written as [null]. *)
Definition json_of_tokens (t : AuthTokens) : json :=
  JObj [("access_token", JStr (access_token t));
        ("refresh_token", match refresh_token t with Some s => JStr s | None => JNull end);
        ("expires_in", match expires_in t with Some n => JNum false n | None => JNull end)].

Definition tokens_to_string (t : AuthTokens) : string := print_json (json_of_tokens t).

Definition de_string (v : json) : result string string :=
  match v with JStr s => Ok s | _ => Err "invalid type: expected a string" end.

Definition de_opt_string (v : json) : result (option string) string :=
  match v with
  | JNull => Ok None
  | JStr s => Ok (Some s)
  | _ => Err "invalid type: expected a string"
  end.

Definition de_opt_u64 (v : json) : result (option N) string :=
  match v with
  | JNull => Ok None
  | JNum false n => if (n <? u64_max_plus_one)%N then Ok (Some n) else Err "invalid type: expected u64"
  | JNum true _ => Err "invalid value: expected u64"
  | _ => Err "invalid type: expected u64"
  end.

(** [#[derive(Deserialize)]] visiting a map: fields in any order, unknown
    fields ignored, a repeated field refused, a missing [Option] field read
    as [None], a missing [access_token] refused. *)
Fixpoint de_fields (l : list (string * json))
    (a : option string) (r : option (option string)) (e : option (option N))
    : result AuthTokens string :=
  match l with
  | [] =>
      match a with
      | None => Err "missing field `access_token`"
      | Some a' =>
          Ok {| access_token := a';
                refresh_token := match r with Some r' => r' | None => None end;
                expires_in := match e with Some e' => e' | None => None end |}
      end
  | (k, v) :: rest =>
      if String.eqb k "access_token" then
        match a with
        | Some _ => Err "duplicate field `access_token`"
        | None => bind_res (de_string v) (fun x => de_fields rest (Some x) r e)
        end
      else if String.eqb k "refresh_token" then
        match r with
        | Some _ => Err "duplicate field `refresh_token`"
        | None => bind_res (de_opt_string v) (fun x => de_fields rest a (Some x) e)
        end
      else if String.eqb k "expires_in" then
        match e with
        | Some _ => Err "duplicate field `expires_in`"
        | None => bind_res (de_opt_u64 v) (fun x => de_fields rest a r (Some x))
        end
      else de_fields rest a r e
  end.

(** [#[derive(Deserialize)]] also visits a sequence of exactly three
    elements in declaration order. *)
Definition tokens_of_json (v : json) : result AuthTokens string :=
  match v with
  | JObj l => de_fields l None None None
  | JArr [x; y; z] =>
      bind_res (de_string x) (fun a =>
      bind_res (de_opt_string y) (fun r =>
      bind_res (de_opt_u64 z) (fun e =>
        Ok {| access_token := a; refresh_token := r; expires_in := e |})))
  | JArr _ => Err "invalid length: expected struct AuthTokens with 3 elements"
  | _ => Err "invalid type: expected struct AuthTokens"
  end.

(** [serde_json::from_str::<AuthTokens>]. Its input is a [&str], so UTF-8:
    the token file is checked by [read_to_string] before it gets here,
    and the keyring crate hands back a [String]. The model reads any bytes
    outside escapes as they are. *)
Definition tokens_from_str (s : string) : result AuthTokens string :=
  bind_res (parse_json s) tokens_of_json.

(* ================================================================= *)
(** ** Rate limiter ([rate_limiter.rs]) *)

(** [Duration::from_secs s], in nanoseconds. *)
Definition from_secs (s : N) : N := (s * 1000000000)%N.

(** [Duration::as_secs]. *)
Definition as_secs (d : N) : N := (d / 1000000000)%N.

Record RateLimit := {
  requests : list N;          (* Vec<Instant> *)
  max_requests : N;           (* u32 *)
  window_duration : N         (* Duration *)
}.

Definition RateLimit_new (max : N) (window : N) : RateLimit :=
  {| requests := []; max_requests := max; window_duration := window |}.

(** The policy [or_insert_with] creates on the first use of an operation. *)
Definition policy (operation : string) : RateLimit :=
  if String.eqb operation "get_emails" then RateLimit_new 10 (from_secs 60)
  else if String.eqb operation "get_email_content" then RateLimit_new 30 (from_secs 60)
  else if String.eqb operation "send_reply" then RateLimit_new 10 (from_secs 60)
  else if String.eqb operation "mark_email_as_read" then RateLimit_new 20 (from_secs 60)
  else if String.eqb operation "mark_email_as_unread" then RateLimit_new 20 (from_secs 60)
  else if String.eqb operation "get_inbox_stats" then RateLimit_new 20 (from_secs 60)
  else if String.eqb operation "check_for_new_emails_since_last_check"
  then RateLimit_new 30 (from_secs 60)
  else RateLimit_new 10 (from_secs 60).

(** [RateLimit::is_allowed] at instant [now]: [retain] the instants whose
    [now.duration_since(t)] (saturating) is within the window, then admit
    and record [now] when fewer than [max_requests] remain. *)
Definition is_allowed (now : N) (rl : RateLimit) : RateLimit * bool :=
  let kept := List.filter (fun t => (now - t <=? window_duration rl)%N) (requests rl) in
  if (N.of_nat (List.length kept) <? max_requests rl)%N
  then ({| requests := kept ++ [now]; max_requests := max_requests rl;
           window_duration := window_duration rl |}, true)
  else ({| requests := kept; max_requests := max_requests rl;
           window_duration := window_duration rl |}, false).

Abbreviation limiter := (gmap string RateLimit).

Definition rate_limit_error (operation : string) (max window : N) : string :=
  "Rate limit exceeded for '" ++ operation ++ "'. Max " ++ N_to_string max
  ++ " requests per " ++ N_to_string (as_secs window) ++ " seconds".

(** [RateLimiter::check_rate_limit] at instant [now]. *)
Definition check_rate_limit (limits : limiter) (operation : string) (now : N)
  : limiter * result unit string :=
  let limit := match limits !! operation with Some l => l | None => policy operation end in
  let '(limit', allowed) := is_allowed now limit in
  (<[operation := limit']> limits,
   if allowed then Ok tt
   else Err (rate_limit_error operation (max_requests limit') (window_duration limit'))).

(* ================================================================= *)
(** ** Secure storage ([secure_storage.rs]) *)

Definition SERVICE_NAME : string := "com.aisle3.app".
Definition TOKEN_KEY : string := "gmail_tokens".

(** [trait SecureStorageBackend]; a backend is a value of type [B] that the
    mutating methods return updated. *)
Class SecureStorageBackend (B : Type) := {
  save_password : B -> string -> string -> B * result unit string;
  get_password : B -> string -> result string string;
  delete_password : B -> string -> B * result unit string;
  has_password : B -> string -> bool
}.

(** The OS credential vault seen through the [keyring] crate: entries
    indexed by (service, user), and whether the platform store answers. *)
Record Keyring := {
  kr_entries : gmap (string * string) string;
  kr_available : bool
}.

Inductive KeyringError := NoEntry | PlatformFailure (msg : string).

Definition keyring_error_to_string (e : KeyringError) : string :=
  match e with
  | NoEntry => "No matching entry found in secure storage"
  | PlatformFailure m => "Platform secure storage failure: " ++ m
  end.

Record Entry := { entry_service : string; entry_user : string }.

(** [Entry::new] on the non-empty constant service and key succeeds. *)
Definition Entry_new (service user : string) : result Entry KeyringError :=
  Ok {| entry_service := service; entry_user := user |}.

Definition vault_down : KeyringError := PlatformFailure "vault unavailable".

Definition entry_set_password (kr : Keyring) (e : Entry) (pw : string)
  : Keyring * result unit KeyringError :=
  if kr_available kr
  then ({| kr_entries := <[(entry_service e, entry_user e) := pw]> (kr_entries kr);
           kr_available := true |}, Ok tt)
  else (kr, Err vault_down).

Definition entry_get_password (kr : Keyring) (e : Entry) : result string KeyringError :=
  if kr_available kr
  then ok_or (kr_entries kr !! (entry_service e, entry_user e)) NoEntry
  else Err vault_down.

Definition entry_delete_password (kr : Keyring) (e : Entry)
  : Keyring * result unit KeyringError :=
  if kr_available kr then
    match kr_entries kr !! (entry_service e, entry_user e) with
    | Some _ => ({| kr_entries := delete (entry_service e, entry_user e) (kr_entries kr);
                    kr_available := true |}, Ok tt)
    | None => (kr, Err NoEntry)
    end
  else (kr, Err vault_down).

(** [impl SecureStorageBackend for KeyringBackend]: every method builds
    [Entry::new(SERVICE_NAME, TOKEN_KEY)]; the [_key] argument is unused. *)
Definition keyring_save_password (kr : Keyring) (_key : string) (password : string)
  : Keyring * result unit string :=
  match Entry_new SERVICE_NAME TOKEN_KEY with
  | Err e => (kr, Err ("Failed to create keyring entry: " ++ keyring_error_to_string e))
  | Ok entry =>
      let '(kr', r) := entry_set_password kr entry password in
      (kr', map_err (fun e => "Failed to save tokens to keyring: " ++ keyring_error_to_string e) r)
  end.

Definition keyring_get_password (kr : Keyring) (_key : string) : result string string :=
  match Entry_new SERVICE_NAME TOKEN_KEY with
  | Err e => Err ("Failed to create keyring entry: " ++ keyring_error_to_string e)
  | Ok entry =>
      map_err (fun e => match e with
                        | NoEntry => "No tokens found in keyring"
                        | _ => "Failed to load tokens from keyring: " ++ keyring_error_to_string e
                        end)
              (entry_get_password kr entry)
  end.

Definition keyring_delete_password (kr : Keyring) (_key : string)
  : Keyring * result unit string :=
  match Entry_new SERVICE_NAME TOKEN_KEY with
  | Err e => (kr, Err ("Failed to create keyring entry: " ++ keyring_error_to_string e))
  | Ok entry =>
      match entry_delete_password kr entry with
      | (kr', Ok tt) => (kr', Ok tt)
      | (kr', Err NoEntry) => (kr', Ok tt)   (* Already deleted *)
      | (kr', Err e) =>
          (kr', Err ("Failed to delete tokens from keyring: " ++ keyring_error_to_string e))
      end
  end.

Definition keyring_has_password (kr : Keyring) (_key : string) : bool :=
  match Entry_new SERVICE_NAME TOKEN_KEY with
  | Err _ => false
  | Ok entry => is_ok (entry_get_password kr entry)
  end.

#[export] Instance KeyringBackend : SecureStorageBackend Keyring := {
  save_password := keyring_save_password;
  get_password := keyring_get_password;
  delete_password := keyring_delete_password;
  has_password := keyring_has_password
}.

(** The in-memory test double [MockStorageBackend] of the storage tests. *)
Record MockStorage := { mock_storage : gmap string string }.

#[export] Instance MockStorageBackend : SecureStorageBackend MockStorage := {
  save_password m key password :=
    ({| mock_storage := <[key := password]> (mock_storage m) |}, Ok tt);
  get_password m key := ok_or (mock_storage m !! key) "No tokens found in storage";
  delete_password m key := ({| mock_storage := delete key (mock_storage m) |}, Ok tt);
  has_password m key := bool_decide (is_Some (mock_storage m !! key))
}.

(** ** Files ([std::fs]) *)

(** UTF-8 validity, as [String::from_utf8] and [read_to_string] check it. *)
Definition byte_in (lo hi : N) (c : ascii) : bool :=
  (lo <=? N_of_ascii c)%N && (N_of_ascii c <=? hi)%N.

(** The second byte of a multi-byte sequence, by its first byte [n]:
    no overlong forms, no surrogates, nothing above U+10FFFF. *)
Definition second_byte_ok (n : N) (b : ascii) : bool :=
  if (n =? 224)%N then byte_in 160 191 b
  else if (n =? 237)%N then byte_in 128 159 b
  else if (n =? 240)%N then byte_in 144 191 b
  else if (n =? 244)%N then byte_in 128 143 b
  else byte_in 128 191 b.

Fixpoint utf8_valid (s : string) : bool :=
  match s with
  | EmptyString => true
  | String a rest =>
      let n := N_of_ascii a in
      if (n <? 128)%N then utf8_valid rest
      else if (194 <=? n)%N && (n <=? 223)%N then
        match rest with
        | String b r => byte_in 128 191 b && utf8_valid r
        | _ => false
        end
      else if (224 <=? n)%N && (n <=? 239)%N then
        match rest with
        | String b (String c r) => second_byte_ok n b && byte_in 128 191 c && utf8_valid r
        | _ => false
        end
      else if (240 <=? n)%N && (n <=? 244)%N then
        match rest with
        | String b (String c (String d r)) =>
            second_byte_ok n b && byte_in 128 191 c && byte_in 128 191 d && utf8_valid r
        | _ => false
        end
      else false
  end.

(** A file as [std::fs] sees it: its bytes, and the error the operating
    system reports when reading it or removing it, if it does. *)
Record File := {
  file_bytes : string;
  file_read_error : option string;
  file_remove_error : option string
}.

(** The file system: the paths for which [Path::exists] is true. *)
Abbreviation Fs := (gmap string File).

Definition not_found : string := "No such file or directory (os error 2)".

(** [std::fs::read_to_string]: the bytes of the file, which must be UTF-8. *)
Definition read_to_string (fs : Fs) (path : string) : result string string :=
  match fs !! path with
  | None => Err not_found
  | Some f =>
      match file_read_error f with
      | Some e => Err e
      | None =>
          if utf8_valid (file_bytes f) then Ok (file_bytes f)
          else Err "stream did not contain valid UTF-8"
      end
  end.

(** [std::fs::remove_file]. *)
Definition fs_remove_file (fs : Fs) (path : string) : Fs * result unit string :=
  match fs !! path with
  | None => (fs, Err not_found)
  | Some f =>
      match file_remove_error f with
      | Some e => (fs, Err e)
      | None => (delete path fs, Ok tt)
      end
  end.

(** A file that can be read and removed. *)
Definition plain_file (bytes : string) : File :=
  {| file_bytes := bytes; file_read_error := None; file_remove_error := None |}.

Section SecureStorage.
Context {B : Type} `{SecureStorageBackend B}.

Definition save_tokens (b : B) (tokens : AuthTokens) : B * result unit string :=
  save_password b TOKEN_KEY (tokens_to_string tokens).

Definition load_tokens (b : B) : result AuthTokens string :=
  bind_res (get_password b TOKEN_KEY) (fun json =>
    map_err (fun e => "Failed to deserialize tokens: " ++ e) (tokens_from_str json)).

Definition delete_tokens (b : B) : B * result unit string :=
  delete_password b TOKEN_KEY.

Definition has_tokens (b : B) : bool := has_password b TOKEN_KEY.

Definition migrate_from_file (b : B) (fs : Fs) (file_path : string)
  : B * Fs * result bool string :=
  if negb (bool_decide (is_Some (fs !! file_path))) then (b, fs, Ok false)  (* No file to migrate *)
  else
    match read_to_string fs file_path with
    | Err e => (b, fs, Err ("Failed to read token file: " ++ e))
    | Ok json =>
        match tokens_from_str json with
        | Err e => (b, fs, Err ("Failed to parse token file: " ++ e))
        | Ok tokens =>
            let '(b', r) := save_tokens b tokens in
            match r with
            | Err e => (b', fs, Err e)
            | Ok _ =>
                let '(fs', r') := fs_remove_file fs file_path in
                match r' with
                | Err e => (b', fs', Err ("Failed to delete old token file: " ++ e))
                | Ok _ => (b', fs', Ok true)
                end
            end
        end
    end.

End SecureStorage.

(* ================================================================= *)
(** ** OAuth helpers ([gmail_auth.rs]) *)

(** The parts of the provider's token response that [GmailAuth] reads:
    [access_token()], [refresh_token()] and [expires_in()] in seconds. *)
Record TokenResponse := {
  tr_access_token : string;
  tr_refresh_token : option string;
  tr_expires_in : option N
}.

(** [GmailAuth]: the configured client and the anti-forgery token of the
    authorization URL it produced, if any. *)
Record GmailAuth := {
  ga_client_id : string;
  ga_csrf_token : option string
}.

(** The result of [GmailAuth::exchange_code] once the provider answered. *)
Definition exchange_code_of (token_result : TokenResponse) : AuthTokens :=
  {| access_token := tr_access_token token_result;
     refresh_token := tr_refresh_token token_result;
     expires_in := tr_expires_in token_result |}.

(** The result of [GmailAuth::refresh_access_token refresh_token] once the
    provider answered: [.or_else(|| Some(refresh_token.to_string()))]
    keeps the existing refresh token if no new one is issued. *)
Definition refresh_access_token_of (refresh_token : string) (token_result : TokenResponse)
  : AuthTokens :=
  {| access_token := tr_access_token token_result;
     refresh_token := match tr_refresh_token token_result with
                      | Some rt => Some rt
                      | None => Some refresh_token
                      end;
     expires_in := tr_expires_in token_result |}.

(** *** URLs ([url::Url]) *)

(** A parsed URL: scheme, the part before the query, and the query. *)
Record Url := {
  url_scheme : string;
  url_path : string;
  url_query : option string
}.

(** The input before the first [c], and the input after it if [c] occurs. *)
Fixpoint split_first (c : ascii) (s : string) : string * option string :=
  match s with
  | EmptyString => (EmptyString, None)
  | String d rest =>
      if Ascii.eqb c d then (EmptyString, Some rest)
      else let '(before, after) := split_first c rest in (String d before, after)
  end.

Definition is_alpha (c : ascii) : bool :=
  let n := N_of_ascii c in ((65 <=? n)%N && (n <=? 90)%N) || ((97 <=? n)%N && (n <=? 122)%N).

Definition is_scheme_char (c : ascii) : bool :=
  is_alpha c || is_digit c || Ascii.eqb c "+" || Ascii.eqb c "-" || Ascii.eqb c ".".

Fixpoint all_chars (p : ascii -> bool) (s : string) : bool :=
  match s with
  | EmptyString => true
  | String c rest => p c && all_chars p rest
  end.

(** A C0 control or a space (bytes 0 to 32). *)
Definition c0_or_space (c : ascii) : bool := (N_of_ascii c <=? 32)%N.

Definition not_c0_or_space (c : ascii) : bool := negb (c0_or_space c).

Fixpoint trim_start_c0 (s : string) : string :=
  match s with
  | String c rest => if c0_or_space c then trim_start_c0 rest else s
  | EmptyString => EmptyString
  end.

Fixpoint trim_end_c0 (s : string) : string :=
  match s with
  | EmptyString => EmptyString
  | String c rest =>
      match trim_end_c0 rest with
      | EmptyString => if c0_or_space c then EmptyString else String c EmptyString
      | rest' => String c rest'
      end
  end.

Definition is_tab_or_newline (c : ascii) : bool :=
  let n := N_of_ascii c in (n =? 9)%N || (n =? 10)%N || (n =? 13)%N.

Fixpoint remove_tab_newline (s : string) : string :=
  match s with
  | EmptyString => EmptyString
  | String c rest =>
      if is_tab_or_newline c then remove_tab_newline rest
      else String c (remove_tab_newline rest)
  end.

(** [Url::parse] without a base: leading and trailing C0 controls and
    spaces are trimmed and every tab and newline removed; then a scheme (a
    letter followed by letters, digits, [+], [-] or [.]) ended by a colon
    is required; the fragment starts at the first [#], the query at the
    first [?] before it. The model checks the scheme only, not the host or
    path, and keeps the query's bytes as they are where the crate
    percent-encodes some of them: [query_pairs] decodes those again. *)
Definition url_parse (input : string) : result Url string :=
  match split_first ":" (remove_tab_newline (trim_end_c0 (trim_start_c0 input))) with
  | (String c scheme_tail as scheme, Some rest) =>
      if is_alpha c && all_chars is_scheme_char scheme_tail then
        let '(before_fragment, _) := split_first "#" rest in
        let '(path, query) := split_first "?" before_fragment in
        Ok {| url_scheme := scheme; url_path := path; url_query := query |}
      else Err "relative URL without a base"
  | _ => Err "relative URL without a base"
  end.

Fixpoint split_on (c : ascii) (s : string) (cur : string) : list string :=
  match s with
  | EmptyString => [cur]
  | String d rest =>
      if Ascii.eqb c d then cur :: split_on c rest EmptyString
      else split_on c rest (cur ++ String d EmptyString)
  end.

(** [application/x-www-form-urlencoded] decoding: [+] is a space, [%XY]
    with two hex digits is the byte XY, any other [%] is kept. *)
Fixpoint percent_decode (s : string) : string :=
  match s with
  | EmptyString => EmptyString
  | String c rest =>
      if Ascii.eqb c "+" then String " " (percent_decode rest)
      else if Ascii.eqb c "%" then
        match rest with
        | String h1 (String h2 rest') =>
            match hex_val h1, hex_val h2 with
            | Some a, Some b => String (ascii_of_N (a * 16 + b)) (percent_decode rest')
            | _, _ => String c (percent_decode rest)
            end
        | _ => String c (percent_decode rest)
        end
      else String c (percent_decode rest)
  end.

(** [form_urlencoded::parse]: the query split on [&], empty pieces
    skipped, each piece split at its first [=]. *)
Definition parse_pairs (query : string) : list (string * string) :=
  flat_map (fun piece =>
              match piece with
              | EmptyString => []
              | _ => let '(k, v) := split_first "=" piece in
                     [(percent_decode k, match v with Some v' => percent_decode v' | None => "" end)]
              end)
           (split_on "&" query EmptyString).

(** [Url::query_pairs]. The crate turns each decoded name and value into
    a string with [decode_utf8_lossy], which changes nothing on UTF-8
    bytes; the model returns the bytes. *)
Definition query_pairs (u : Url) : list (string * string) :=
  match url_query u with Some q => parse_pairs q | None => [] end.

(** [.collect::<HashMap<String, String>>()]: later pairs overwrite earlier
    ones. *)
Definition collect_params (l : list (string * string)) : gmap string string :=
  fold_left (fun m '(k, v) => <[k := v]> m) l ∅.

(** [parse_callback_url]. *)
Definition parse_callback_url (url : string) : result (string * option string) string :=
  match url_parse url with
  | Err e => Err e
  | Ok parsed_url =>
      let params := collect_params (query_pairs parsed_url) in
      match params !! "error" with
      | Some error => Err ("OAuth error: " ++ error)
      | None =>
          match params !! "code" with
          | None => Err "No authorization code found"
          | Some code => Ok (code, params !! "state")
          end
      end
  end.

(* ================================================================= *)
(** ** The application state and the command handlers ([main.rs]) *)

(** The mail data the handlers read from the provider. The header
    helpers of [GmailMessage] ([get_subject], [get_from], ...) belong to the
    REST client and are represented by their results. *)
Record GmailMessage := {
  gm_id : string;
  gm_snippet : string;
  gm_subject : string;
  gm_from : string;
  gm_date : option string;
  gm_message_id : option string;
  gm_references : option string;
  gm_is_unread : bool;
  gm_body_text : string;
  gm_body_html : option string
}.

Record GmailProfile := { messages_total : option N }.

Record GmailResponse := {
  resp_messages : option (list (string * string));  (* (id, thread_id) *)
  result_size_estimate : option N
}.

Record Email := {
  email_id : string;
  thread_id : string;
  subject : string;
  sender : string;
  snippet : string;
  is_read : bool
}.

(** Calls that leave the process: to the mail API and to the OAuth token
    endpoint. *)
Inductive net_call :=
| CallGetProfile
| CallListMessages (max_results : option N) (page_token : option string) (query : option string)
| CallGetMessagesBatch (ids : list string)
| CallGetMessage (id : string)
| CallMarkAsRead (id : string)
| CallMarkAsUnread (id : string)
| CallSendEmail (to subject body : string) (in_reply_to references : option string)
| CallCheckForNewEmails (since : option string)
| CallRefresh (session : GmailAuth) (refresh_token : string)
| CallExchange (session : GmailAuth) (code : string).

(** Observable effects of a handler, in the order it performs them. *)
Inductive event :=
| EvRateCheck (operation : string)      (* rate_limiter.check_rate_limit *)
| EvReadTokens                          (* auth_tokens.lock() and clone *)
| EvWriteTokens (t : option AuthTokens) (* *auth_tokens.lock() = ... *)
| EvReadSession                         (* gmail_auth.lock() and clone *)
| EvWriteSession (s : option GmailAuth) (* *gmail_auth.lock() = ... *)
| EvLoadConfig                          (* GmailAuth::new() *)
| EvNetwork (tokens : option AuthTokens) (call : net_call)
| EvPersist                             (* keyring write or delete *)
| EvReadLastCheck
| EvWriteLastCheck (t : option string)
| EvRemoveFile (path : string).

(** The answers of everything outside the process. *)
Record Upstream := {
  up_config : result GmailAuth string;                (* GmailAuth::new() *)
  up_auth_url : GmailAuth -> string * string;         (* URL, fresh CSRF token *)
  up_get_profile : AuthTokens -> result GmailProfile string;
  up_list_messages : AuthTokens -> option N -> option string -> option string ->
                     result GmailResponse string;
  up_get_messages_batch : AuthTokens -> list string -> result (list GmailMessage) string;
  up_get_message : AuthTokens -> string -> result GmailMessage string;
  up_mark_as_read : AuthTokens -> string -> result unit string;
  up_mark_as_unread : AuthTokens -> string -> result unit string;
  up_send_email : AuthTokens -> string -> string -> string -> option string ->
                  option string -> result string string;
  up_check_for_new_emails : AuthTokens -> option string -> result (list string) string;
  up_refresh : GmailAuth -> string -> result TokenResponse string;
  up_exchange : GmailAuth -> string -> result TokenResponse string
}.

(** [struct AppState] together with the process environment the handlers
    touch: the OS keyring, the legacy token file, the clock (nanoseconds,
    used for [Instant::now] and for [SystemTime::now] since the epoch) and
    the trace of effects. *)
Record AppState := {
  gmail_auth : option GmailAuth;
  auth_tokens : option AuthTokens;
  last_check_time : option string;
  rate_limiter : limiter;
  keyring : Keyring;
  files : Fs;
  clock : N;
  trace : list event
}.

Definition M (A : Type) : Type := AppState -> AppState * result A string.

#[export] Instance M_ret : MRet M := fun A a s => (s, Ok a).
#[export] Instance M_bind : MBind M := fun A B k m s =>
  match m s with
  | (s', Ok a) => k a s'
  | (s', Err e) => (s', Err e)
  end.

Definition fail {A} (e : string) : M A := fun s => (s, Err e).

Definition lift {A} (r : result A string) : M A := fun s => (s, r).

(** Runs [m] and hands its result, success or failure, to the caller:
    the [match ... { Ok(..) => .., Err(..) => .. }] of the handlers. *)
Definition attempt {A} (m : M A) : M (result A string) :=
  fun s => let '(s', r) := m s in (s', Ok r).

Definition map_err_m {A} (f : string -> string) (m : M A) : M A :=
  fun s => let '(s', r) := m s in (s', map_err f r).

Definition set_trace (s : AppState) (tr : list event) : AppState :=
  {| gmail_auth := gmail_auth s; auth_tokens := auth_tokens s;
     last_check_time := last_check_time s; rate_limiter := rate_limiter s;
     keyring := keyring s; files := files s; clock := clock s; trace := tr |}.

Definition log (ev : event) : M unit := fun s => (set_trace s (trace s ++ [ev]), Ok tt).

Definition rate_check (operation : string) : M unit := fun s =>
  let '(limits', r) := check_rate_limit (rate_limiter s) operation (clock s) in
  ({| gmail_auth := gmail_auth s; auth_tokens := auth_tokens s;
      last_check_time := last_check_time s; rate_limiter := limits';
      keyring := keyring s; files := files s; clock := clock s;
      trace := trace s ++ [EvRateCheck operation] |}, r).

Definition read_tokens : M (option AuthTokens) := fun s =>
  (set_trace s (trace s ++ [EvReadTokens]), Ok (auth_tokens s)).

Definition write_tokens (t : option AuthTokens) : M unit := fun s =>
  ({| gmail_auth := gmail_auth s; auth_tokens := t;
      last_check_time := last_check_time s; rate_limiter := rate_limiter s;
      keyring := keyring s; files := files s; clock := clock s;
      trace := trace s ++ [EvWriteTokens t] |}, Ok tt).

Definition read_session : M (option GmailAuth) := fun s =>
  (set_trace s (trace s ++ [EvReadSession]), Ok (gmail_auth s)).

Definition write_session (g : option GmailAuth) : M unit := fun s =>
  ({| gmail_auth := g; auth_tokens := auth_tokens s;
      last_check_time := last_check_time s; rate_limiter := rate_limiter s;
      keyring := keyring s; files := files s; clock := clock s;
      trace := trace s ++ [EvWriteSession g] |}, Ok tt).

Definition read_last_check : M (option string) := fun s =>
  (set_trace s (trace s ++ [EvReadLastCheck]), Ok (last_check_time s)).

Definition write_last_check (t : option string) : M unit := fun s =>
  ({| gmail_auth := gmail_auth s; auth_tokens := auth_tokens s;
      last_check_time := t; rate_limiter := rate_limiter s;
      keyring := keyring s; files := files s; clock := clock s;
      trace := trace s ++ [EvWriteLastCheck t] |}, Ok tt).

Definition now : M N := fun s => (s, Ok (clock s)).

Definition net {A} (tokens : option AuthTokens) (call : net_call) (answer : result A string)
  : M A :=
  log (EvNetwork tokens call);; lift answer.

(** [SecureStorage::save_tokens] on the OS keyring. *)
Definition persist_tokens (t : AuthTokens) : M unit := fun s =>
  let '(kr', r) := save_tokens (keyring s) t in
  ({| gmail_auth := gmail_auth s; auth_tokens := auth_tokens s;
      last_check_time := last_check_time s; rate_limiter := rate_limiter s;
      keyring := kr'; files := files s; clock := clock s;
      trace := trace s ++ [EvPersist] |}, r).

(** [SecureStorage::delete_tokens] on the OS keyring. *)
Definition erase_tokens : M unit := fun s =>
  let '(kr', r) := delete_tokens (keyring s) in
  ({| gmail_auth := gmail_auth s; auth_tokens := auth_tokens s;
      last_check_time := last_check_time s; rate_limiter := rate_limiter s;
      keyring := kr'; files := files s; clock := clock s;
      trace := trace s ++ [EvPersist] |}, r).

Definition remove_file (path : string) : M unit := fun s =>
  let '(fs', r) := fs_remove_file (files s) path in
  ({| gmail_auth := gmail_auth s; auth_tokens := auth_tokens s;
      last_check_time := last_check_time s; rate_limiter := rate_limiter s;
      keyring := keyring s; files := fs'; clock := clock s;
      trace := trace s ++ [EvRemoveFile path] |}, r).

Definition file_exists (path : string) : M bool := fun s =>
  (s, Ok (bool_decide (is_Some (files s !! path)))).

Section Handlers.
Variable U : Upstream.

(** [GmailAuth::new().map_err(|e| e.to_string())?]. *)
Definition gmail_auth_new : M GmailAuth := log EvLoadConfig;; lift (up_config U).

(** [refresh_tokens_if_needed]. *)
Definition refresh_tokens_if_needed : M AuthTokens :=
  tokens ← read_tokens;
  tokens ← lift (ok_or tokens "Not authenticated");
  probe ← attempt (net (Some tokens) CallGetProfile (up_get_profile U tokens));
  match probe with
  | Ok _ => mret tokens   (* Tokens work fine *)
  | Err _ =>
      match refresh_token tokens with
      | Some rt =>
          gmail_auth ← gmail_auth_new;
          token_result ← net None (CallRefresh gmail_auth rt) (up_refresh U gmail_auth rt);
          let new_tokens := refresh_access_token_of rt token_result in
          write_tokens (Some new_tokens);;
          map_err_m (fun e => "Failed to save tokens: " ++ e) (persist_tokens new_tokens);;
          mret new_tokens
      | None => fail "No refresh token available"
      end
  end.

Definition nat_label (i : nat) : string := N_to_string (N.of_nat i).

(** The placeholder mailbox of [get_emails]. *)
Definition mock_emails : list Email :=
  map (fun i =>
         {| email_id := "email_" ++ nat_label i;
            thread_id := "thread_" ++ nat_label ((i - 1) / 3 + 1);
            subject := "Email Subject " ++ nat_label i;
            sender := "sender" ++ nat_label i ++ "@example.com";
            snippet := "This is a preview of the email content...";
            is_read := Nat.eqb (i mod 2) 0 |})
      (seq 1 20).

Definition email_of_message (message_refs : list (string * string)) (msg : GmailMessage)
  : Email :=
  {| email_id := gm_id msg;
     thread_id := match find (fun p => String.eqb (fst p) (gm_id msg)) message_refs with
                  | Some (_, t) => t
                  | None => gm_id msg   (* Fallback to message id if not found *)
                  end;
     subject := gm_subject msg;
     sender := gm_from msg;
     snippet := gm_snippet msg;
     is_read := negb (gm_is_unread msg) |}.

(** [get_emails]. *)
Definition get_emails : M (list Email) :=
  rate_check "get_emails";;
  r ← attempt refresh_tokens_if_needed;
  match r with
  | Err _ => mret mock_emails
  | Ok tokens =>
      response ← net (Some tokens) (CallListMessages (Some 20%N) None None)
                     (up_list_messages U tokens (Some 20%N) None None);
      let message_refs := match resp_messages response with Some l => l | None => [] end in
      let message_ids := map fst message_refs in
      gmail_messages ← net (Some tokens) (CallGetMessagesBatch message_ids)
                           (up_get_messages_batch U tokens message_ids);
      mret (map (email_of_message message_refs) gmail_messages)
  end.

(** [get_inbox_stats]. *)
Definition get_inbox_stats : M (N * N) :=
  r ← attempt refresh_tokens_if_needed;
  match r with
  | Err _ => mret (6303%N, 3151%N)
  | Ok tokens =>
      p ← attempt (net (Some tokens) CallGetProfile (up_get_profile U tokens));
      match p with
      | Ok profile =>
          let total := match messages_total profile with Some t => t | None => 0%N end in
          u ← attempt (net (Some tokens) (CallListMessages (Some 1%N) None (Some "is:unread"))
                           (up_list_messages U tokens (Some 1%N) None (Some "is:unread")));
          match u with
          | Ok unread_response =>
              mret (total, match result_size_estimate unread_response with
                           | Some n => n | None => 0%N end)
          | Err _ => mret (total, 0%N)
          end
      | Err e => fail e
      end
  end.

(** [start_gmail_auth]. *)
Definition start_gmail_auth : M string :=
  gmail_auth ← gmail_auth_new;
  let '(auth_url, csrf_token) := up_auth_url U gmail_auth in
  write_session (Some {| ga_client_id := ga_client_id gmail_auth;
                         ga_csrf_token := Some csrf_token |});;
  mret auth_url.

(** [get_email_content]; the [serde_json::json!] object as a [json]. *)
Definition get_email_content (email_id : string) : M json :=
  rate_check "get_email_content";;
  tokens ← read_tokens;
  match tokens with
  | None => fail "Not authenticated"
  | Some tokens =>
      message ← net (Some tokens) (CallGetMessage email_id) (up_get_message U tokens email_id);
      mret (JObj [("id", JStr (gm_id message));
                  ("subject", JStr (gm_subject message));
                  ("sender", JStr (gm_from message));
                  ("date", match gm_date message with Some d => JStr d | None => JNull end);
                  ("body_text", JStr (gm_body_text message));
                  ("body_html", match gm_body_html message with Some h => JStr h | None => JNull end);
                  ("snippet", JStr (gm_snippet message));
                  ("is_unread", JBool (gm_is_unread message))])
  end.

(** [complete_gmail_auth]: the session is cloned out of the mutex. *)
Definition complete_gmail_auth (callback_url : string) : M string :=
  '(code, _state) ← lift (parse_callback_url callback_url);
  session ← read_session;
  gmail_auth ← lift (ok_or session "No auth session found");
  token_result ← net None (CallExchange gmail_auth code) (up_exchange U gmail_auth code);
  let tokens := exchange_code_of token_result in
  write_tokens (Some tokens);;
  map_err_m (fun e => "Failed to save tokens: " ++ e) (persist_tokens tokens);;
  mret "Authentication successful!".

(** The legacy token file [get_token_file_path()]. *)
Definition token_file_path : string := "~/.config/aisle3/tokens.json".

(** [logout_gmail]. *)
Definition logout_gmail : M string :=
  write_tokens None;;
  erase_tokens;;
  present ← file_exists token_file_path;
  if (present : bool) then remove_file token_file_path;; mret "Logged out successfully"
  else mret "Logged out successfully".

(** [get_auth_status]. *)
Definition get_auth_status : M bool :=
  tokens ← read_tokens;
  mret (bool_decide (is_Some tokens)).

(** [mark_email_as_read]. *)
Definition mark_email_as_read (email_id : string) : M string :=
  r ← attempt refresh_tokens_if_needed;
  match r with
  | Err e => fail ("Authentication required: " ++ e)
  | Ok tokens =>
      m ← attempt (net (Some tokens) (CallMarkAsRead email_id) (up_mark_as_read U tokens email_id));
      match m with
      | Ok _ => mret "Email marked as read"
      | Err e => fail ("Failed to mark email as read: " ++ e)
      end
  end.

(** [mark_email_as_unread]. *)
Definition mark_email_as_unread (email_id : string) : M string :=
  r ← attempt refresh_tokens_if_needed;
  match r with
  | Err e => fail ("Authentication required: " ++ e)
  | Ok tokens =>
      m ← attempt (net (Some tokens) (CallMarkAsUnread email_id)
                       (up_mark_as_unread U tokens email_id));
      match m with
      | Ok _ => mret "Email marked as unread"
      | Err e => fail ("Failed to mark email as unread: " ++ e)
      end
  end.

(** The address of a ["Name <addr>"] sender: the bytes between the first
    [<] and the first [>]. A [>] before the [<] makes the Rust slice
    [original_sender[start + 1..end]] panic, modelled as a failure. *)
Definition reply_address (original_sender : string) : result string string :=
  match index 0 "<" original_sender with
  | Some start =>
      match index 0 ">" original_sender with
      | Some end_ =>
          if Nat.leb (start + 1) end_
          then Ok (substring (start + 1) (end_ - (start + 1)) original_sender)
          else Err "panic: slice index starts after its end"
      | None => Ok original_sender
      end
  | None => Ok original_sender
  end.

Definition reply_subject (original_subject : string) : string :=
  if String.prefix "Re: " original_subject then original_subject
  else "Re: " ++ original_subject.

Definition reply_references (message_id references : option string) : option string :=
  match message_id, references with
  | Some msg_id, Some refs => Some (refs ++ " " ++ msg_id)
  | Some msg_id, None => Some msg_id
  | _, _ => None
  end.

(** [send_reply]. *)
Definition send_reply (original_email_id reply_body : string) : M string :=
  rate_check "send_reply";;
  r ← attempt refresh_tokens_if_needed;
  match r with
  | Err e => fail ("Authentication required: " ++ e)
  | Ok tokens =>
      original_email ←
        map_err_m (fun e => "Failed to get original email: " ++ e)
          (net (Some tokens) (CallGetMessage original_email_id)
               (up_get_message U tokens original_email_id));
      to_email ← lift (reply_address (gm_from original_email));
      let subj := reply_subject (gm_subject original_email) in
      let message_id := gm_message_id original_email in
      let refs := reply_references message_id (gm_references original_email) in
      sent ← attempt (net (Some tokens) (CallSendEmail to_email subj reply_body message_id refs)
                          (up_send_email U tokens to_email subj reply_body message_id refs));
      match sent with
      | Ok new_id => mret ("Reply sent successfully! Message ID: " ++ new_id)
      | Err e => fail ("Failed to send reply: " ++ e)
      end
  end.

(** [check_for_new_emails_since_last_check]. *)
Definition check_for_new_emails_since_last_check : M (list string) :=
  r ← attempt refresh_tokens_if_needed;
  match r with
  | Err e => fail ("Authentication required: " ++ e)
  | Ok tokens =>
      last_check ← read_last_check;
      c ← attempt (net (Some tokens) (CallCheckForNewEmails last_check)
                       (up_check_for_new_emails U tokens last_check));
      match c with
      | Ok new_email_ids =>
          t ← now;
          write_last_check (Some (N_to_string (as_secs t)));;
          mret new_email_ids
      | Err e => fail e
      end
  end.

End Handlers.

(* ================================================================= *)
(** ** Start-up ([main.rs]) *)

(** [load_tokens] of [main.rs], run once before the application starts:
    the keyring first, then a one-time migration of the legacy token file
    ([SecureStorage::migrate_from_file] on [get_token_file_path()]). *)
Definition startup_load_tokens (kr : Keyring) (fs : Fs) : Keyring * Fs * option AuthTokens :=
  match load_tokens kr with
  | Ok tokens => (kr, fs, Some tokens)
  | Err _ =>
      if bool_decide (is_Some (fs !! token_file_path)) then
        match migrate_from_file kr fs token_file_path with
        | (kr', fs', Ok true) =>
            (kr', fs', match load_tokens kr' with Ok t => Some t | Err _ => None end)
        | (kr', fs', _) => (kr', fs', None)
        end
      else (kr, fs, None)
  end.

(** The state [main] hands to the application: no session, the saved
    credential, no last check and an empty [RateLimiter::new()]. *)
Definition main_state (kr : Keyring) (fs : Fs) (clock0 : N) : AppState :=
  let '(kr', fs', saved_tokens) := startup_load_tokens kr fs in
  {| gmail_auth := None; auth_tokens := saved_tokens; last_check_time := None;
     rate_limiter := ∅; keyring := kr'; files := fs'; clock := clock0; trace := [] |}.

(* ================================================================= *)
(** ** Resets of the limiter ([rate_limiter.rs], test builds) *)

(** [RateLimiter::reset_all]: [limits.clear()]. *)
Definition reset_all (limits : limiter) : limiter := ∅.

(** [RateLimiter::reset_operation]: [limits.remove(operation)]. *)
Definition reset_operation (limits : limiter) (operation : string) : limiter :=
  delete operation limits.

(* ================================================================= *)
(** ** Credentials from the environment ([gmail_config.rs]) *)

(** [str::contains] with a string pattern. *)
Definition contains (needle haystack : string) : bool :=
  match index 0 needle haystack with Some _ => true | None => false end.

(** [str::is_char_boundary]: byte [i] is not a UTF-8 continuation byte
    [0b10xxxxxx]; the end of the string is a boundary. *)
Definition is_char_boundary (s : string) (i : nat) : bool :=
  match get i s with
  | Some c => negb (N.land (N_of_ascii c) 192 =? 128)%N
  | None => Nat.eqb i (String.length s)
  end.

(** [GoogleCredentials::validate_credentials]. The slice
    [&client_secret[..min(8, len)]] panics when it cuts a character. *)
Definition validate_credentials (client_id client_secret : string) : result unit string :=
  if negb (contains ".apps.googleusercontent.com" client_id) then
    Err ("Invalid client_id format: '" ++ client_id
         ++ "' (should contain '.apps.googleusercontent.com')")
  else if negb (String.prefix "GOCSPX-" client_secret) then
    let cut := Nat.min 8 (String.length client_secret) in
    if is_char_boundary client_secret cut then
      Err ("Invalid client_secret format: starts with '" ++ substring 0 cut client_secret
           ++ "...' (should start with 'GOCSPX-')")
    else Err "panic: byte index is not a char boundary"
  else if Nat.ltb (String.length client_id) 20 then
    Err ("client_id too short: " ++ nat_label (String.length client_id)
         ++ " characters (should be at least 20)")
  else if Nat.ltb (String.length client_secret) 20 then
    Err ("client_secret too short: " ++ nat_label (String.length client_secret)
         ++ " characters (should be at least 20)")
  else Ok tt.

Record InstalledApp := {
  client_id : string;
  client_secret : string;
  auth_uri : string;
  token_uri : string
}.

Definition test_credentials : InstalledApp :=
  {| client_id := "test_client_id"; client_secret := "test_client_secret";
     auth_uri := "https://accounts.google.com/o/oauth2/auth";
     token_uri := "https://oauth2.googleapis.com/token" |}.

(** [GoogleCredentials::from_env] over the process environment after
    [dotenvy::dotenv()] (variable name to value). *)
Definition from_env (env : gmap string string) : result InstalledApp string :=
  if bool_decide (is_Some (env !! "CI")) || bool_decide (is_Some (env !! "TESTING"))
  then Ok test_credentials
  else
    match env !! "GOOGLE_CLIENT_ID" with
    | None => Err "GOOGLE_CLIENT_ID environment variable not set"
    | Some cid =>
        match env !! "GOOGLE_CLIENT_SECRET" with
        | None => Err "GOOGLE_CLIENT_SECRET environment variable not set"
        | Some secret =>
            match validate_credentials cid secret with
            | Err e => Err e
            | Ok _ =>
                Ok {| client_id := cid; client_secret := secret;
                      auth_uri := "https://accounts.google.com/o/oauth2/auth";
                      token_uri := "https://oauth2.googleapis.com/token" |}
            end
        end
    end.

Definition REDIRECT_URI : string := "http://localhost:8080/callback".

(* ================================================================= *)
(** ** The REST client ([gmail_client.rs]) *)

(** *** Query strings *)

(** The bytes [urlencoding::encode] leaves as they are. *)
Definition is_unreserved (c : ascii) : bool :=
  is_alpha c || is_digit c || Ascii.eqb c "-" || Ascii.eqb c "." || Ascii.eqb c "_"
  || Ascii.eqb c "~".

Definition hex_upper (d : N) : ascii :=
  if (d <? 10)%N then ascii_of_N (48 + d) else ascii_of_N (55 + d).

(** [urlencoding::encode]: every other byte becomes [%XY], upper-case hex. *)
Fixpoint urlencode (s : string) : string :=
  match s with
  | EmptyString => EmptyString
  | String c rest =>
      if is_unreserved c then String c (urlencode rest)
      else String "%" (String (hex_upper (N_of_ascii c / 16))
                        (String (hex_upper (N_of_ascii c mod 16)) (urlencode rest)))
  end.

(** [slice.join(sep)]. *)
Fixpoint join (sep : string) (l : list string) : string :=
  match l with
  | [] => EmptyString
  | [x] => x
  | x :: rest => x ++ sep ++ join sep rest
  end.

Definition MESSAGES_URL : string := "https://gmail.googleapis.com/gmail/v1/users/me/messages".

(** The URL [GmailClient::list_messages] requests. *)
Definition list_messages_url (max_results : option N) (page_token query : option string)
  : string :=
  let params :=
    (match max_results with Some max => [("maxResults=" ++ N_to_string max)%string] | None => [] end
     ++ match page_token with Some token => [("pageToken=" ++ token)%string] | None => [] end
     ++ match query with Some q => [("q=" ++ urlencode q)%string] | None => [] end)%list in
  match params with
  | [] => MESSAGES_URL
  | _ => MESSAGES_URL ++ "?" ++ join "&" params
  end.

(** The search [GmailClient::check_for_new_emails] hands to
    [list_messages(Some(10), None, Some(&query))]. *)
Definition new_mail_query (since_time : option string) : string :=
  "in:inbox" ++ match since_time with Some time => " after:" ++ time | None => EmptyString end.

Definition check_for_new_emails_url (since_time : option string) : string :=
  list_messages_url (Some 10%N) None (Some (new_mail_query since_time)).

(** *** Base64 ([base64::engine::general_purpose::URL_SAFE]) *)

(** The URL-safe alphabet: [A-Z], [a-z], [0-9], [-], [_]. *)
Definition b64_char (n : N) : ascii :=
  if (n <? 26)%N then ascii_of_N (65 + n)
  else if (n <? 52)%N then ascii_of_N (71 + n)
  else if (n <? 62)%N then ascii_of_N (n - 4)
  else if (n =? 62)%N then "-" else "_".

Definition b64_value (c : ascii) : option N :=
  let n := N_of_ascii c in
  if (65 <=? n)%N && (n <=? 90)%N then Some (n - 65)%N
  else if (97 <=? n)%N && (n <=? 122)%N then Some (n - 71)%N
  else if (48 <=? n)%N && (n <=? 57)%N then Some (n + 4)%N
  else if (n =? 45)%N then Some 62%N
  else if (n =? 95)%N then Some 63%N
  else None.

(** [URL_SAFE.encode]: three bytes to four symbols, the last group padded
    with [=]. *)
Fixpoint b64_encode (s : string) : string :=
  match s with
  | String a (String b (String c rest)) =>
      let p := N_of_ascii a in let q := N_of_ascii b in let r := N_of_ascii c in
      String (b64_char (p / 4))
        (String (b64_char ((p mod 4) * 16 + q / 16))
          (String (b64_char ((q mod 16) * 4 + r / 64))
            (String (b64_char (r mod 64)) (b64_encode rest))))
  | String a (String b EmptyString) =>
      let p := N_of_ascii a in let q := N_of_ascii b in
      String (b64_char (p / 4))
        (String (b64_char ((p mod 4) * 16 + q / 16))
          (String (b64_char ((q mod 16) * 4)) "="))
  | String a EmptyString =>
      let p := N_of_ascii a in
      String (b64_char (p / 4)) (String (b64_char ((p mod 4) * 16)) "==")
  | EmptyString => EmptyString
  end.

(** The last group of four symbols, with its padding and the check that
    the bits it does not use are zero. *)
Definition b64_decode_last (a b c d : ascii) : option string :=
  match b64_value a, b64_value b with
  | Some w, Some x =>
      let p := ascii_of_N (w * 4 + x / 16) in
      if Ascii.eqb c "=" && Ascii.eqb d "=" then
        if (x mod 16 =? 0)%N then Some (String p EmptyString) else None
      else if Ascii.eqb d "=" then
        match b64_value c with
        | Some y =>
            if (y mod 4 =? 0)%N
            then Some (String p (String (ascii_of_N ((x mod 16) * 16 + y / 4)) EmptyString))
            else None
        | None => None
        end
      else
        match b64_value c, b64_value d with
        | Some y, Some z =>
            Some (String p (String (ascii_of_N ((x mod 16) * 16 + y / 4))
                              (String (ascii_of_N ((y mod 4) * 64 + z)) EmptyString)))
        | _, _ => None
        end
  | _, _ => None
  end.

(** [URL_SAFE.decode]: the engine requires canonical padding and zero
    trailing bits, so it accepts exactly the strings [URL_SAFE.encode]
    produces; [None] stands for any [DecodeError]. *)
Fixpoint b64_decode (s : string) : option string :=
  match s with
  | EmptyString => Some EmptyString
  | String a (String b (String c (String d rest))) =>
      match rest with
      | EmptyString => b64_decode_last a b c d
      | _ =>
          match b64_value a, b64_value b, b64_value c, b64_value d, b64_decode rest with
          | Some w, Some x, Some y, Some z, Some r =>
              Some (String (ascii_of_N (w * 4 + x / 16))
                     (String (ascii_of_N ((x mod 16) * 16 + y / 4))
                       (String (ascii_of_N ((y mod 4) * 64 + z)) r)))
          | _, _, _, _, _ => None
          end
      end
  | _ => None
  end.

(** *** Message text *)

(** [URL_SAFE.decode(data)] followed by [String::from_utf8], as
    [get_body_text] and [get_body_html] chain them. *)
Definition decode_text (data : string) : option string :=
  match b64_decode data with
  | Some bytes => if utf8_valid bytes then Some bytes else None
  | None => None
  end.

(** *** Messages as the API returns them *)

Record MessageHeader := { header_name : string; header_value : string }.

Record MessageBody := { body_data : option string }.

Record MessagePart := {
  part_headers : option (list MessageHeader);
  part_body : option MessageBody
}.

Record MessagePayload := {
  payload_headers : option (list MessageHeader);
  payload_parts : option (list MessagePart);
  payload_body : option MessageBody
}.

(** The serde struct [GmailMessage] of [gmail_client.rs] (the record
    [GmailMessage] above holds what the handlers read from it). *)
Record ApiMessage := {
  msg_id : string;
  msg_thread_id : string;
  msg_snippet : string;
  label_ids : option (list string);
  payload : option MessagePayload
}.

Definition ascii_lower (c : ascii) : ascii :=
  let n := N_of_ascii c in
  if (65 <=? n)%N && (n <=? 90)%N then ascii_of_N (n + 32) else c.

(** [str::eq_ignore_ascii_case]. *)
Fixpoint eq_ignore_ascii_case (a b : string) : bool :=
  match a, b with
  | EmptyString, EmptyString => true
  | String x a', String y b' => Ascii.eqb (ascii_lower x) (ascii_lower y) && eq_ignore_ascii_case a' b'
  | _, _ => false
  end.

(** The value of the first header whose name matches [name] up to ASCII
    case. *)
Definition find_header (name : string) (headers : list MessageHeader) : option string :=
  option_map header_value (find (fun h => eq_ignore_ascii_case (header_name h) name) headers).

(** [GmailMessage::get_header]. *)
Definition get_header (m : ApiMessage) (name : string) : option string :=
  match payload m with
  | Some p => match payload_headers p with Some hs => find_header name hs | None => None end
  | None => None
  end.

Definition get_subject (m : ApiMessage) : string :=
  match get_header m "Subject" with Some s => s | None => "(No Subject)" end.

Definition get_from (m : ApiMessage) : string :=
  match get_header m "From" with Some s => s | None => "Unknown Sender" end.

Definition get_date (m : ApiMessage) : option string := get_header m "Date".

Definition get_message_id (m : ApiMessage) : option string := get_header m "Message-ID".

Definition get_references (m : ApiMessage) : option string := get_header m "References".

Definition is_unread (m : ApiMessage) : bool :=
  match label_ids m with Some labels => existsb (String.eqb "UNREAD") labels | None => false end.

(** The decoded body of a part whose [Content-Type] header contains
    [kind], if it decodes to UTF-8 text. *)
Definition part_text (kind : string) (part : MessagePart) : option string :=
  match part_headers part with
  | Some headers =>
      match find_header "Content-Type" headers with
      | Some ct =>
          if contains kind ct then
            match part_body part with
            | Some body => match body_data body with Some data => decode_text data | None => None end
            | None => None
            end
          else None
      | None => None
      end
  | None => None
  end.

(** The first [Some] of [f] along the list: the [for part in parts] loops
    that [return] at the first decodable part. *)
Fixpoint first_some {A B} (f : A -> option B) (l : list A) : option B :=
  match l with
  | [] => None
  | x :: rest => match f x with Some y => Some y | None => first_some f rest end
  end.

(** [GmailMessage::get_body_text]. *)
Definition get_body_text (m : ApiMessage) : string :=
  match payload m with
  | Some p =>
      let main :=
        match payload_body p with
        | Some body => match body_data body with Some data => decode_text data | None => None end
        | None => None
        end in
      match main with
      | Some text => text
      | None =>
          match payload_parts p with
          | Some parts =>
              match first_some (part_text "text/plain") parts with
              | Some text => text
              | None => msg_snippet m
              end
          | None => msg_snippet m
          end
      end
  | None => msg_snippet m
  end.

(** [GmailMessage::get_body_html]. *)
Definition get_body_html (m : ApiMessage) : option string :=
  match payload m with
  | Some p =>
      match payload_parts p with
      | Some parts => first_some (part_text "text/html") parts
      | None => None
      end
  | None => None
  end.

(** What the handlers read from a fetched message through the helpers. *)
Definition message_view (m : ApiMessage) : GmailMessage :=
  {| gm_id := msg_id m; gm_snippet := msg_snippet m; gm_subject := get_subject m;
     gm_from := get_from m; gm_date := get_date m; gm_message_id := get_message_id m;
     gm_references := get_references m; gm_is_unread := is_unread m;
     gm_body_text := get_body_text m; gm_body_html := get_body_html m |}.

(** *** The message [send_email] builds *)

Definition crlf : string := String "013" (String "010" EmptyString).
Definition nl : string := String "010" EmptyString.

(** [str::replace(from, to)] for a non-empty pattern [from]: matches are
    replaced left to right without overlap. [skip] counts the bytes of
    the current match still to be dropped. *)
Fixpoint replace_aux (from to : string) (skip : nat) (s : string) : string :=
  match s with
  | EmptyString => EmptyString
  | String c rest =>
      match skip with
      | S k => replace_aux from to k rest
      | O =>
          if String.prefix from s then to ++ replace_aux from to (String.length from - 1) rest
          else String c (replace_aux from to 0 rest)
      end
  end.

Definition str_replace (from to s : string) : string := replace_aux from to 0 s.

(** The tag-stripping loop of [send_email] over [plain_text.chars()];
    ['<'] and ['>'] are single bytes that never occur inside the encoding
    of another character, so walking the bytes drops the same text. *)
Fixpoint strip_tags (in_tag : bool) (s : string) : string :=
  match s with
  | EmptyString => EmptyString
  | String c rest =>
      if Ascii.eqb c "<" then strip_tags true rest
      else if Ascii.eqb c ">" then strip_tags false rest
      else if in_tag then strip_tags in_tag rest
      else String c (strip_tags in_tag rest)
  end.

(** The byte length of the Unicode [White_Space] character [s] starts
    with, or 0. *)
Definition ws_len (s : string) : nat :=
  match s with
  | String a rest =>
      let n := N_of_ascii a in
      if ((9 <=? n)%N && (n <=? 13)%N) || (n =? 32)%N then 1
      else match rest with
      | String b rest' =>
          let m := N_of_ascii b in
          if (n =? 194)%N && ((m =? 133)%N || (m =? 160)%N) then 2
          else match rest' with
          | String c _ =>
              let k := N_of_ascii c in
              if (n =? 225)%N && (m =? 154)%N && (k =? 128)%N then 3
              else if (n =? 226)%N && (m =? 128)%N
                      && (((128 <=? k)%N && (k <=? 138)%N) || (k =? 168)%N || (k =? 169)%N
                          || (k =? 175)%N) then 3
              else if (n =? 226)%N && (m =? 129)%N && (k =? 159)%N then 3
              else if (n =? 227)%N && (m =? 128)%N && (k =? 128)%N then 3
              else 0
          | EmptyString => 0
          end
      | EmptyString => 0
      end
  | EmptyString => 0
  end.

(** The same on a reversed string: the length of the whitespace
    character the original string ends with. *)
Definition ws_len_rev (s : string) : nat :=
  match s with
  | String a rest =>
      let n := N_of_ascii a in
      if ((9 <=? n)%N && (n <=? 13)%N) || (n =? 32)%N then 1
      else match rest with
      | String b rest' =>
          let m := N_of_ascii b in
          if (m =? 194)%N && ((n =? 133)%N || (n =? 160)%N) then 2
          else match rest' with
          | String c _ =>
              let k := N_of_ascii c in
              if (k =? 225)%N && (m =? 154)%N && (n =? 128)%N then 3
              else if (k =? 226)%N && (m =? 128)%N
                      && (((128 <=? n)%N && (n <=? 138)%N) || (n =? 168)%N || (n =? 169)%N
                          || (n =? 175)%N) then 3
              else if (k =? 226)%N && (m =? 129)%N && (n =? 159)%N then 3
              else if (k =? 227)%N && (m =? 128)%N && (n =? 128)%N then 3
              else 0
          | EmptyString => 0
          end
      | EmptyString => 0
      end
  | EmptyString => 0
  end.

(** Drops leading characters whose length [len] reports; [skip] counts the
    bytes of the current one still to be dropped. *)
Fixpoint drop_leading (len : string -> nat) (skip : nat) (s : string) : string :=
  match s with
  | EmptyString => EmptyString
  | String _ rest =>
      match skip with
      | S k => drop_leading len k rest
      | O => match len s with O => s | S k => drop_leading len k rest end
      end
  end.

Fixpoint rev_str (s : string) : string :=
  match s with
  | EmptyString => EmptyString
  | String c rest => rev_str rest ++ String c EmptyString
  end.

(** [str::trim]. *)
Definition trim (s : string) : string :=
  rev_str (drop_leading ws_len_rev 0 (rev_str (drop_leading ws_len 0 s))).

(** The plain-text alternative of an HTML body. *)
Definition html_to_plain (body : string) : string :=
  let plain_text :=
    str_replace "</li>" nl (str_replace "</div>" nl (str_replace "</p>" (nl ++ nl)
      (str_replace "<br />" nl (str_replace "<br/>" nl (str_replace "<br>" nl body))))) in
  trim (strip_tags false plain_text).

Definition is_html (body : string) : bool :=
  contains "<" body && (contains "</" body || contains "/>" body).

Definition boundary : string := "boundary_email_content_12345".

Definition reply_header_lines (in_reply_to references : option string) : string :=
  match in_reply_to with Some reply_to => "In-Reply-To: " ++ reply_to ++ crlf | None => EmptyString end
  ++ match references with Some refs => "References: " ++ refs ++ crlf | None => EmptyString end.

(** The RFC 2822 text [email_content] of [GmailClient::send_email]. *)
Definition email_content (to subject body : string) (in_reply_to references : option string)
  : string :=
  "To: " ++ to ++ crlf ++ "Subject: " ++ subject ++ crlf ++ "MIME-Version: 1.0" ++ crlf ++
  (if is_html body then
    "Content-Type: multipart/alternative; boundary=" ++ String dq (boundary ++ String dq crlf)
    ++ reply_header_lines in_reply_to references ++ crlf
    ++ "--" ++ boundary ++ crlf
    ++ "Content-Type: text/plain; charset=utf-8" ++ crlf
    ++ "Content-Transfer-Encoding: 7bit" ++ crlf ++ crlf
    ++ html_to_plain body ++ crlf ++ crlf
    ++ "--" ++ boundary ++ crlf
    ++ "Content-Type: text/html; charset=utf-8" ++ crlf
    ++ "Content-Transfer-Encoding: 7bit" ++ crlf ++ crlf
    ++ body ++ crlf ++ crlf
    ++ "--" ++ boundary ++ "--" ++ crlf
  else
    "Content-Type: text/plain; charset=utf-8" ++ crlf
    ++ reply_header_lines in_reply_to references ++ crlf ++ body).

(** The JSON payload [send_email] posts. *)
Definition send_request (to subject body : string) (in_reply_to references thread_id : option string)
  : json :=
  JObj (("raw", JStr (b64_encode (email_content to subject body in_reply_to references)))
        :: match thread_id with Some tid => [("threadId", JStr tid)] | None => [] end).

(* ================================================================= *)
(** ** Sample inputs *)

(** A configured OAuth client with the anti-forgery token of its last
    authorization URL. *)
Definition sample_session : GmailAuth :=
  {| ga_client_id := "client-1"; ga_csrf_token := Some "csrf-1" |}.

Definition sample_tokens : AuthTokens :=
  {| access_token := "ya29.A1"; refresh_token := Some "R1"; expires_in := Some 3599%N |}.

(** A renewal answer of the token endpoint that issues no new refresh token. *)
Definition renewal_response : TokenResponse :=
  {| tr_access_token := "ya29.A2"; tr_refresh_token := None; tr_expires_in := Some 3599%N |}.

(** The answer to the first code exchange. *)
Definition grant_response : TokenResponse :=
  {| tr_access_token := "ya29.A1"; tr_refresh_token := Some "R1"; tr_expires_in := Some 3599%N |}.

(** An empty, reachable OS vault. *)
Definition vault : Keyring := {| kr_entries := ∅; kr_available := true |}.

(** The provider; [profile_ok] tells whether the current access token
    is still accepted by the profile probe. *)
Definition sample_upstream (profile_ok : bool) : Upstream := {|
  up_config := Ok sample_session;
  up_auth_url := fun _ => ("https://accounts.google.com/o/oauth2/auth?state=csrf-1", "csrf-1");
  up_get_profile := fun _ =>
    if profile_ok then Ok {| messages_total := Some 42%N |} else Err "401 Unauthorized";
  up_list_messages := fun _ _ _ _ =>
    Ok {| resp_messages := Some []; result_size_estimate := Some 7%N |};
  up_get_messages_batch := fun _ _ => Ok [];
  up_get_message := fun _ _ => Err "404 Not Found";
  up_mark_as_read := fun _ _ => Ok tt;
  up_mark_as_unread := fun _ _ => Ok tt;
  up_send_email := fun _ _ _ _ _ _ => Ok "m-2";
  up_check_for_new_emails := fun _ _ => Ok [];
  up_refresh := fun _ _ => Ok renewal_response;
  up_exchange := fun _ _ => Ok grant_response |}.

Definition sample_state (tokens : option AuthTokens) (session : option GmailAuth)
  (limits : limiter) : AppState :=
  {| gmail_auth := session; auth_tokens := tokens; last_check_time := None;
     rate_limiter := limits; keyring := vault; files := ∅;
     clock := from_secs 1000; trace := [] |}.

(** The bucket of [get_inbox_stats] after 20 calls ten seconds ago. *)
Definition saturated_inbox_stats : limiter :=
  <["get_inbox_stats" := {| requests := repeat (from_secs 990) 20;
                            max_requests := 20; window_duration := from_secs 60 |}]> ∅.

Definition callback_url : string := "https://host/callback?code=ABC&state=XYZ".

(* ================================================================= *)
(** ** Effect footprints *)

(** The run of a handler from [s] to [s'] leaves the limiter untouched and
    only appends events other than rate checks to the trace. *)
Definition no_rate_check (e : event) : bool :=
  match e with EvRateCheck _ => false | _ => true end.

Definition quiet (s s' : AppState) : Prop :=
  rate_limiter s' = rate_limiter s /\
  exists tr, trace s' = (trace s ++ tr)%list /\ forallb no_rate_check tr = true.

(** Every run of [m] relates its start and end states by [R]. *)
Definition within {A} (R : AppState -> AppState -> Prop) (m : M A) : Prop :=
  forall s, R s (fst (m s)).

(** The stored authorization session is left as it was. *)
Definition same_session (s s' : AppState) : Prop := gmail_auth s' = gmail_auth s.

(** [m] performs a credential read before anything else and never consults
    the limiter: its trace starts with [EvReadTokens] and has no
    [EvRateCheck]. *)
Definition skips_rate_check {A} (m : M A) : Prop :=
  forall s, rate_limiter (fst (m s)) = rate_limiter s /\
    exists tr, trace (fst (m s)) = (trace s ++ EvReadTokens :: tr)%list /\
               forallb no_rate_check tr = true.

(** The code exchanges a trace sent to the token endpoint, with the session
    each one used. *)
Definition exchanges (tr : list event) : list (GmailAuth * string) :=
  flat_map (fun e => match e with
                     | EvNetwork _ (CallExchange g c) => [(g, c)]
                     | _ => []
                     end) tr.

(** A sequence of [check_rate_limit] calls on one operation at the given
    instants. *)
Fixpoint run_checks (limits : limiter) (operation : string) (times : list N)
  : limiter * list (result unit string) :=
  match times with
  | [] => (limits, [])
  | t :: ts =>
      let '(limits', r) := check_rate_limit limits operation t in
      let '(limits'', rs) := run_checks limits' operation ts in
      (limits'', r :: rs)
  end.

(** The bucket [check_rate_limit] uses for [operation]. *)
Definition bucket (limits : limiter) (operation : string) : RateLimit :=
  match limits !! operation with Some l => l | None => policy operation end.

(* ================================================================= *)
(** ** Vocabulary for the client properties *)

(** The bytes of an encoded query value: unreserved or [%]. *)
Definition url_safe (c : ascii) : bool := is_unreserved c || Ascii.eqb c "%".

(** The byte is not [c]. *)
Definition notin (c : ascii) : ascii -> bool := fun d => negb (Ascii.eqb c d).

(** [str::to_ascii_lowercase]. *)
Fixpoint to_ascii_lowercase (s : string) : string :=
  match s with
  | EmptyString => EmptyString
  | String c rest => String (ascii_lower c) (to_ascii_lowercase rest)
  end.

(** Neither [<] nor [>]. *)
Definition no_angle (c : ascii) : bool := negb (Ascii.eqb c "<") && negb (Ascii.eqb c ">").

(** The run from [s] to [s'] keeps the recorded check time and the clock
    and only appends to the trace. *)
Definition keeps_check (s s' : AppState) : Prop :=
  last_check_time s' = last_check_time s /\ clock s' = clock s /\
  exists tr, trace s' = (trace s ++ tr)%list.

(** A message whose single body part holds the URL-safe encoding of
    ["Hello"], with a [Subject] header. *)
Definition sample_payload : MessagePayload :=
  {| payload_headers := Some [{| header_name := "Subject"; header_value := "Hi" |}];
     payload_parts := None;
     payload_body := Some {| body_data := Some "SGVsbG8=" |} |}.

Definition sample_message : ApiMessage :=
  {| msg_id := "m1"; msg_thread_id := "t1"; msg_snippet := "Hello...";
     label_ids := Some ["INBOX"; "UNREAD"]; payload := Some sample_payload |}.

(** A keyring whose platform store does not answer. *)
Definition locked_vault : Keyring := {| kr_entries := ∅; kr_available := false |}.

(** A legacy token file holding [sample_tokens]. *)
Definition legacy_fs : Fs := <[token_file_path := plain_file (tokens_to_string sample_tokens)]> ∅.

(* ================================================================= *)
(** * Properties *)

(** ** Serialization round trip *)

Lemma str_app_assoc (a b c : string) : (a ++ b) ++ c = a ++ (b ++ c).
Proof. induction a as [|x a IH]; [reflexivity | exact (f_equal (String x) IH)]. Qed.

Lemma str_app_nil_r (a : string) : a ++ EmptyString = a.
Proof. induction a as [|x a IH]; [reflexivity | exact (f_equal (String x) IH)]. Qed.

Lemma str_app_nil_l (a : string) : EmptyString ++ a = a.
Proof. reflexivity. Qed.

Lemma str_app_cons (c : ascii) (a b : string) : String c a ++ b = String c (a ++ b).
Proof. reflexivity. Qed.

Lemma lex_string_escape (s rest : string) :
  lex_string (escape s ++ String dq rest) = Ok (s, true, rest).
Proof.
  induction s as [|c s IH]; [reflexivity|].
  change (escape (String c s)) with (escape_char c ++ escape s).
  rewrite str_app_assoc.
  destruct c as [[] [] [] [] [] [] [] []]; unfold escape_char; simpl; rewrite ?str_app_nil_l, ?IH; reflexivity.
Qed.

Fixpoint all_digits_app (a b : string) :
  all_chars is_digit (a ++ b) = all_chars is_digit a && all_chars is_digit b.
Proof.
  destruct a as [|c a]; [reflexivity|]. simpl. rewrite all_digits_app.
  now destruct (is_digit c).
Qed.

Lemma digits_value_app (acc : N) (a b : string) :
  digits_value acc (a ++ b) = digits_value (digits_value acc a) b.
Proof. revert acc. induction a as [|c a IH]; intro acc; [reflexivity | apply IH]. Qed.

Lemma lex_digits_app (acc : N) (len : nat) (d rest : string) :
  all_chars is_digit d = true ->
  match rest with String c _ => is_digit c = false | EmptyString => True end ->
  lex_digits acc len (d ++ rest) = (digits_value acc d, (len + String.length d)%nat, rest).
Proof.
  revert acc len. induction d as [|c d IH]; intros acc len Hd Hrest.
  - simpl. rewrite Nat.add_0_r.
    destruct rest as [|c rest]; [reflexivity|]. simpl. now rewrite Hrest.
  - simpl in Hd |- *. apply andb_prop in Hd as [Hc Hd]. rewrite Hc, IH by assumption.
    f_equal. f_equal. lia.
Qed.

Lemma digit_char_spec (d : N) :
  (d < 10)%N -> is_digit (digit_char d) = true /\ digit_val (digit_char d) = d.
Proof.
  intro Hd. unfold is_digit, digit_val, digit_char.
  rewrite N_ascii_embedding by lia. split; [|lia].
  apply andb_true_intro; split; apply N.leb_le; lia.
Qed.

Lemma single_digit_spec (n : N) :
  (n < 10)%N ->
  all_chars is_digit (String (digit_char n) EmptyString) = true /\
  digits_value 0 (String (digit_char n) EmptyString) = n /\
  (n = 0%N \/ Ascii.eqb (digit_char n) "0" = false).
Proof.
  intro Hlt. destruct (digit_char_spec n Hlt) as [Hd Hv].
  simpl. rewrite Hd, Hv. split; [reflexivity|]. split; [reflexivity|].
  destruct (N.eq_dec n 0%N) as [->|Hne]; [now left|right].
  apply Ascii.eqb_neq. intro Heq. apply Hne. rewrite <- Hv, Heq. reflexivity.
Qed.

Lemma digits_fuel_spec (f : nat) (n : N) :
  (n < 10 ^ N.of_nat (S f))%N ->
  all_chars is_digit (digits_fuel f n) = true /\
  digits_value 0 (digits_fuel f n) = n /\
  match digits_fuel f n with
  | String c _ => n = 0%N \/ Ascii.eqb c "0" = false
  | EmptyString => False
  end.
Proof.
  revert n. induction f as [|f IH]; intros n Hn.
  - simpl in Hn. apply single_digit_spec. lia.
  - simpl. destruct (N.ltb_spec n 10) as [Hlt|Hge].
    + apply single_digit_spec. exact Hlt.
    + assert (Hq : (n / 10 < 10 ^ N.of_nat (S f))%N).
      { apply N.Div0.div_lt_upper_bound.
        rewrite Nat2N.inj_succ, N.pow_succ_r' in Hn. exact Hn. }
      destruct (IH (n / 10)%N Hq) as (Ha & Hv & Hhead).
      destruct (digit_char_spec (n mod 10) (N.mod_lt n 10 ltac:(discriminate))) as [Hd Hdv].
      rewrite all_digits_app, Ha. simpl. rewrite Hd. split; [reflexivity|]. split.
      * rewrite digits_value_app, Hv. simpl. rewrite Hdv.
        pose proof (N.div_mod n 10 ltac:(discriminate)). lia.
      * destruct (digits_fuel f (n / 10)) as [|c r]; [contradiction|].
        simpl. right. destruct Hhead as [Hz|Hc]; [|exact Hc].
        exfalso. apply N.div_small_iff in Hz; lia.
Qed.

Lemma N_to_string_spec (n : N) :
  all_chars is_digit (N_to_string n) = true /\
  digits_value 0 (N_to_string n) = n /\
  match N_to_string n with
  | String c _ => n = 0%N \/ Ascii.eqb c "0" = false
  | EmptyString => False
  end.
Proof.
  apply digits_fuel_spec.
  pose proof (N.size_gt n) as Hs.
  assert (H2 : (2 ^ N.size n <= 10 ^ N.size n)%N) by (apply N.pow_le_mono_l; lia).
  assert (H3 : (10 ^ N.size n <= 10 ^ N.of_nat (S (S (N.to_nat (N.size n)))))%N).
  { apply N.pow_le_mono_r; [lia|]. rewrite !Nat2N.inj_succ, N2Nat.id. lia. }
  lia.
Qed.

Lemma substring_all (z : string) : substring 0 (String.length z) z = z.
Proof. induction z as [|c z IH]; [reflexivity | simpl; now rewrite IH]. Qed.

Lemma parse_value_quoted (f : nat) (s z : string) :
  parse_value (S f) (quoted s ++ z) = Ok (JStr s, z).
Proof.
  unfold quoted. simpl. rewrite str_app_assoc, str_app_cons, str_app_nil_l.
  rewrite lex_string_escape. reflexivity.
Qed.

Lemma parse_value_null (f : nat) (z : string) :
  parse_value (S f) ("null" ++ z) = Ok (JNull, z).
Proof.
  simpl. unfold expect_word. simpl.
  rewrite ?Nat.sub_0_r, ?substring_all, ?str_app_nil_l. destruct z; reflexivity.
Qed.

Lemma parse_value_digit (f : nat) (c0 : ascii) (r : string) :
  is_digit c0 = true -> parse_value (S f) (String c0 r) = lex_number false (String c0 r).
Proof.
  intro Hd. destruct c0 as [[] [] [] [] [] [] [] []];
    try discriminate Hd; reflexivity.
Qed.

Lemma lex_number_nonzero (c0 : ascii) (r : string) :
  is_digit c0 = true -> Ascii.eqb c0 "0" = false ->
  lex_number false (String c0 r) =
  let '(n, _, rest) := lex_digits 0 0 (String c0 r) in
  match rest with
  | String d r =>
      if Ascii.eqb d "." then bind_res (lex_digits1 r) lex_exponent
      else if Ascii.eqb d "e" || Ascii.eqb d "E" then lex_exponent rest
      else Ok (JNum false n, rest)
  | EmptyString => Ok (JNum false n, rest)
  end.
Proof. intros Hd H0. simpl. rewrite Hd, H0. reflexivity. Qed.

(** A printed number is read back when a non-digit, non-fraction byte
    follows it. *)
Lemma parse_value_number (f : nat) (n : N) (c : ascii) (z : string) :
  is_digit c = false ->
  (Ascii.eqb c "." || Ascii.eqb c "e" || Ascii.eqb c "E") = false ->
  parse_value (S f) (N_to_string n ++ String c z) = Ok (JNum false n, String c z).
Proof.
  intros Hc Hfrac.
  apply Bool.orb_false_iff in Hfrac as [Hfrac HE].
  apply Bool.orb_false_iff in Hfrac as [Hdot He].
  destruct (N_to_string_spec n) as (Hd & Hv & Hh).
  destruct (N.eq_dec n 0%N) as [->|Hne].
  { simpl. rewrite Hdot, He, HE. reflexivity. }
  destruct (N_to_string n) as [|c0 tl] eqn:E; [contradiction|].
  destruct Hh as [Hz|H0]; [contradiction|].
  simpl in Hd. apply andb_prop in Hd as [Hd0 Htl].
  change (String c0 tl ++ String c z) with (String c0 (tl ++ String c z)).
  rewrite parse_value_digit, lex_number_nonzero by assumption.
  change (String c0 (tl ++ String c z)) with (String c0 tl ++ String c z).
  rewrite lex_digits_app by (simpl; rewrite ?Hd0; assumption).
  rewrite Hv, Hdot, He, HE. reflexivity.
Qed.

Lemma print_json_obj (l : list (string * json)) :
  print_json (JObj l) = "{" ++ print_members l ++ "}".
Proof. reflexivity. Qed.

Ltac str_norm := repeat rewrite ?str_app_assoc, ?str_app_cons, ?str_app_nil_l.

Lemma parse_members_print (value : string -> result (json * string) string)
    (l : list (string * json)) (g : nat) (acc : list (string * json)) (z : string) :
  l <> [] -> (length l <= g)%nat ->
  Forall (fun '(k, v) => forall c z', c = ","%char \/ c = "}"%char ->
            value (print_json v ++ String c z') = Ok (v, String c z')) l ->
  parse_members value g true acc (print_members l ++ String "}" z) = Ok (JObj (rev acc ++ l), z).
Proof.
  revert g acc. induction l as [|[k x] l IH]; intros g acc Hne Hlen Hval; [congruence|].
  destruct g as [|g]; [simpl in Hlen; lia|].
  apply Forall_cons in Hval as [Hx Hval].
  destruct l as [|p l'].
  - unfold print_members, quoted. str_norm. simpl.
    rewrite lex_string_escape. simpl. rewrite Hx by (right; reflexivity). simpl.
    reflexivity.
  - change (print_members ((k, x) :: p :: l'))
      with (quoted k ++ ":" ++ print_json x ++ "," ++ print_members (p :: l')).
    unfold quoted. str_norm. simpl.
    rewrite lex_string_escape. simpl. rewrite Hx by (left; reflexivity). simpl.
    rewrite IH by (simpl in *; auto with lia || discriminate).
    simpl. rewrite <- app_assoc. reflexivity.
Qed.

Lemma parse_value_token_member (f : nat) (v : json) (c : ascii) (z : string) :
  c = ","%char \/ c = "}"%char ->
  (v = JNull \/ (exists s, v = JStr s) \/ (exists n, v = JNum false n)) ->
  parse_value (S f) (print_json v ++ String c z) = Ok (v, String c z).
Proof.
  intros Hc [->|[[s ->]|[n ->]]].
  - apply parse_value_null.
  - apply parse_value_quoted.
  - apply parse_value_number; destruct Hc as [->| ->]; reflexivity.
Qed.

Lemma parse_value_obj_step (f : nat) (r r' : string) :
  skip_ws r = String dq r' ->
  parse_value (S f) (String "{" r) = parse_members (parse_value f) f true [] r.
Proof. intro H. simpl. rewrite H. reflexivity. Qed.

Lemma parse_value_tokens (f : nat) (t : AuthTokens) (z : string) :
  (3 <= f)%nat ->
  parse_value (S f) (tokens_to_string t ++ z) = Ok (json_of_tokens t, z).
Proof.
  intro Hf. destruct f as [|f]; [lia|].
  unfold tokens_to_string, json_of_tokens.
  match goal with |- context [JObj ?l] => set (L := l) end.
  assert (HF : Forall (fun '(k, v) => forall c z', c = ","%char \/ c = "}"%char ->
            parse_value (S f) (print_json v ++ String c z') = Ok (v, String c z')) L).
  { subst L. repeat constructor; intros c z' Hc; apply parse_value_token_member; auto.
    all: try destruct (refresh_token t); try destruct (expires_in t); eauto. }
  assert (Hlen : length L = 3%nat) by reflexivity.
  assert (E : exists r, print_members L ++ String "}" z = String dq r).
  { eexists. subst L. simpl. reflexivity. }
  destruct E as [r E]. clearbody L.
  rewrite print_json_obj. str_norm.
  rewrite parse_value_obj_step with (r' := r) by (rewrite E; reflexivity).
  rewrite parse_members_print; [reflexivity | | lia | exact HF].
  intros ->. discriminate.
Qed.

Lemma tokens_of_json_print (t : AuthTokens) :
  tokens_wf t -> tokens_of_json (json_of_tokens t) = Ok t.
Proof.
  unfold tokens_wf. destruct t as [a r e]. simpl. intro Hwf.
  destruct r, e as [n|]; simpl; try reflexivity;
    rewrite (proj2 (N.ltb_lt n u64_max_plus_one) Hwf); reflexivity.
Qed.

Lemma tokens_from_str_to_string (t : AuthTokens) :
  tokens_wf t -> tokens_from_str (tokens_to_string t) = Ok t.
Proof.
  intro Hwf. unfold tokens_from_str, parse_json.
  assert (Hs : exists r, tokens_to_string t = String "{" (String dq (String "a" r)))
    by (eexists; reflexivity).
  destruct Hs as [r Hs].
  assert (Hp := parse_value_tokens (String.length (tokens_to_string t)) t EmptyString).
  rewrite str_app_nil_r in Hp. rewrite Hp by (rewrite Hs; simpl; lia).
  simpl. apply tokens_of_json_print, Hwf.
Qed.

(** ** The token store *)

Lemma keyring_save_available (kr : Keyring) (key v : string) :
  kr_available kr = true ->
  keyring_save_password kr key v =
  ({| kr_entries := <[(SERVICE_NAME, TOKEN_KEY) := v]> (kr_entries kr);
      kr_available := true |}, Ok tt).
Proof. intro H. unfold keyring_save_password, entry_set_password. simpl. now rewrite H. Qed.

Lemma keyring_save_ok (kr kr' : Keyring) (key v : string) :
  keyring_save_password kr key v = (kr', Ok tt) ->
  kr_available kr = true /\
  kr' = {| kr_entries := <[(SERVICE_NAME, TOKEN_KEY) := v]> (kr_entries kr);
           kr_available := true |}.
Proof.
  unfold keyring_save_password, entry_set_password. simpl.
  destruct (kr_available kr) eqn:E; simpl; intro H; inversion H; auto.
Qed.

Lemma keyring_get_saved (kr : Keyring) (key key' v : string) :
  kr_available kr = true ->
  keyring_get_password (fst (keyring_save_password kr key v)) key' = Ok v.
Proof.
  intro H. rewrite keyring_save_available by exact H.
  unfold keyring_get_password, entry_get_password. simpl.
  rewrite lookup_insert_eq. reflexivity.
Qed.

Lemma keyring_save_load (kr kr' : Keyring) (t : AuthTokens) :
  tokens_wf t -> save_tokens kr t = (kr', Ok tt) -> load_tokens kr' = Ok t.
Proof.
  intros Hwf Hs. unfold save_tokens in Hs. simpl in Hs.
  apply keyring_save_ok in Hs as [Hav ->].
  unfold load_tokens. simpl.
  unfold keyring_get_password, entry_get_password. simpl.
  rewrite lookup_insert_eq. simpl.
  rewrite tokens_from_str_to_string by exact Hwf. reflexivity.
Qed.

(** C9: saving a credential and loading it back from the same store gives
    the original credential, with all three fields equal; this holds for
    the OS keyring (when the save succeeded) and for the in-memory backend.
    [tokens_wf] says that [expires_in] fits its Rust type [u64]. *)
Theorem save_then_load_roundtrip (t : AuthTokens) :
  tokens_wf t ->
  (forall kr kr' : Keyring, save_tokens kr t = (kr', Ok tt) -> load_tokens kr' = Ok t) /\
  (forall m m' : MockStorage, save_tokens m t = (m', Ok tt) -> load_tokens m' = Ok t).
Proof.
  intro Hwf. split.
  - intros kr kr'. apply keyring_save_load, Hwf.
  - intros m m' Hs. unfold save_tokens in Hs. simpl in Hs. inversion Hs; subst.
    unfold load_tokens. simpl. rewrite lookup_insert_eq. simpl.
    rewrite tokens_from_str_to_string by exact Hwf. reflexivity.
Qed.

(** C9 at a credential with all three fields set, through the OS vault. *)
Lemma save_then_load_roundtrip_witness :
  tokens_wf sample_tokens /\
  load_tokens (fst (save_tokens vault sample_tokens)) = Ok sample_tokens.
Proof.
  assert (Hw : tokens_wf sample_tokens) by (cbv; reflexivity).
  split; [exact Hw |].
  apply (proj1 (save_then_load_roundtrip sample_tokens Hw) vault).
  reflexivity.
Defined.

(** C10: the production backend ignores the key: each of its methods gives
    the same answer for any two keys, a save writes the single entry
    (com.aisle3.app, gmail_tokens), a value saved under [k1] is read back
    under [k2], and a delete under [k1] removes what [k2] observes. *)
Theorem keyring_backend_ignores_key (kr : Keyring) (k1 k2 v : string) :
  kr_available kr = true ->
  save_password kr k1 v = save_password kr k2 v /\
  get_password kr k1 = get_password kr k2 /\
  delete_password kr k1 = delete_password kr k2 /\
  has_password kr k1 = has_password kr k2 /\
  fst (save_password kr k1 v) =
    {| kr_entries := <[(SERVICE_NAME, TOKEN_KEY) := v]> (kr_entries kr);
       kr_available := true |} /\
  get_password (fst (save_password kr k1 v)) k2 = Ok v /\
  get_password (fst (delete_password kr k1)) k2 = Err "No tokens found in keyring" /\
  has_password (fst (delete_password kr k1)) k2 = false.
Proof.
  intro Hav. simpl.
  split; [reflexivity |]. split; [reflexivity |].
  split; [reflexivity |]. split; [reflexivity |].
  split; [rewrite keyring_save_available by exact Hav; reflexivity |].
  split; [apply keyring_get_saved, Hav |].
  unfold keyring_delete_password, keyring_get_password, keyring_has_password,
    entry_delete_password, entry_get_password. simpl. rewrite Hav.
  destruct (kr_entries kr !! (SERVICE_NAME, TOKEN_KEY)) eqn:E; simpl.
  - rewrite lookup_delete_eq. split; reflexivity.
  - rewrite Hav, E. split; reflexivity.
Qed.

Lemma keyring_backend_ignores_key_witness :
  kr_available vault = true /\
  get_password (fst (save_password vault "gmail_tokens" "secret")) "another key" = Ok "secret".
Proof.
  split; [reflexivity |].
  exact (proj1 (proj2 (proj2 (proj2 (proj2 (proj2
    (keyring_backend_ignores_key vault "gmail_tokens" "another key" "secret" eq_refl))))))).
Defined.

(** C7: [migrate_from_file] on a missing path answers [Ok false] and
    changes neither the store nor the files. On an existing file that is
    read (it is UTF-8 and the system lets it be read) and parses as a
    credential, it saves that credential, removes the file and answers
    [Ok true], when the store accepts the save and the system lets the file
    be removed. On an existing file that is read but does not parse it
    fails and leaves the store and the file as they were. The other paths:
    a file that cannot be read fails the same way; a save that fails leaves
    the file; a removal that fails is an error after the save, and the file
    stays. *)
Theorem migrate_from_file_cases `{SecureStorageBackend B} (b : B) (fs : Fs) (path : string) :
  (fs !! path = None -> migrate_from_file b fs path = (b, fs, Ok false)) /\
  (forall f json t b', fs !! path = Some f -> read_to_string fs path = Ok json ->
     tokens_from_str json = Ok t -> save_tokens b t = (b', Ok tt) ->
     file_remove_error f = None ->
     migrate_from_file b fs path = (b', delete path fs, Ok true) /\
     delete path fs !! path = None) /\
  (forall f json e, fs !! path = Some f -> read_to_string fs path = Ok json ->
     tokens_from_str json = Err e ->
     exists msg, migrate_from_file b fs path = (b, fs, Err msg) /\
                 fs !! path = Some f) /\
  (forall f e, fs !! path = Some f -> read_to_string fs path = Err e ->
     migrate_from_file b fs path = (b, fs, Err ("Failed to read token file: " ++ e))) /\
  (forall f json t b' e, fs !! path = Some f -> read_to_string fs path = Ok json ->
     tokens_from_str json = Ok t -> save_tokens b t = (b', Err e) ->
     migrate_from_file b fs path = (b', fs, Err e)) /\
  (forall f json t b' e, fs !! path = Some f -> read_to_string fs path = Ok json ->
     tokens_from_str json = Ok t -> save_tokens b t = (b', Ok tt) ->
     file_remove_error f = Some e ->
     migrate_from_file b fs path = (b', fs, Err ("Failed to delete old token file: " ++ e))).
Proof.
  unfold migrate_from_file. split; [| split; [| split; [| split; [| split]]]].
  - intro E. rewrite E. reflexivity.
  - intros f json t b' E Hr Ht Hs Hrm.
    rewrite bool_decide_eq_true_2 by (rewrite E; eexists; reflexivity).
    rewrite Hr, Ht, Hs. unfold fs_remove_file. rewrite E, Hrm.
    split; [reflexivity | apply lookup_delete_eq].
  - intros f json e E Hr He.
    rewrite bool_decide_eq_true_2 by (rewrite E; eexists; reflexivity).
    rewrite Hr, He. eexists. split; [reflexivity | exact E].
  - intros f e E Hr.
    rewrite bool_decide_eq_true_2 by (rewrite E; eexists; reflexivity).
    rewrite Hr. reflexivity.
  - intros f json t b' e E Hr Ht Hs.
    rewrite bool_decide_eq_true_2 by (rewrite E; eexists; reflexivity).
    rewrite Hr, Ht, Hs. reflexivity.
  - intros f json t b' e E Hr Ht Hs Hrm.
    rewrite bool_decide_eq_true_2 by (rewrite E; eexists; reflexivity).
    rewrite Hr, Ht, Hs. unfold fs_remove_file. rewrite E, Hrm. reflexivity.
Qed.

(** The valid-file case of C7 on the in-memory backend. *)
Lemma migrate_from_file_cases_witness :
  let fs : Fs := <[token_file_path := plain_file (tokens_to_string sample_tokens)]> ∅ in
  let m := {| mock_storage := ∅ |} in
  read_to_string fs token_file_path = Ok (tokens_to_string sample_tokens) /\
  tokens_from_str (tokens_to_string sample_tokens) = Ok sample_tokens /\
  migrate_from_file m fs token_file_path =
    (fst (save_tokens m sample_tokens), delete token_file_path fs, Ok true).
Proof.
  intros fs m. split; [vm_compute; reflexivity |]. split; [vm_compute; reflexivity |].
  apply (proj1 (proj1 (proj2 (migrate_from_file_cases m fs token_file_path))
    (plain_file (tokens_to_string sample_tokens))
    (tokens_to_string sample_tokens) sample_tokens (fst (save_tokens m sample_tokens))
    (lookup_insert_eq _ _ _) ltac:(vm_compute; reflexivity) ltac:(vm_compute; reflexivity)
    eq_refl eq_refl)).
Defined.

(** ** The refresh path *)

(** [refresh_tokens_if_needed] when the profile probe rejects the access
    token and the provider renews it: the credential it keeps in memory,
    the keyring it leaves and its answer. *)
Lemma refresh_path (U : Upstream) (s : AppState) (t : AuthTokens) (rt e : string)
  (ga : GmailAuth) (resp : TokenResponse) :
  auth_tokens s = Some t -> refresh_token t = Some rt -> up_get_profile U t = Err e ->
  up_config U = Ok ga -> up_refresh U ga rt = Ok resp ->
  auth_tokens (fst (refresh_tokens_if_needed U s)) = Some (refresh_access_token_of rt resp) /\
  keyring (fst (refresh_tokens_if_needed U s)) =
    fst (save_tokens (keyring s) (refresh_access_token_of rt resp)) /\
  snd (refresh_tokens_if_needed U s) =
    match snd (save_tokens (keyring s) (refresh_access_token_of rt resp)) with
    | Ok _ => Ok (refresh_access_token_of rt resp)
    | Err e' => Err ("Failed to save tokens: " ++ e')
    end.
Proof.
  intros Ht Hrt Hp Hc Hr.
  unfold refresh_tokens_if_needed, gmail_auth_new, net, attempt, map_err_m, mbind, M_bind.
  unfold read_tokens, lift, log, mret, M_ret, write_tokens, persist_tokens. simpl.
  rewrite Ht. simpl. rewrite Hp. simpl. rewrite Hrt, Hc. simpl. rewrite Hr. simpl.
  unfold save_tokens. simpl.
  destruct (keyring_save_password (keyring s) TOKEN_KEY
              (tokens_to_string (refresh_access_token_of rt resp))) as [kr' [u | e']];
    simpl; auto.
Qed.

(** Counterexample to C3: on a renewal answer without a refresh token,
    [refresh_access_token] does not return [None]; it returns the refresh
    token it was called with. *)
Lemma refresh_access_token_returns_old_token :
  tr_refresh_token renewal_response = None /\
  refresh_token (refresh_access_token_of "R1" renewal_response) = Some "R1" /\
  refresh_token (refresh_access_token_of "R1" renewal_response) <> None.
Proof. split; [reflexivity |]. split; [reflexivity | discriminate]. Qed.

(** C3, as the code does it: [refresh_access_token] itself substitutes the
    refresh token it was called with when the provider issues none (and
    takes the new one otherwise), and [refresh_tokens_if_needed] stores the
    credential it gets back without changing it. *)
Theorem refresh_access_token_substitutes (rt : string) (resp : TokenResponse) :
  (tr_refresh_token resp = None ->
     refresh_token (refresh_access_token_of rt resp) = Some rt) /\
  (forall r, tr_refresh_token resp = Some r ->
     refresh_token (refresh_access_token_of rt resp) = Some r) /\
  (forall U s t e ga,
     auth_tokens s = Some t -> refresh_token t = Some rt -> up_get_profile U t = Err e ->
     up_config U = Ok ga -> up_refresh U ga rt = Ok resp ->
     auth_tokens (fst (refresh_tokens_if_needed U s)) = Some (refresh_access_token_of rt resp)).
Proof.
  split; [| split].
  - intro E. simpl. rewrite E. reflexivity.
  - intros r E. simpl. rewrite E. reflexivity.
  - intros U s t e ga Ht Hrt Hp Hc Hr.
    exact (proj1 (refresh_path U s t rt e ga resp Ht Hrt Hp Hc Hr)).
Qed.

(** C4: when the access token is rejected and the provider renews it
    without issuing a refresh token, the credential the refresh path keeps
    in memory has the old refresh token [rt]; it is the answer of the
    path when persisting succeeds, and then loading the keyring gives it
    back; otherwise the path fails with the save error. *)
Theorem refresh_retains_refresh_token (U : Upstream) (s : AppState) (t : AuthTokens)
  (rt e : string) (ga : GmailAuth) (resp : TokenResponse) :
  auth_tokens s = Some t -> refresh_token t = Some rt ->
  up_get_profile U t = Err e -> up_config U = Ok ga -> up_refresh U ga rt = Ok resp ->
  tr_refresh_token resp = None ->
  (forall n, tr_expires_in resp = Some n -> (n < u64_max_plus_one)%N) ->
  exists nt,
    auth_tokens (fst (refresh_tokens_if_needed U s)) = Some nt /\
    refresh_token nt = Some rt /\
    ((snd (refresh_tokens_if_needed U s) = Ok nt /\
      load_tokens (keyring (fst (refresh_tokens_if_needed U s))) = Ok nt) \/
     exists e', snd (refresh_tokens_if_needed U s) = Err ("Failed to save tokens: " ++ e')).
Proof.
  intros Ht Hrt Hp Hc Hr Hnone Hexp.
  destruct (refresh_path U s t rt e ga resp Ht Hrt Hp Hc Hr) as [Hmem [Hkr Hres]].
  exists (refresh_access_token_of rt resp).
  split; [exact Hmem |]. split; [simpl; rewrite Hnone; reflexivity |].
  rewrite Hres, Hkr.
  destruct (save_tokens (keyring s) (refresh_access_token_of rt resp)) as [kr' [[] | e']] eqn:Es;
    simpl.
  - left. split; [reflexivity |].
    apply (keyring_save_load (keyring s)); [| exact Es].
    unfold tokens_wf. simpl. destruct (tr_expires_in resp) as [n |]; [apply Hexp |]; auto.
  - right. exists e'. reflexivity.
Qed.

Lemma refresh_retains_refresh_token_witness :
  exists nt,
    auth_tokens (fst (refresh_tokens_if_needed (sample_upstream false)
                        (sample_state (Some sample_tokens) None ∅))) = Some nt /\
    refresh_token nt = Some "R1" /\
    ((snd (refresh_tokens_if_needed (sample_upstream false)
             (sample_state (Some sample_tokens) None ∅)) = Ok nt /\
      load_tokens (keyring (fst (refresh_tokens_if_needed (sample_upstream false)
                                   (sample_state (Some sample_tokens) None ∅)))) = Ok nt) \/
     exists e', snd (refresh_tokens_if_needed (sample_upstream false)
                      (sample_state (Some sample_tokens) None ∅))
                = Err ("Failed to save tokens: " ++ e')).
Proof.
  apply (refresh_retains_refresh_token (sample_upstream false)
           (sample_state (Some sample_tokens) None ∅) sample_tokens "R1" "401 Unauthorized"
           sample_session renewal_response); try reflexivity.
  intros n E. injection E as <-. vm_compute. reflexivity.
Defined.

(** ** Query parameters *)

Lemma collect_params_notin (l : list (string * string)) (m : gmap string string) (k : string) :
  (forall v, ~ In (k, v) l) ->
  fold_left (fun m '(k, v) => <[k := v]> m) l m !! k = m !! k.
Proof.
  revert m. induction l as [| [k' v'] l IH]; intros m Hn; simpl; [reflexivity |].
  rewrite IH by (intros v Hv; apply (Hn v); right; exact Hv).
  destruct (String.eq_dec k' k) as [-> | Hne].
  - exfalso. apply (Hn v'). left. reflexivity.
  - apply lookup_insert_ne. exact Hne.
Qed.

Lemma collect_params_some (l : list (string * string)) (m : gmap string string) (k v : string) :
  fold_left (fun m '(k, v) => <[k := v]> m) l m !! k = Some v ->
  In (k, v) l \/ m !! k = Some v.
Proof.
  revert m. induction l as [| [k' v'] l IH]; intros m H; simpl in *; [right; exact H |].
  destruct (IH _ H) as [Hin | Hm]; [left; right; exact Hin |].
  destruct (String.eq_dec k' k) as [-> | Hne].
  - rewrite lookup_insert_eq in Hm. injection Hm as ->. left. left. reflexivity.
  - rewrite lookup_insert_ne in Hm by exact Hne. right. exact Hm.
Qed.

Lemma collect_params_keeps (l : list (string * string)) (m : gmap string string) (k : string) :
  is_Some (m !! k) -> is_Some (fold_left (fun m '(k, v) => <[k := v]> m) l m !! k).
Proof.
  revert m. induction l as [| [k' v'] l IH]; intros m H; simpl; [exact H |].
  apply IH. destruct (String.eq_dec k' k) as [-> | Hne].
  - rewrite lookup_insert_eq. eauto.
  - rewrite lookup_insert_ne by exact Hne. exact H.
Qed.

Lemma collect_params_in (l : list (string * string)) (k v : string) :
  In (k, v) l -> exists v', In (k, v') l /\ collect_params l !! k = Some v'.
Proof.
  intro Hin. unfold collect_params.
  assert (Hs : forall m : gmap string string,
             is_Some (fold_left (fun m '(k, v) => <[k := v]> m) l m !! k)).
  { clear -Hin. induction l as [| [k' v'] l IH]; intro m; [destruct Hin |].
    destruct Hin as [Heq | Hin].
    - injection Heq as -> ->. simpl. apply collect_params_keeps.
      rewrite lookup_insert_eq. eauto.
    - simpl. apply IH, Hin. }
  destruct (Hs ∅) as [v' E]. exists v'. split; [| exact E].
  destruct (collect_params_some l ∅ k v' E) as [H | H]; [exact H |].
  rewrite lookup_empty in H. discriminate.
Qed.

Lemma collect_params_lookup_in (l : list (string * string)) (k v : string) :
  collect_params l !! k = Some v -> In (k, v) l.
Proof.
  intro E. destruct (collect_params_some l ∅ k v E) as [H | H]; [exact H |].
  rewrite lookup_empty in H. discriminate.
Qed.

(** C8: on a URL that parses, an [error] query parameter makes
    [parse_callback_url] fail with that parameter's value, whatever else the
    query holds (a [code] included); with neither [error] nor [code] it
    fails with the missing-code error; with a [code] but no [state] the
    state is [None]; and [code=ABC&state=XYZ] gives [(ABC, Some XYZ)]. *)
Theorem parse_callback_url_cases (url : string) (u : Url) :
  url_parse url = Ok u ->
  ((exists e, In ("error", e) (query_pairs u)) ->
     exists e, In ("error", e) (query_pairs u) /\
                parse_callback_url url = Err ("OAuth error: " ++ e)) /\
  ((forall v, ~ In ("error", v) (query_pairs u)) ->
   (forall v, ~ In ("code", v) (query_pairs u)) ->
     parse_callback_url url = Err "No authorization code found") /\
  ((forall v, ~ In ("error", v) (query_pairs u)) ->
   (forall v, ~ In ("state", v) (query_pairs u)) ->
   (exists c, In ("code", c) (query_pairs u)) ->
     exists c, In ("code", c) (query_pairs u) /\ parse_callback_url url = Ok (c, None)) /\
  parse_callback_url callback_url = Ok ("ABC", Some "XYZ").
Proof.
  intro Hu. unfold parse_callback_url. rewrite Hu.
  split; [| split; [| split]].
  - intros [e0 He]. destruct (collect_params_in _ _ _ He) as [e [Hin E]].
    exists e. rewrite E. split; [exact Hin | reflexivity].
  - intros Hne Hnc. unfold collect_params.
    rewrite collect_params_notin by exact Hne. rewrite lookup_empty.
    rewrite collect_params_notin by exact Hnc. rewrite lookup_empty. reflexivity.
  - intros Hne Hns [c0 Hc]. destruct (collect_params_in _ _ _ Hc) as [c [Hin E]].
    exists c. split; [exact Hin |].
    assert (Ee : collect_params (query_pairs u) !! "error" = None).
    { unfold collect_params. rewrite collect_params_notin by exact Hne.
      apply lookup_empty. }
    assert (Es : collect_params (query_pairs u) !! "state" = None).
    { unfold collect_params. rewrite collect_params_notin by exact Hns.
      apply lookup_empty. }
    rewrite Ee, E, Es. reflexivity.
  - vm_compute. reflexivity.
Qed.

(** C8 on a redirect that carries both an authorization code and
    [error=access_denied]. *)
Lemma parse_callback_url_cases_witness :
  exists e, In ("error", e)
              (query_pairs {| url_scheme := "https"; url_path := "//host/callback";
                              url_query := Some "code=ABC&error=access_denied" |}) /\
            parse_callback_url "https://host/callback?code=ABC&error=access_denied"
            = Err ("OAuth error: " ++ e).
Proof.
  apply (parse_callback_url_cases "https://host/callback?code=ABC&error=access_denied"
           {| url_scheme := "https"; url_path := "//host/callback";
              url_query := Some "code=ABC&error=access_denied" |});
    [vm_compute; reflexivity |].
  exists "access_denied". vm_compute. right. left. reflexivity.
Defined.

(** ** Rate-limit buckets *)

Lemma filter_keep_all {A} (f : A -> bool) (l : list A) :
  Forall (fun x => f x = true) l -> List.filter f l = l.
Proof. induction 1 as [| x l Hx _ IH]; simpl; [reflexivity | now rewrite Hx, IH]. Qed.

Lemma filter_drop_all {A} (f : A -> bool) (l : list A) :
  Forall (fun x => f x = false) l -> List.filter f l = [].
Proof. induction 1 as [| x l Hx _ IH]; simpl; [reflexivity | now rewrite Hx, IH]. Qed.

Lemma check_rate_limit_bucket (limits : limiter) (op : string) (now : N) :
  check_rate_limit limits op now =
  (<[op := fst (is_allowed now (bucket limits op))]> limits,
   if snd (is_allowed now (bucket limits op)) then Ok tt
   else Err (rate_limit_error op (max_requests (fst (is_allowed now (bucket limits op))))
               (window_duration (fst (is_allowed now (bucket limits op)))))).
Proof.
  unfold check_rate_limit, bucket.
  destruct (is_allowed now _) as [l' b]. reflexivity.
Qed.

Lemma bucket_insert (limits : limiter) (op : string) (rl : RateLimit) :
  bucket (<[op := rl]> limits) op = rl.
Proof. unfold bucket. rewrite lookup_insert_eq. reflexivity. Qed.

(** Instants of one window: all of them within [w] after [t0]. *)
Lemma in_window_kept (t0 w now : N) (reqs : list N) :
  (t0 <= now <= t0 + w)%N ->
  Forall (fun t => t0 <= t <= t0 + w)%N reqs ->
  List.filter (fun t => (now - t <=? w)%N) reqs = reqs.
Proof.
  intros Hn Hr. apply filter_keep_all.
  eapply Forall_impl; [exact Hr |]. intros t Ht. simpl in *. apply N.leb_le. lia.
Qed.

Lemma check_in_window_below (limits : limiter) (op : string) (reqs : list N)
  (m w t0 now : N) :
  bucket limits op = {| requests := reqs; max_requests := m; window_duration := w |} ->
  Forall (fun t => t0 <= t <= t0 + w)%N reqs -> (t0 <= now <= t0 + w)%N ->
  (N.of_nat (length reqs) < m)%N ->
  check_rate_limit limits op now =
  (<[op := {| requests := reqs ++ [now]; max_requests := m; window_duration := w |}]> limits,
   Ok tt).
Proof.
  intros Hb Hr Hn Hl. rewrite check_rate_limit_bucket, Hb. unfold is_allowed. simpl.
  rewrite (in_window_kept t0 w now reqs Hn Hr).
  apply N.ltb_lt in Hl. rewrite Hl. reflexivity.
Qed.

Lemma check_in_window_full (limits : limiter) (op : string) (reqs : list N)
  (m w t0 now : N) :
  bucket limits op = {| requests := reqs; max_requests := m; window_duration := w |} ->
  Forall (fun t => t0 <= t <= t0 + w)%N reqs -> (t0 <= now <= t0 + w)%N ->
  N.of_nat (length reqs) = m ->
  check_rate_limit limits op now =
  (<[op := {| requests := reqs; max_requests := m; window_duration := w |}]> limits,
   Err (rate_limit_error op m w)).
Proof.
  intros Hb Hr Hn Hl. rewrite check_rate_limit_bucket, Hb. unfold is_allowed. simpl.
  rewrite (in_window_kept t0 w now reqs Hn Hr).
  assert (E : (N.of_nat (length reqs) <? m)%N = false) by (apply N.ltb_ge; lia).
  rewrite E. reflexivity.
Qed.

Lemma check_after_window (limits : limiter) (op : string) (now : N) :
  (0 < max_requests (bucket limits op))%N ->
  Forall (fun t => window_duration (bucket limits op) < now - t)%N
         (requests (bucket limits op)) ->
  snd (check_rate_limit limits op now) = Ok tt.
Proof.
  intros Hm Hr. rewrite check_rate_limit_bucket. unfold is_allowed. simpl.
  rewrite filter_drop_all.
  - simpl. change (N.of_nat 0) with 0%N.
    destruct (0 <? max_requests (bucket limits op))%N eqn:E; [reflexivity |].
    apply N.ltb_ge in E. lia.
  - eapply Forall_impl; [exact Hr |]. intros t Ht. simpl. apply N.leb_gt. exact Ht.
Qed.

Lemma run_checks_in_window (op : string) (m w t0 : N) (ts : list N) :
  forall (limits : limiter) (reqs : list N),
  bucket limits op = {| requests := reqs; max_requests := m; window_duration := w |} ->
  Forall (fun t => t0 <= t <= t0 + w)%N (reqs ++ ts)%list ->
  (N.of_nat (length reqs + length ts) <= m)%N ->
  Forall (fun r => r = Ok tt) (snd (run_checks limits op ts)) /\
  bucket (fst (run_checks limits op ts)) op =
    {| requests := (reqs ++ ts)%list; max_requests := m; window_duration := w |}.
Proof.
  induction ts as [| t ts IH]; intros limits reqs Hb Hr Hl.
  - simpl. rewrite app_nil_r. split; [constructor | exact Hb].
  - apply Forall_app in Hr as [Hr1 Hr2]. inversion Hr2 as [| ? ? Ht Hts]; subst.
    simpl. rewrite (check_in_window_below limits op reqs m w t0 t Hb Hr1 Ht)
      by (simpl in Hl; lia).
    destruct (IH (<[op := {| requests := (reqs ++ [t])%list; max_requests := m;
                             window_duration := w |}]> limits) ((reqs ++ [t])%list))
      as [Hok Hbk].
    + apply bucket_insert.
    + rewrite <- app_assoc. apply Forall_app. split; [exact Hr1 | constructor; assumption].
    + rewrite length_app. simpl in *. lia.
    + destruct (run_checks _ op ts) as [limits'' rs] eqn:E. simpl in *.
      split; [constructor; [reflexivity | exact Hok] |].
      rewrite Hbk, <- app_assoc. reflexivity.
Qed.

Lemma policy_window (op : string) :
  window_duration (policy op) = from_secs 60 /\ (0 < max_requests (policy op))%N.
Proof.
  unfold policy.
  repeat match goal with |- context [if ?c then _ else _] => destruct c end;
    simpl; split; (reflexivity || lia).
Qed.

(** C5: for any operation, starting from its fresh bucket, calls at
    instants of one window (all within its duration after some [t0]), at
    most the configured maximum of them, all succeed and are recorded; once
    the maximum is reached, a further call in that window fails with the
    error naming the operation, the maximum and the window in seconds (60
    for every policy) and records nothing; and a call at an instant later
    than the window after every recorded instant succeeds again, before and
    after that refused call. The Nth call of the claim is read with N the
    configured maximum, as in its 10/11 scenario for get_emails. *)
Theorem rate_limit_window (op : string) (limits : limiter) (t0 : N) (times : list N) :
  limits !! op = None ->
  Forall (fun t => t0 <= t <= t0 + window_duration (policy op))%N times ->
  (N.of_nat (length times) <= max_requests (policy op))%N ->
  Forall (fun r => r = Ok tt) (snd (run_checks limits op times)) /\
  requests (bucket (fst (run_checks limits op times)) op) = times /\
  (N.of_nat (length times) = max_requests (policy op) ->
   forall t', (t0 <= t' <= t0 + window_duration (policy op))%N ->
     snd (check_rate_limit (fst (run_checks limits op times)) op t') =
       Err (rate_limit_error op (max_requests (policy op)) (window_duration (policy op))) /\
     requests (bucket (fst (check_rate_limit (fst (run_checks limits op times)) op t')) op)
       = times /\
     (forall later, Forall (fun t => window_duration (policy op) < later - t)%N times ->
        snd (check_rate_limit (fst (check_rate_limit (fst (run_checks limits op times)) op t'))
               op later) = Ok tt)) /\
  (forall later, Forall (fun t => window_duration (policy op) < later - t)%N times ->
     snd (check_rate_limit (fst (run_checks limits op times)) op later) = Ok tt) /\
  as_secs (window_duration (policy op)) = 60%N.
Proof.
  intros Hfresh Hw Hl.
  destruct (policy_window op) as [Hwin Hpos].
  assert (Hb0 : bucket limits op = {| requests := []; max_requests := max_requests (policy op);
                                      window_duration := window_duration (policy op) |}).
  { unfold bucket. rewrite Hfresh. unfold policy.
    repeat match goal with |- context [if ?c then _ else _] => destruct c end; reflexivity. }
  destruct (run_checks_in_window op _ _ t0 times limits [] Hb0 Hw ltac:(simpl; lia))
    as [Hok Hb1].
  simpl in Hb1.
  split; [exact Hok |]. split; [rewrite Hb1; reflexivity |].
  split; [| split].
  - intros Hfull t' Ht'.
    rewrite (check_in_window_full _ op times _ _ t0 t' Hb1 Hw Ht' Hfull).
    simpl. rewrite bucket_insert. split; [reflexivity |]. split; [reflexivity |].
    intros later Hlater. apply check_after_window; rewrite bucket_insert; simpl; assumption.
  - intros later Hlater. apply check_after_window; rewrite Hb1; simpl; assumption.
  - rewrite Hwin. reflexivity.
Qed.

(** C5 for get_emails: ten calls at the same instant from a fresh limiter. *)
Lemma rate_limit_window_witness :
  Forall (fun r => r = Ok tt)
    (snd (run_checks ∅ "get_emails" (repeat (from_secs 1000) 10))) /\
  snd (check_rate_limit (fst (run_checks ∅ "get_emails" (repeat (from_secs 1000) 10)))
         "get_emails" (from_secs 1000)) =
    Err "Rate limit exceeded for 'get_emails'. Max 10 requests per 60 seconds".
Proof.
  destruct (rate_limit_window "get_emails" ∅ (from_secs 1000) (repeat (from_secs 1000) 10)
              (lookup_empty "get_emails")
              ltac:(apply List.Forall_forall; intros x Hx; apply repeat_spec in Hx; subst x;
                    vm_compute; split; discriminate)
              ltac:(vm_compute; discriminate)) as [Hok [_ [Hfull _]]].
  split; [exact Hok |].
  destruct (Hfull eq_refl (from_secs 1000) ltac:(vm_compute; split; discriminate))
    as [He _].
  rewrite He. vm_compute. reflexivity.
Defined.

(** ** Effect footprints of the handlers *)

Section Footprint.
Variable R : AppState -> AppState -> Prop.
Hypothesis R_refl : forall s, R s s.
Hypothesis R_trans : forall s1 s2 s3, R s1 s2 -> R s2 s3 -> R s1 s3.

Lemma within_ret {A} (a : A) : within R (mret a).
Proof. intro s. apply R_refl. Qed.

Lemma within_lift {A} (r : result A string) : within R (lift r).
Proof. intro s. apply R_refl. Qed.

Lemma within_fail {A} (e : string) : within R (fail (A:=A) e).
Proof. intro s. apply R_refl. Qed.

Lemma within_bind {A B} (k : A -> M B) (m : M A) :
  within R m -> (forall a, within R (k a)) -> within R (mbind k m).
Proof.
  intros Hm Hk s. unfold mbind, M_bind. specialize (Hm s).
  destruct (m s) as [s' [a | e]]; simpl in *; [| exact Hm].
  exact (R_trans _ _ _ Hm (Hk a s')).
Qed.

Lemma within_attempt {A} (m : M A) : within R m -> within R (attempt m).
Proof. intros Hm s. unfold attempt. specialize (Hm s). destruct (m s); exact Hm. Qed.

Lemma within_map_err_m {A} (f : string -> string) (m : M A) :
  within R m -> within R (map_err_m f m).
Proof. intros Hm s. unfold map_err_m. specialize (Hm s). destruct (m s); exact Hm. Qed.

End Footprint.

Lemma quiet_refl (s : AppState) : quiet s s.
Proof. split; [reflexivity | exists []; rewrite app_nil_r; split; reflexivity]. Qed.

Lemma quiet_trans (s1 s2 s3 : AppState) : quiet s1 s2 -> quiet s2 s3 -> quiet s1 s3.
Proof.
  intros [H1 [tr1 [E1 F1]]] [H2 [tr2 [E2 F2]]]. split; [congruence |].
  exists (tr1 ++ tr2)%list. split.
  - rewrite E2, E1, app_assoc. reflexivity.
  - rewrite forallb_app, F1, F2. reflexivity.
Qed.

Lemma quiet_append (s s' : AppState) (ev : event) :
  rate_limiter s' = rate_limiter s -> trace s' = (trace s ++ [ev])%list ->
  no_rate_check ev = true -> quiet s s'.
Proof. intros H E N. split; [exact H |]. exists [ev]. simpl. rewrite N. auto. Qed.

Ltac quiet_prim := intro; simpl; (apply quiet_refl || (eapply quiet_append; reflexivity)).

Lemma quiet_log (ev : event) : no_rate_check ev = true -> within quiet (log ev).
Proof. intros N s. apply (quiet_append _ _ ev); [reflexivity | reflexivity | exact N]. Qed.

Lemma quiet_read_tokens : within quiet read_tokens.
Proof. quiet_prim. Qed.
Lemma quiet_write_tokens (t : option AuthTokens) : within quiet (write_tokens t).
Proof. quiet_prim. Qed.
Lemma quiet_read_session : within quiet read_session.
Proof. quiet_prim. Qed.
Lemma quiet_write_session (g : option GmailAuth) : within quiet (write_session g).
Proof. quiet_prim. Qed.
Lemma quiet_read_last_check : within quiet read_last_check.
Proof. quiet_prim. Qed.
Lemma quiet_write_last_check (t : option string) : within quiet (write_last_check t).
Proof. quiet_prim. Qed.
Lemma quiet_now : within quiet now.
Proof. quiet_prim. Qed.
Lemma quiet_file_exists (p : string) : within quiet (file_exists p).
Proof. quiet_prim. Qed.
Lemma quiet_remove_file (p : string) : within quiet (remove_file p).
Proof.
  intro s. unfold remove_file. destruct (fs_remove_file (files s) p).
  eapply quiet_append; reflexivity.
Qed.

Lemma quiet_persist_tokens (t : AuthTokens) : within quiet (persist_tokens t).
Proof.
  intro s. unfold persist_tokens. destruct (save_tokens (keyring s) t).
  eapply quiet_append; reflexivity.
Qed.

Lemma quiet_erase_tokens : within quiet erase_tokens.
Proof.
  intro s. unfold erase_tokens. destruct (delete_tokens (keyring s)).
  eapply quiet_append; reflexivity.
Qed.

Lemma quiet_net {A} (tokens : option AuthTokens) (call : net_call) (answer : result A string) :
  within quiet (net tokens call answer).
Proof.
  apply (within_bind _ quiet_trans); [apply quiet_log; reflexivity |].
  intro. apply within_lift, quiet_refl.
Qed.

Lemma same_session_refl (s : AppState) : same_session s s.
Proof. reflexivity. Qed.

Lemma same_session_trans (s1 s2 s3 : AppState) :
  same_session s1 s2 -> same_session s2 s3 -> same_session s1 s3.
Proof. unfold same_session. congruence. Qed.

Ltac session_prim := intro; unfold same_session; simpl; reflexivity.

Lemma session_log (ev : event) : within same_session (log ev).
Proof. session_prim. Qed.
Lemma session_read_tokens : within same_session read_tokens.
Proof. session_prim. Qed.
Lemma session_write_tokens (t : option AuthTokens) : within same_session (write_tokens t).
Proof. session_prim. Qed.
Lemma session_read_session : within same_session read_session.
Proof. session_prim. Qed.

Lemma session_persist_tokens (t : AuthTokens) : within same_session (persist_tokens t).
Proof.
  intro s. unfold persist_tokens. destruct (save_tokens (keyring s) t). reflexivity.
Qed.

Lemma session_net {A} (tokens : option AuthTokens) (call : net_call) (answer : result A string) :
  within same_session (net tokens call answer).
Proof. intro s. reflexivity. Qed.

(** Walks through a handler, splitting it at each bind and case. *)
Ltac footprint refl trans prims :=
  repeat first
    [ apply (within_ret _ refl)
    | apply (within_lift _ refl)
    | apply (within_fail _ refl)
    | apply (within_bind _ trans); [| intro]
    | apply within_attempt
    | apply within_map_err_m
    | prims
    | match goal with |- within _ (match ?x with _ => _ end) => destruct x end ].

Ltac quiet_prims :=
  first [ apply quiet_read_tokens | apply quiet_write_tokens | apply quiet_read_session
        | apply quiet_write_session | apply quiet_read_last_check
        | apply quiet_write_last_check | apply quiet_now | apply quiet_file_exists
        | apply quiet_remove_file | apply quiet_persist_tokens | apply quiet_erase_tokens
        | apply quiet_net | apply quiet_log; reflexivity ].

Lemma quiet_refresh_tokens_if_needed (U : Upstream) :
  within quiet (refresh_tokens_if_needed U).
Proof.
  unfold refresh_tokens_if_needed, gmail_auth_new.
  footprint quiet_refl quiet_trans quiet_prims.
Qed.

Lemma skips_read_tokens {A} (k : option AuthTokens -> M A) :
  (forall x, within quiet (k x)) -> skips_rate_check (mbind k read_tokens).
Proof.
  intros Hk s. unfold mbind, M_bind, read_tokens. simpl.
  destruct (Hk (auth_tokens s) (set_trace s (trace s ++ [EvReadTokens])%list))
    as [Hr [tr [E F]]].
  split; [exact Hr |]. exists tr. split; [| exact F].
  rewrite E. simpl. rewrite <- app_assoc. reflexivity.
Qed.

Lemma skips_bind {A B} (k : A -> M B) (m : M A) :
  skips_rate_check m -> (forall a, within quiet (k a)) -> skips_rate_check (mbind k m).
Proof.
  intros Hm Hk s. unfold mbind, M_bind. destruct (Hm s) as [Hr [tr [E F]]].
  destruct (m s) as [s' [a | e]]; simpl in *; [| split; [exact Hr | eauto]].
  destruct (Hk a s') as [Hr' [tr' [E' F']]].
  split; [congruence |]. exists (tr ++ tr')%list. split.
  - rewrite E', E, <- app_assoc. reflexivity.
  - rewrite forallb_app, F, F'. reflexivity.
Qed.

Lemma skips_attempt {A} (m : M A) : skips_rate_check m -> skips_rate_check (attempt m).
Proof. intros Hm s. unfold attempt. specialize (Hm s). destruct (m s). exact Hm. Qed.

Lemma skips_refresh_tokens_if_needed (U : Upstream) :
  skips_rate_check (refresh_tokens_if_needed U).
Proof.
  unfold refresh_tokens_if_needed, gmail_auth_new. apply skips_read_tokens. intro.
  footprint quiet_refl quiet_trans quiet_prims.
Qed.

(** A handler that starts with [rate_check] stops there when the check
    fails. *)
Lemma rate_check_first {A} (op : string) (k : unit -> M A) (s : AppState) (e : string) :
  snd (check_rate_limit (rate_limiter s) op (clock s)) = Err e ->
  snd (mbind k (rate_check op) s) = Err e /\
  trace (fst (mbind k (rate_check op) s)) = (trace s ++ [EvRateCheck op])%list.
Proof.
  unfold mbind, M_bind, rate_check.
  destruct (check_rate_limit (rate_limiter s) op (clock s)) as [l' r]. simpl.
  intros ->. split; reflexivity.
Qed.

(** C1 (where the code departs from it): [get_emails], [get_email_content]
    and [send_reply] run the limiter first and stop on its refusal, but
    [get_inbox_stats], [mark_email_as_read], [mark_email_as_unread] and
    [check_for_new_emails_since_last_check] never consult it: their first
    effect is the credential read and the limiter is left unchanged. With
    the [get_inbox_stats] bucket full (20 calls ten seconds ago), where
    [check_rate_limit] refuses, [get_inbox_stats] still reads the
    credential, calls the provider and answers. *)
Theorem privileged_handlers_rate_check (U : Upstream) (email_id original_id body : string) :
  (forall s e, snd (check_rate_limit (rate_limiter s) "get_emails" (clock s)) = Err e ->
     snd (get_emails U s) = Err e /\
     trace (fst (get_emails U s)) = (trace s ++ [EvRateCheck "get_emails"])%list) /\
  (forall s e, snd (check_rate_limit (rate_limiter s) "get_email_content" (clock s)) = Err e ->
     snd (get_email_content U email_id s) = Err e /\
     trace (fst (get_email_content U email_id s))
       = (trace s ++ [EvRateCheck "get_email_content"])%list) /\
  (forall s e, snd (check_rate_limit (rate_limiter s) "send_reply" (clock s)) = Err e ->
     snd (send_reply U original_id body s) = Err e /\
     trace (fst (send_reply U original_id body s))
       = (trace s ++ [EvRateCheck "send_reply"])%list) /\
  skips_rate_check (get_inbox_stats U) /\
  skips_rate_check (mark_email_as_read U email_id) /\
  skips_rate_check (mark_email_as_unread U email_id) /\
  skips_rate_check (check_for_new_emails_since_last_check U) /\
  snd (check_rate_limit saturated_inbox_stats "get_inbox_stats" (from_secs 1000)) =
    Err "Rate limit exceeded for 'get_inbox_stats'. Max 20 requests per 60 seconds" /\
  get_inbox_stats (sample_upstream true) (sample_state (Some sample_tokens) None saturated_inbox_stats)
  = (set_trace (sample_state (Some sample_tokens) None saturated_inbox_stats)
       [EvReadTokens; EvNetwork (Some sample_tokens) CallGetProfile;
        EvNetwork (Some sample_tokens) CallGetProfile;
        EvNetwork (Some sample_tokens) (CallListMessages (Some 1%N) None (Some "is:unread"))],
     Ok (42%N, 7%N)).
Proof.
  split; [intros s e; apply rate_check_first |].
  split; [intros s e; apply rate_check_first |].
  split; [intros s e; apply rate_check_first |].
  split; [| split; [| split; [| split]]].
  - unfold get_inbox_stats. apply skips_bind.
    + apply skips_attempt, skips_refresh_tokens_if_needed.
    + intro. footprint quiet_refl quiet_trans quiet_prims.
  - unfold mark_email_as_read. apply skips_bind.
    + apply skips_attempt, skips_refresh_tokens_if_needed.
    + intro. footprint quiet_refl quiet_trans quiet_prims.
  - unfold mark_email_as_unread. apply skips_bind.
    + apply skips_attempt, skips_refresh_tokens_if_needed.
    + intro. footprint quiet_refl quiet_trans quiet_prims.
  - unfold check_for_new_emails_since_last_check. apply skips_bind.
    + apply skips_attempt, skips_refresh_tokens_if_needed.
    + intro. footprint quiet_refl quiet_trans quiet_prims.
  - split; vm_compute; reflexivity.
Qed.

Ltac session_prims :=
  first [ apply session_read_tokens | apply session_write_tokens | apply session_read_session
        | apply session_persist_tokens | apply session_net | apply session_log ].

Lemma session_complete_gmail_auth (U : Upstream) (url : string) :
  within same_session (complete_gmail_auth U url).
Proof.
  unfold complete_gmail_auth.
  footprint same_session_refl same_session_trans session_prims.
Qed.

(** Counterexample to C6: after a successful [complete_gmail_auth], the
    session is still stored, and a second call with the same redirect
    exchanges a code with that same session again. *)
Lemma complete_gmail_auth_reuses_session :
  let s0 := sample_state None (Some sample_session) ∅ in
  let s1 := fst (complete_gmail_auth (sample_upstream true) callback_url s0) in
  let s2 := fst (complete_gmail_auth (sample_upstream true) callback_url s1) in
  snd (complete_gmail_auth (sample_upstream true) callback_url s0)
    = Ok "Authentication successful!" /\
  gmail_auth s1 = Some sample_session /\
  snd (complete_gmail_auth (sample_upstream true) callback_url s1)
    = Ok "Authentication successful!" /\
  exchanges (trace s2) = [(sample_session, "ABC"); (sample_session, "ABC")].
Proof. vm_compute. repeat split. Qed.

(** C6, as the code does it: [complete_gmail_auth] works on a copy of the
    stored session and never clears it, whether the exchange succeeds or
    fails, so the session stays usable for further exchanges; only
    [start_gmail_auth] replaces it, with a fresh one carrying a new
    anti-forgery token. *)
Theorem complete_gmail_auth_keeps_session (U : Upstream) (url : string) :
  (forall s, gmail_auth (fst (complete_gmail_auth U url s)) = gmail_auth s) /\
  (forall ga s, up_config U = Ok ga ->
     gmail_auth (fst (start_gmail_auth U s)) =
       Some {| ga_client_id := ga_client_id ga;
               ga_csrf_token := Some (snd (up_auth_url U ga)) |}).
Proof.
  split.
  - intro s. exact (session_complete_gmail_auth U url s).
  - intros ga s Hc. unfold start_gmail_auth, gmail_auth_new, mbind, M_bind, log, lift.
    simpl. rewrite Hc. simpl. destruct (up_auth_url U ga) as [u c]. reflexivity.
Qed.

(** Counterexample to C2: with no credential at all, [refresh_tokens_if_needed]
    fails with [Not authenticated], yet [get_emails] answers with the
    placeholder mailbox and [get_inbox_stats] with fixed counts. *)
Lemma handlers_swallow_auth_failure :
  let s0 := sample_state None None ∅ in
  snd (refresh_tokens_if_needed (sample_upstream true) s0) = Err "Not authenticated" /\
  snd (refresh_tokens_if_needed (sample_upstream true) (fst (rate_check "get_emails" s0)))
    = Err "Not authenticated" /\
  snd (get_emails (sample_upstream true) s0) = Ok mock_emails /\
  length mock_emails = 20 /\
  snd (get_inbox_stats (sample_upstream true) s0) = Ok (6303%N, 3151%N).
Proof. vm_compute. repeat split. Qed.

(** C2, as the code does it. Propagated: a refusal of the limiter, by
    the three handlers that consult it ([get_emails], [get_email_content],
    [send_reply]); a failure of the credential step
    ([refresh_tokens_if_needed]), prefixed with [Authentication required: ],
    by [mark_email_as_read], [mark_email_as_unread], [send_reply] and
    [check_for_new_emails_since_last_check]; a failed code exchange and a
    failed save by [complete_gmail_auth]; a failed keyring delete by
    [logout_gmail]. [get_email_content] does not run the credential step:
    it answers [Not authenticated] when no credential is held, and
    otherwise calls the provider with the held one and returns its error.
    Swallowed: [get_emails] and [get_inbox_stats] replace a failure of the
    credential step by placeholder data (twenty mock emails; the counts
    6303 and 3151), and [get_inbox_stats] also reports 0 unread when the
    unread query fails. In the store, deleting an absent entry succeeds
    (keyring and in-memory backend) and the keyring's existence check
    answers [false] when the vault fails. *)
Theorem failure_propagation (U : Upstream) (email_id original_id body : string) :
  (forall s e, snd (check_rate_limit (rate_limiter s) "get_emails" (clock s)) = Err e ->
     snd (get_emails U s) = Err e) /\
  (forall s e, snd (check_rate_limit (rate_limiter s) "get_email_content" (clock s)) = Err e ->
     snd (get_email_content U email_id s) = Err e) /\
  (forall s e, snd (check_rate_limit (rate_limiter s) "send_reply" (clock s)) = Err e ->
     snd (send_reply U original_id body s) = Err e) /\
  (forall s e, snd (rate_check "get_emails" s) = Ok tt ->
     snd (refresh_tokens_if_needed U (fst (rate_check "get_emails" s))) = Err e ->
     snd (get_emails U s) = Ok mock_emails) /\
  (forall s e, snd (refresh_tokens_if_needed U s) = Err e ->
     snd (get_inbox_stats U s) = Ok (6303%N, 3151%N)) /\
  (forall s t p e, snd (refresh_tokens_if_needed U s) = Ok t ->
     up_get_profile U t = Ok p ->
     up_list_messages U t (Some 1%N) None (Some "is:unread") = Err e ->
     snd (get_inbox_stats U s) =
       Ok (match messages_total p with Some n => n | None => 0%N end, 0%N)) /\
  (forall s, snd (rate_check "get_email_content" s) = Ok tt ->
     auth_tokens s = None ->
     snd (get_email_content U email_id s) = Err "Not authenticated") /\
  (forall s t e, snd (rate_check "get_email_content" s) = Ok tt ->
     auth_tokens s = Some t -> up_get_message U t email_id = Err e ->
     snd (get_email_content U email_id s) = Err e) /\
  (forall s e, snd (refresh_tokens_if_needed U s) = Err e ->
     snd (mark_email_as_read U email_id s) = Err ("Authentication required: " ++ e) /\
     snd (mark_email_as_unread U email_id s) = Err ("Authentication required: " ++ e) /\
     snd (check_for_new_emails_since_last_check U s) = Err ("Authentication required: " ++ e)) /\
  (forall s e, snd (rate_check "send_reply" s) = Ok tt ->
     snd (refresh_tokens_if_needed U (fst (rate_check "send_reply" s))) = Err e ->
     snd (send_reply U original_id body s) = Err ("Authentication required: " ++ e)) /\
  (forall s url code st g e, parse_callback_url url = Ok (code, st) -> gmail_auth s = Some g ->
     up_exchange U g code = Err e ->
     snd (complete_gmail_auth U url s) = Err e) /\
  (forall s url code st g tr e, parse_callback_url url = Ok (code, st) -> gmail_auth s = Some g ->
     up_exchange U g code = Ok tr ->
     snd (save_tokens (keyring s) (exchange_code_of tr)) = Err e ->
     snd (complete_gmail_auth U url s) = Err ("Failed to save tokens: " ++ e)) /\
  (forall s e, snd (delete_tokens (keyring s)) = Err e -> snd (logout_gmail s) = Err e) /\
  (forall (kr : Keyring) k, kr_available kr = true ->
     kr_entries kr !! (SERVICE_NAME, TOKEN_KEY) = None ->
     delete_password kr k = (kr, Ok tt)) /\
  (forall (m : MockStorage) k, mock_storage m !! k = None ->
     snd (delete_password m k) = Ok tt) /\
  (forall (kr : Keyring) k, kr_available kr = false -> has_password kr k = false).
Proof.
  split; [intros s e H; exact (proj1 (rate_check_first _ _ s e H))|].
  split; [intros s e H; exact (proj1 (rate_check_first _ _ s e H))|].
  split; [intros s e H; exact (proj1 (rate_check_first _ _ s e H))|].
  split; [| split; [| split; [| split; [| split; [| split; [| split; [| split;
    [| split; [| split; [| split; [| split]]]]]]]]]]].
  - intros s e Hr Hf. unfold get_emails, mbind, M_bind, attempt.
    destruct (rate_check "get_emails" s) as [s1 r1] eqn:E1. simpl in Hr. subst r1.
    simpl in Hf.
    destruct (refresh_tokens_if_needed U s1) as [s2 r2]. simpl in Hf. subst r2.
    reflexivity.
  - intros s e Hf. unfold get_inbox_stats, mbind, M_bind, attempt.
    destruct (refresh_tokens_if_needed U s) as [s2 r2]. simpl in Hf. subst r2.
    reflexivity.
  - intros s t p e Hf Hp Hu. unfold get_inbox_stats, mbind, M_bind, attempt.
    destruct (refresh_tokens_if_needed U s) as [s2 r2]. simpl in Hf. subst r2.
    unfold net, mbind, M_bind, log, lift. simpl. rewrite Hp. simpl.
    rewrite Hu. reflexivity.
  - intros s Hr Hn. unfold get_email_content, mbind, M_bind.
    destruct (rate_check "get_email_content" s) as [s1 r1] eqn:E. simpl in Hr. subst r1.
    unfold rate_check in E.
    destruct (check_rate_limit (rate_limiter s) "get_email_content" (clock s)).
    injection E as <- _. simpl. rewrite Hn. reflexivity.
  - intros s t e Hr Ht Hm. unfold get_email_content, mbind, M_bind.
    destruct (rate_check "get_email_content" s) as [s1 r1] eqn:E. simpl in Hr. subst r1.
    unfold rate_check in E.
    destruct (check_rate_limit (rate_limiter s) "get_email_content" (clock s)).
    injection E as <- _. simpl. rewrite Ht. unfold net, mbind, M_bind, log, lift. simpl.
    rewrite Hm. reflexivity.
  - intros s e Hf.
    unfold mark_email_as_read, mark_email_as_unread, check_for_new_emails_since_last_check,
      mbind, M_bind, attempt.
    destruct (refresh_tokens_if_needed U s) as [s2 r2]. simpl in Hf. subst r2.
    repeat split.
  - intros s e Hr Hf. unfold send_reply, mbind, M_bind, attempt.
    destruct (rate_check "send_reply" s) as [s1 r1] eqn:E1. simpl in Hr. subst r1.
    simpl in Hf.
    destruct (refresh_tokens_if_needed U s1) as [s2 r2]. simpl in Hf. subst r2.
    reflexivity.
  - intros s url code st g e Hp Hg He.
    unfold complete_gmail_auth, lift, read_session, ok_or, net, log. unfold mbind, M_bind, mret, M_ret; simpl.
    rewrite Hp. simpl. rewrite Hg. simpl. rewrite He. reflexivity.
  - intros s url code st g tr e Hp Hg He Hs.
    unfold complete_gmail_auth, lift, read_session, ok_or, net, log, write_tokens, map_err_m,
      persist_tokens. unfold mbind, M_bind, mret, M_ret; simpl.
    rewrite Hp. simpl. rewrite Hg. simpl. rewrite He. simpl.
    change (keyring_save_password (keyring s) TOKEN_KEY (tokens_to_string (exchange_code_of tr)))
      with (save_tokens (keyring s) (exchange_code_of tr)).
    destruct (save_tokens (keyring s) (exchange_code_of tr)) as [kr' r']. simpl in Hs.
    subst r'. reflexivity.
  - intros s e Hd. unfold logout_gmail, erase_tokens. unfold mbind, M_bind, mret, M_ret; simpl.
    change (keyring_delete_password (keyring s) TOKEN_KEY) with (delete_tokens (keyring s)).
    destruct (delete_tokens (keyring s)) as [kr' r']. simpl in Hd. subst r'. reflexivity.
  - intros kr k Hav Hn. simpl.
    unfold keyring_delete_password, entry_delete_password. simpl. rewrite Hav, Hn.
    reflexivity.
  - intros m k _. reflexivity.
  - intros kr k Hav. simpl. unfold keyring_has_password, entry_get_password. simpl.
    rewrite Hav. reflexivity.
Qed.

(* ================================================================= *)
(** * Properties of the rest of the client *)

(** ** Base64 *)

Lemma b64_value_char_seq :
  forallb (fun k => bool_decide (b64_value (b64_char (N.of_nat k)) = Some (N.of_nat k)))
          (seq 0 64) = true.
Proof. vm_compute. reflexivity. Qed.

Lemma b64_value_char (n : N) : (n < 64)%N -> b64_value (b64_char n) = Some n.
Proof.
  intros Hn. pose proof b64_value_char_seq as H.
  rewrite forallb_forall in H. specialize (H (N.to_nat n)).
  rewrite N2Nat.id in H. specialize (H ltac:(apply in_seq; lia)).
  apply bool_decide_eq_true in H. exact H.
Qed.

Lemma b64_char_not_pad (n : N) : (n < 64)%N -> Ascii.eqb (b64_char n) "=" = false.
Proof.
  intros Hn. destruct (Ascii.eqb_spec (b64_char n) "=") as [E|E]; [|reflexivity].
  pose proof (b64_value_char n Hn) as H. rewrite E in H. discriminate.
Qed.

Lemma ascii_N_id (a : ascii) : ascii_of_N (N_of_ascii a) = a.
Proof. apply ascii_N_embedding. Qed.

Lemma byte_lt (a : ascii) : (N_of_ascii a < 256)%N.
Proof. apply N_ascii_bounded. Qed.

Lemma div_mod_small (a b k : N) : (b < k)%N -> ((a * k + b) / k = a /\ (a * k + b) mod k = b)%N.
Proof.
  intros Hb. assert (Hk : k <> 0%N) by lia. split.
  - rewrite N.div_add_l by exact Hk. rewrite N.div_small by exact Hb. lia.
  - rewrite N.add_comm, N.Div0.mod_add. apply N.mod_small, Hb.
Qed.

Lemma recombine (p k : N) : k <> 0%N -> (p / k * k + p mod k = p)%N.
Proof. intros Hk. pose proof (N.div_mod p k Hk). lia. Qed.

Lemma div_lt (p k m : N) : (p < k * m)%N -> k <> 0%N -> (p / k < m)%N.
Proof. intros H Hk. apply N.Div0.div_lt_upper_bound. lia. Qed.

Lemma mod_lt' (p k : N) : k <> 0%N -> (p mod k < k)%N.
Proof. intros. apply N.mod_lt. exact H. Qed.

Lemma b64_encode_nil (s : string) : b64_encode s = EmptyString -> s = EmptyString.
Proof. destruct s as [|a [|b [|c r]]]; simpl; congruence. Qed.

Lemma b64_decode_group (a b c d : ascii) (rest : string) :
  rest <> EmptyString ->
  b64_decode (String a (String b (String c (String d rest)))) =
  match b64_value a, b64_value b, b64_value c, b64_value d, b64_decode rest with
  | Some w, Some x, Some y, Some z, Some r =>
      Some (String (ascii_of_N (w * 4 + x / 16))
             (String (ascii_of_N ((x mod 16) * 16 + y / 4))
               (String (ascii_of_N ((y mod 4) * 64 + z)) r)))
  | _, _, _, _, _ => None
  end.
Proof. destruct rest; [congruence | reflexivity]. Qed.

Lemma b64_decode_encode (s : string) : b64_decode (b64_encode s) = Some s.
Proof.
  revert s. fix IH 1. intros [|a [|b [|c rest]]].
  - reflexivity.
  - simpl. (* one byte *)
    pose proof (byte_lt a) as Ha.
    set (p := N_of_ascii a).
    assert (H1 : (p / 4 < 64)%N) by (apply div_lt; lia).
    assert (H2 : (p mod 4 * 16 < 64)%N) by (pose proof (mod_lt' p 4 ltac:(discriminate)); lia).
    unfold b64_decode_last. rewrite (b64_value_char _ H1), (b64_value_char _ H2).
    simpl.
    destruct (div_mod_small (p mod 4) 0 16 ltac:(lia)) as [D M].
    rewrite N.add_0_r in D, M. rewrite M, D. simpl.
    rewrite recombine by discriminate. unfold p. rewrite ascii_N_id. reflexivity.
  - simpl. pose proof (byte_lt a) as Ha. pose proof (byte_lt b) as Hb.
    set (p := N_of_ascii a). set (q := N_of_ascii b).
    assert (H1 : (p / 4 < 64)%N) by (apply div_lt; lia).
    assert (Hq16 : (q / 16 < 16)%N) by (apply div_lt; lia).
    assert (H2 : (p mod 4 * 16 + q / 16 < 64)%N)
      by (pose proof (mod_lt' p 4 ltac:(discriminate)); lia).
    assert (H3 : (q mod 16 * 4 < 64)%N)
      by (pose proof (mod_lt' q 16 ltac:(discriminate)); lia).
    unfold b64_decode_last. rewrite (b64_value_char _ H1), (b64_value_char _ H2).
    rewrite (b64_char_not_pad _ H3). simpl. rewrite (b64_value_char _ H3).
    destruct (div_mod_small (p mod 4) (q / 16) 16 Hq16) as [D1 M1].
    destruct (div_mod_small (q mod 16) 0 4 ltac:(lia)) as [D2 M2].
    rewrite N.add_0_r in D2, M2. rewrite M2, D1, M1, D2. simpl.
    rewrite !recombine by discriminate. unfold p, q. rewrite !ascii_N_id. reflexivity.
  - pose proof (IH rest) as IHr.
    pose proof (byte_lt a) as Ha. pose proof (byte_lt b) as Hb. pose proof (byte_lt c) as Hc.
    change (b64_encode (String a (String b (String c rest)))) with
      (let p := N_of_ascii a in let q := N_of_ascii b in let r := N_of_ascii c in
       String (b64_char (p / 4))
        (String (b64_char ((p mod 4) * 16 + q / 16))
          (String (b64_char ((q mod 16) * 4 + r / 64))
            (String (b64_char (r mod 64)) (b64_encode rest))))).
    cbv zeta.
    set (p := N_of_ascii a). set (q := N_of_ascii b). set (r := N_of_ascii c).
    assert (H1 : (p / 4 < 64)%N) by (apply div_lt; lia).
    assert (Hq16 : (q / 16 < 16)%N) by (apply div_lt; lia).
    assert (Hr64 : (r / 64 < 4)%N) by (apply div_lt; lia).
    assert (H2 : (p mod 4 * 16 + q / 16 < 64)%N)
      by (pose proof (mod_lt' p 4 ltac:(discriminate)); lia).
    assert (H3 : (q mod 16 * 4 + r / 64 < 64)%N)
      by (pose proof (mod_lt' q 16 ltac:(discriminate)); lia).
    assert (H4 : (r mod 64 < 64)%N) by (apply mod_lt'; discriminate).
    destruct (div_mod_small (p mod 4) (q / 16) 16 Hq16) as [D1 M1].
    destruct (div_mod_small (q mod 16) (r / 64) 4 Hr64) as [D2 M2].
    assert (Ep : ascii_of_N (p / 4 * 4 + p mod 4) = a)
      by (rewrite recombine by discriminate; apply ascii_N_id).
    assert (Eq : ascii_of_N (q / 16 * 16 + q mod 16) = b)
      by (rewrite recombine by discriminate; apply ascii_N_id).
    assert (Er : ascii_of_N (r / 64 * 64 + r mod 64) = c)
      by (rewrite recombine by discriminate; apply ascii_N_id).
    destruct (b64_encode rest) as [|e rest'] eqn:E.
    + apply b64_encode_nil in E. subst rest. simpl. unfold b64_decode_last.
      rewrite (b64_value_char _ H1), (b64_value_char _ H2).
      rewrite (b64_char_not_pad _ H3), (b64_char_not_pad _ H4). simpl.
      rewrite (b64_value_char _ H3), (b64_value_char _ H4).
      rewrite M1, D1, M2, D2, Ep, Eq, Er. reflexivity.
    + rewrite <- E, b64_decode_group, (IH rest) by (rewrite E; discriminate).
      rewrite (b64_value_char _ H1), (b64_value_char _ H2).
      rewrite (b64_value_char _ H3), (b64_value_char _ H4).
      rewrite M1, D1, M2, D2, Ep, Eq, Er. reflexivity.
Qed.

Lemma b64_decode_length (s r : string) :
  b64_decode s = Some r -> Nat.modulo (String.length s) 4 = 0.
Proof.
  revert s r. fix IH 1. intros [|a [|b [|c [|d rest]]]] r;
    [intros _; reflexivity | simpl; discriminate | simpl; discriminate
    | simpl; discriminate |].
  - destruct (string_dec rest EmptyString) as [->|Hne]; [reflexivity|].
    rewrite b64_decode_group by exact Hne.
    destruct (b64_value a), (b64_value b), (b64_value c), (b64_value d); try discriminate.
    destruct (b64_decode rest) as [r'|] eqn:E; [|discriminate].
    intros _. pose proof (IH _ _ E) as H.
    change (String.length (String a (String b (String c (String d rest)))))
      with (S (S (S (S (String.length rest))))).
    replace (S (S (S (S (String.length rest))))) with (String.length rest + 1 * 4)%nat by lia.
    rewrite Nat.Div0.mod_add. exact H.
Qed.

(** ** Query strings *)

Lemma all_chars_app (p : ascii -> bool) (a b : string) :
  all_chars p (a ++ b) = all_chars p a && all_chars p b.
Proof. induction a as [|c a IH]; simpl; [reflexivity|]. rewrite IH. apply andb_assoc. Qed.

Lemma urlencode_char (c : ascii) (rest : string) :
  percent_decode (if is_unreserved c then String c (urlencode rest)
                  else String "%" (String (hex_upper (N_of_ascii c / 16))
                         (String (hex_upper (N_of_ascii c mod 16)) (urlencode rest))))
  = String c (percent_decode (urlencode rest)).
Proof.
  destruct c as [[] [] [] [] [] [] [] []]; reflexivity.
Qed.

Lemma percent_decode_urlencode (q : string) : percent_decode (urlencode q) = q.
Proof.
  induction q as [|c q IH]; [reflexivity|].
  change (urlencode (String c q)) with
    (if is_unreserved c then String c (urlencode q)
     else String "%" (String (hex_upper (N_of_ascii c / 16))
            (String (hex_upper (N_of_ascii c mod 16)) (urlencode q)))).
  rewrite urlencode_char, IH. reflexivity.
Qed.

(** The bytes [urlencode] produces. *)
Lemma urlencode_safe (q : string) : all_chars url_safe (urlencode q) = true.
Proof.
  induction q as [|c q IH]; [reflexivity|].
  change (urlencode (String c q)) with
    (if is_unreserved c then String c (urlencode q)
     else String "%" (String (hex_upper (N_of_ascii c / 16))
            (String (hex_upper (N_of_ascii c mod 16)) (urlencode q)))).
  destruct (is_unreserved c) eqn:U.
  - cbn [all_chars]. unfold url_safe at 1. rewrite U, IH. reflexivity.
  - cbn [all_chars]. rewrite IH.
    assert (Hx : forall d, (d < 16)%N -> url_safe (hex_upper d) = true).
    { intros d Hd. assert (Hd' : d = N.of_nat (N.to_nat d)) by lia.
      rewrite Hd'. assert (Hn : (N.to_nat d < 16)%nat) by lia. clear Hd Hd'.
      revert Hn. generalize (N.to_nat d) as k. intros k Hk.
      do 16 (destruct k as [|k]; [reflexivity|]). lia. }
    rewrite !Hx; [reflexivity | apply mod_lt'; discriminate |].
    apply div_lt; [apply byte_lt | discriminate].
Qed.

(** ** URLs built by the client *)

Lemma split_first_notin (c : ascii) (s : string) :
  all_chars (notin c) s = true -> split_first c s = (s, None).
Proof.
  induction s as [|d s IH]; [reflexivity|]. simpl. unfold notin at 1.
  destruct (Ascii.eqb c d); simpl; [discriminate|]. intros H. rewrite (IH H). reflexivity.
Qed.

Lemma split_first_app (c : ascii) (a b : string) :
  all_chars (notin c) a = true -> split_first c (a ++ String c b) = (a, Some b).
Proof.
  induction a as [|d a IH]; simpl.
  - rewrite Ascii.eqb_refl. reflexivity.
  - unfold notin at 1. destruct (Ascii.eqb c d); simpl; [discriminate|].
    intros H. rewrite (IH H). reflexivity.
Qed.

Lemma split_on_notin (c : ascii) (a cur : string) :
  all_chars (notin c) a = true -> split_on c a cur = [cur ++ a].
Proof.
  revert cur. induction a as [|d a IH]; intros cur; simpl.
  - rewrite str_app_nil_r. reflexivity.
  - unfold notin at 1. destruct (Ascii.eqb c d); simpl; [discriminate|].
    intros H. rewrite (IH _ H), str_app_assoc. reflexivity.
Qed.

Lemma split_on_app (c : ascii) (a b cur : string) :
  all_chars (notin c) a = true ->
  split_on c (a ++ String c b) cur = (cur ++ a) :: split_on c b EmptyString.
Proof.
  revert cur. induction a as [|d a IH]; intros cur; simpl.
  - rewrite Ascii.eqb_refl, str_app_nil_r. reflexivity.
  - unfold notin at 1. destruct (Ascii.eqb c d); simpl; [discriminate|].
    intros H. rewrite (IH _ H), str_app_assoc. reflexivity.
Qed.

Lemma split_on_join (c : ascii) (l : list string) :
  l <> [] -> Forall (fun piece => all_chars (notin c) piece = true) l ->
  split_on c (join (String c EmptyString) l) EmptyString = l.
Proof.
  induction l as [|x l IH]; intros Hne Hl; [congruence|].
  inversion Hl as [|? ? Hx Hr]; subst.
  destruct l as [|y l].
  - simpl. rewrite split_on_notin by exact Hx. reflexivity.
  - change (join (String c EmptyString) (x :: y :: l))
      with (x ++ String c EmptyString ++ join (String c EmptyString) (y :: l)).
    rewrite str_app_cons, str_app_nil_l.
    rewrite split_on_app by exact Hx. rewrite IH by (congruence || exact Hr). reflexivity.
Qed.

Lemma percent_decode_plain (s : string) :
  all_chars (fun d => notin "+" d && notin "%" d) s = true -> percent_decode s = s.
Proof.
  induction s as [|d s IH]; [reflexivity|]. simpl.
  unfold notin. rewrite (Ascii.eqb_sym "+" d), (Ascii.eqb_sym "%" d).
  destruct (Ascii.eqb d "+"), (Ascii.eqb d "%"); simpl; try discriminate.
  intros H. rewrite (IH H). reflexivity.
Qed.

Lemma trim_start_c0_clean (s : string) :
  all_chars not_c0_or_space s = true -> trim_start_c0 s = s.
Proof.
  destruct s as [|c s]; [reflexivity|]. simpl. unfold not_c0_or_space.
  destruct (c0_or_space c); [discriminate|reflexivity].
Qed.

Lemma trim_end_c0_clean (s : string) :
  all_chars not_c0_or_space s = true -> trim_end_c0 s = s.
Proof.
  induction s as [|c s IH]; [reflexivity|]. intros H.
  simpl in H. apply andb_prop in H as [Hc H]. unfold not_c0_or_space in Hc.
  apply negb_true_iff in Hc. simpl. rewrite (IH H).
  destruct s; [rewrite Hc|]; reflexivity.
Qed.

Lemma remove_tab_newline_clean (s : string) :
  all_chars not_c0_or_space s = true -> remove_tab_newline s = s.
Proof.
  induction s as [|c s IH]; [reflexivity|]. intros H.
  simpl in H. apply andb_prop in H as [Hc H]. unfold not_c0_or_space in Hc.
  apply negb_true_iff in Hc. simpl. rewrite (IH H).
  assert (Ht : is_tab_or_newline c = false).
  { unfold c0_or_space in Hc. unfold is_tab_or_newline.
    apply N.leb_gt in Hc. repeat rewrite (proj2 (N.eqb_neq _ _)) by lia. reflexivity. }
  rewrite Ht. reflexivity.
Qed.

Lemma url_clean (s : string) :
  all_chars not_c0_or_space s = true ->
  remove_tab_newline (trim_end_c0 (trim_start_c0 s)) = s.
Proof.
  intros H. rewrite trim_start_c0_clean, trim_end_c0_clean, remove_tab_newline_clean by exact H.
  reflexivity.
Qed.

Lemma url_parse_with_query (c : ascii) (scheme_tail path query : string) :
  is_alpha c && all_chars is_scheme_char scheme_tail = true ->
  all_chars (notin ":") scheme_tail = true -> Ascii.eqb ":" c = false ->
  all_chars (notin "#") path = true -> all_chars (notin "?") path = true ->
  all_chars (notin "#") query = true ->
  all_chars not_c0_or_space (String c scheme_tail ++ String ":" (path ++ String "?" query)) = true ->
  url_parse (String c scheme_tail ++ String ":" (path ++ String "?" query)) =
  Ok {| url_scheme := String c scheme_tail; url_path := path; url_query := Some query |}.
Proof.
  intros Hs Hc Hc0 Hp1 Hp2 Hq Hv. unfold url_parse. rewrite url_clean by exact Hv.
  rewrite split_first_app by (simpl; unfold notin at 1; rewrite Hc0; exact Hc).
  rewrite Hs. rewrite split_first_notin.
  - rewrite split_first_app by exact Hp2. reflexivity.
  - rewrite all_chars_app. simpl. rewrite Hp1, Hq. reflexivity.
Qed.

Lemma parse_pairs_join (l : list (string * string)) :
  l <> nil ->
  Forall (fun kv => fst kv <> EmptyString /\ all_chars (notin "&") (fst kv) = true /\
                    all_chars (notin "=") (fst kv) = true /\
                    all_chars (notin "&") (snd kv) = true) l ->
  parse_pairs (join "&" (map (fun kv => fst kv ++ "=" ++ snd kv) l)) =
  map (fun kv => (percent_decode (fst kv), percent_decode (snd kv))) l.
Proof.
  intros Hne Hl. unfold parse_pairs. rewrite split_on_join.
  - clear Hne. induction l as [|[k v] l IH]; [reflexivity|].
    inversion Hl as [|? ? [Hk [Hk1 [Hk2 Hv]]] Hr]; subst. simpl in *.
    rewrite <- IH by exact Hr.
    replace ("=" ++ v) with (String "=" v) by reflexivity.
    destruct (k ++ String "=" v) as [|c0 r0] eqn:E.
    + destruct k; discriminate.
    + rewrite <- E, split_first_app by exact Hk2. reflexivity.
  - destruct l; [congruence | discriminate].
  - apply Forall_map. eapply Forall_impl; [exact Hl|].
    intros [k v] [_ [Hk1 [_ Hv]]]. simpl in *.
    rewrite !all_chars_app, Hk1, Hv. reflexivity.
Qed.

Lemma all_chars_impl (p q : ascii -> bool) (s : string) :
  (forall c, p c = true -> q c = true) -> all_chars p s = true -> all_chars q s = true.
Proof.
  intros Hpq. induction s as [|c s IH]; simpl; [reflexivity|].
  intros H. apply andb_prop in H as [H1 H2]. rewrite (Hpq c H1), (IH H2). reflexivity.
Qed.

Lemma join_all (p : ascii -> bool) (sep : string) (l : list string) :
  all_chars p sep = true -> Forall (fun x => all_chars p x = true) l ->
  all_chars p (join sep l) = true.
Proof.
  intros Hs Hl. induction Hl as [|x l Hx Hr IH]; [reflexivity|].
  destruct l as [|y l]; [exact Hx|].
  change (join sep (x :: y :: l)) with (x ++ sep ++ join sep (y :: l)).
  rewrite !all_chars_app, Hx, Hs, IH. reflexivity.
Qed.

Lemma url_parse_messages (query : string) :
  all_chars (notin "#") query = true -> all_chars not_c0_or_space query = true ->
  url_parse (MESSAGES_URL ++ "?" ++ query) =
  Ok {| url_scheme := "https"; url_path := "//gmail.googleapis.com/gmail/v1/users/me/messages";
        url_query := Some query |}.
Proof.
  intros Hq Hv. apply (url_parse_with_query "h" "ttps"); try reflexivity; [exact Hq|].
  simpl. exact Hv.
Qed.

Lemma list_messages_url_params (max_results : option N) (page_token query : option string) :
  let l := (match max_results with Some max => [("maxResults", N_to_string max)] | None => [] end
            ++ match page_token with Some token => [("pageToken", token)] | None => [] end
            ++ match query with Some q => [("q", urlencode q)] | None => [] end)%list in
  list_messages_url max_results page_token query =
  match l with
  | [] => MESSAGES_URL
  | _ => MESSAGES_URL ++ "?" ++ join "&" (map (fun kv => fst kv ++ "=" ++ snd kv) l)
  end.
Proof. destruct max_results, page_token, query; reflexivity. Qed.

Lemma list_messages_url_query_spec (max_results : option N) (page_token query : option string) :
  (forall token, page_token = Some token ->
     all_chars (fun d => notin "&" d && notin "+" d && notin "%" d && notin "#" d &&
                         not_c0_or_space d) token = true) ->
  exists u, url_parse (list_messages_url max_results page_token query) = Ok u /\
    url_path u = "//gmail.googleapis.com/gmail/v1/users/me/messages" /\
    query_pairs u =
    (match max_results with Some max => [("maxResults", N_to_string max)] | None => [] end
     ++ match page_token with Some token => [("pageToken", token)] | None => [] end
     ++ match query with Some q => [("q", q)] | None => [] end)%list.
Proof.
  intros Htok. rewrite list_messages_url_params.
  set (l := (match max_results with Some max => [("maxResults", N_to_string max)] | None => [] end
            ++ match page_token with Some token => [("pageToken", token)] | None => [] end
            ++ match query with Some q => [("q", urlencode q)] | None => [] end)%list).
  assert (Hl : Forall (fun kv => fst kv <> EmptyString /\ all_chars (notin "&") (fst kv) = true /\
                    all_chars (notin "=") (fst kv) = true /\
                    all_chars (notin "&") (snd kv) = true /\
                    all_chars (notin "#") (fst kv ++ "=" ++ snd kv) = true /\
                    all_chars not_c0_or_space (fst kv ++ "=" ++ snd kv) = true) l).
  { unfold l. repeat apply Forall_app_2.
    - destruct max_results as [max|]; constructor; [|constructor].
      simpl. repeat split; try discriminate; try rewrite !all_chars_app;
      (eapply all_chars_impl; [|apply (N_to_string_spec max)]);
      intros c Hc; unfold is_digit in Hc; unfold notin, not_c0_or_space, c0_or_space;
      destruct c as [[] [] [] [] [] [] [] []]; simpl in *; easy.
    - destruct page_token as [token|]; constructor; [|constructor].
      specialize (Htok token eq_refl). simpl. repeat split; try discriminate;
      try rewrite !all_chars_app; (eapply all_chars_impl; [|exact Htok]); intros c Hc;
      repeat (apply andb_prop in Hc as [Hc ?]); assumption.
    - destruct query as [q|]; constructor; [|constructor].
      simpl. repeat split; try discriminate; try rewrite !all_chars_app;
      (eapply all_chars_impl; [|apply urlencode_safe]); intros c Hc;
      unfold url_safe, is_unreserved, is_alpha, is_digit in Hc;
      unfold notin, not_c0_or_space, c0_or_space;
      destruct c as [[] [] [] [] [] [] [] []]; simpl in *; easy. }
  assert (Hdec : map (fun kv => (percent_decode (fst kv), percent_decode (snd kv))) l =
    (match max_results with Some max => [("maxResults", N_to_string max)] | None => [] end
     ++ match page_token with Some token => [("pageToken", token)] | None => [] end
     ++ match query with Some q => [("q", q)] | None => [] end)%list).
  { unfold l. rewrite !map_app. f_equal; [|f_equal].
    - destruct max_results as [max|]; [|reflexivity]. simpl. f_equal. f_equal.
      apply percent_decode_plain. eapply all_chars_impl; [|apply (N_to_string_spec max)].
      intros c Hc; unfold is_digit in Hc; unfold notin;
      destruct c as [[] [] [] [] [] [] [] []]; simpl in *; easy.
    - destruct page_token as [token|]; [|reflexivity]. simpl. f_equal. f_equal.
      apply percent_decode_plain. eapply all_chars_impl; [|exact (Htok token eq_refl)].
      intros c Hc. apply andb_prop in Hc as [Hc _]. apply andb_prop in Hc as [Hc _].
      apply andb_prop in Hc as [Hc Hpct]. apply andb_prop in Hc as [_ Hplus].
      rewrite Hplus, Hpct. reflexivity.
    - destruct query as [q|]; [|reflexivity]. simpl. f_equal. f_equal.
      apply percent_decode_urlencode. }
  clearbody l. destruct l as [|kv l'] eqn:El.
  - eexists. split; [reflexivity|]. split; [reflexivity|]. exact Hdec.
  - rewrite <- El in *. eexists. split.
    + apply url_parse_messages.
      * apply join_all; [reflexivity|]. apply Forall_map.
        eapply Forall_impl; [exact Hl|]. intros kv0 H. simpl in *.
        destruct H as (_&_&_&_&H&_). exact H.
      * apply join_all; [reflexivity|]. apply Forall_map.
        eapply Forall_impl; [exact Hl|]. intros kv0 H. simpl in *.
        destruct H as (_&_&_&_&_&H). exact H.
    + split; [reflexivity|]. unfold query_pairs. cbn [url_query]. rewrite parse_pairs_join.
      * exact Hdec.
      * subst l. discriminate.
      * eapply Forall_impl; [exact Hl|]. intros kv0 H. simpl in *. destruct H as (?&?&?&?&_). auto.
Qed.

(** X3: the URL built by [list_messages] parses, has the messages endpoint
    as its path, and its decoded query pairs are exactly the given
    [maxResults], [pageToken] and [q] in this order: for any search text
    and a page token without [&], [+], [%], [#], control bytes or spaces,
    both UTF-8 as Rust strings are. *)
Theorem list_messages_url_query (max_results : option N) (page_token query : option string) :
  (forall token, page_token = Some token ->
     all_chars (fun d => notin "&" d && notin "+" d && notin "%" d && notin "#" d &&
                         not_c0_or_space d) token = true /\ utf8_valid token = true) ->
  (forall q, query = Some q -> utf8_valid q = true) ->
  exists u, url_parse (list_messages_url max_results page_token query) = Ok u /\
    url_path u = "//gmail.googleapis.com/gmail/v1/users/me/messages" /\
    query_pairs u =
    (match max_results with Some max => [("maxResults", N_to_string max)] | None => [] end
     ++ match page_token with Some token => [("pageToken", token)] | None => [] end
     ++ match query with Some q => [("q", q)] | None => [] end)%list.
Proof.
  intros Htok _. apply list_messages_url_query_spec.
  intros token E. exact (proj1 (Htok token E)).
Qed.

(** X22: the URL of [check_for_new_emails] parses, has the messages
    endpoint as its path, and asks for at most 10 messages with the search
    [in:inbox], followed by [ after:] and the given time when there is one. *)
Theorem check_for_new_emails_query (since_time : option string) :
  exists u, url_parse (check_for_new_emails_url since_time) = Ok u /\
    url_path u = "//gmail.googleapis.com/gmail/v1/users/me/messages" /\
    query_pairs u =
    [("maxResults", "10");
     ("q", "in:inbox" ++ match since_time with
                          | Some time => " after:" ++ time
                          | None => EmptyString
                          end)].
Proof.
  unfold check_for_new_emails_url.
  destruct (list_messages_url_query_spec (Some 10%N) None (Some (new_mail_query since_time)))
    as (u & H1 & H2 & H3); [discriminate|].
  exists u. split; [exact H1|]. split; [exact H2|]. rewrite H3. reflexivity.
Qed.

Lemma urlencode_pair_ok (k v : string) :
  k <> EmptyString -> all_chars (notin "&") k = true -> all_chars (notin "=") k = true ->
  all_chars (notin "#") k = true -> all_chars not_c0_or_space k = true ->
  fst (k, urlencode v) <> EmptyString /\ all_chars (notin "&") (fst (k, urlencode v)) = true /\
  all_chars (notin "=") (fst (k, urlencode v)) = true /\
  all_chars (notin "&") (snd (k, urlencode v)) = true /\
  all_chars (notin "#") (fst (k, urlencode v) ++ "=" ++ snd (k, urlencode v)) = true /\
  all_chars not_c0_or_space (fst (k, urlencode v) ++ "=" ++ snd (k, urlencode v)) = true.
Proof.
  intros H1 H2 H3 H4 H5. simpl. repeat split; try assumption;
    try rewrite !all_chars_app, ?H4, ?H5; try reflexivity;
    (eapply all_chars_impl; [|apply urlencode_safe]); intros c Hc;
    unfold url_safe, is_unreserved, is_alpha, is_digit in Hc;
    unfold notin, not_c0_or_space, c0_or_space;
    destruct c as [[] [] [] [] [] [] [] []]; simpl in *; easy.
Qed.

(** X4: on the redirect URI with a percent-encoded [code] and [state],
    both UTF-8 as Rust strings are, [parse_callback_url] returns the
    original code and state. *)
Theorem parse_callback_url_redirect (code state : string) :
  utf8_valid code = true -> utf8_valid state = true ->
  parse_callback_url (REDIRECT_URI ++ "?code=" ++ urlencode code ++ "&state=" ++ urlencode state)
  = Ok (code, Some state).
Proof.
  intros _ _.
  set (l := [("code", urlencode code); ("state", urlencode state)]).
  assert (Hl : Forall (fun kv => fst kv <> EmptyString /\ all_chars (notin "&") (fst kv) = true /\
                    all_chars (notin "=") (fst kv) = true /\
                    all_chars (notin "&") (snd kv) = true /\
                    all_chars (notin "#") (fst kv ++ "=" ++ snd kv) = true /\
                    all_chars not_c0_or_space (fst kv ++ "=" ++ snd kv) = true) l).
  { constructor; [|constructor; [|constructor]]; apply urlencode_pair_ok;
      try reflexivity; discriminate. }
  change (REDIRECT_URI ++ "?code=" ++ urlencode code ++ "&state=" ++ urlencode state)
    with (String "h" "ttp" ++ String ":" ("//localhost:8080/callback" ++ String "?"
            (join "&" (map (fun kv => fst kv ++ "=" ++ snd kv) l)))).
  unfold parse_callback_url.
  rewrite url_parse_with_query; try reflexivity.
  2:{ apply join_all; [reflexivity|]. apply Forall_map.
      eapply Forall_impl; [exact Hl|]. intros kv H. simpl in *.
      destruct H as (_&_&_&_&H&_). exact H. }
  2:{ change (String "h" "ttp" ++ String ":" ("//localhost:8080/callback" ++ String "?"
              (join "&" (map (fun kv => fst kv ++ "=" ++ snd kv) l))))
        with ("http://localhost:8080/callback?" ++
              join "&" (map (fun kv => fst kv ++ "=" ++ snd kv) l)).
      rewrite all_chars_app. apply andb_true_intro. split; [reflexivity|].
      apply join_all; [reflexivity|]. apply Forall_map.
      eapply Forall_impl; [exact Hl|]. intros kv H. simpl in *.
      destruct H as (_&_&_&_&_&H). exact H. }
  unfold query_pairs. cbn [url_query]. rewrite parse_pairs_join.
  2:{ discriminate. }
  2:{ eapply Forall_impl; [exact Hl|]. intros kv H. simpl in *.
      destruct H as (?&?&?&?&_). auto. }
  unfold l. simpl map. rewrite !percent_decode_urlencode.
  unfold collect_params. simpl.
  rewrite lookup_insert_ne by discriminate. rewrite lookup_insert_ne by discriminate.
  rewrite lookup_empty.
  rewrite lookup_insert_ne by discriminate. rewrite lookup_insert_eq.
  rewrite lookup_insert_eq. reflexivity.
Qed.

(** ** Messages and the email builder *)

Lemma eq_ignore_ascii_case_iff (a b : string) :
  eq_ignore_ascii_case a b = true <-> to_ascii_lowercase a = to_ascii_lowercase b.
Proof.
  revert b. induction a as [|x a IH]; intros [|y b]; simpl; try (split; congruence).
  rewrite andb_true_iff, Ascii.eqb_eq, IH. split.
  - intros [-> ->]. reflexivity.
  - intros H. injection H. tauto.
Qed.

Lemma eq_ignore_ascii_case_congr (a n1 n2 : string) :
  eq_ignore_ascii_case n1 n2 = true ->
  eq_ignore_ascii_case a n1 = eq_ignore_ascii_case a n2.
Proof.
  rewrite eq_ignore_ascii_case_iff. intros H.
  destruct (eq_ignore_ascii_case a n1) eqn:E1, (eq_ignore_ascii_case a n2) eqn:E2;
    try reflexivity; exfalso.
  - apply eq_ignore_ascii_case_iff in E1. rewrite H in E1.
    apply eq_ignore_ascii_case_iff in E1. congruence.
  - apply eq_ignore_ascii_case_iff in E2. rewrite <- H in E2.
    apply eq_ignore_ascii_case_iff in E2. congruence.
Qed.

(** X5: [get_header] gives the same answer for two header names that are
    equal up to ASCII case. *)
Theorem get_header_ignores_case (m : ApiMessage) (n1 n2 : string) :
  eq_ignore_ascii_case n1 n2 = true -> get_header m n1 = get_header m n2.
Proof.
  intros H. unfold get_header.
  destruct (payload m) as [p|]; [|reflexivity].
  destruct (payload_headers p) as [hs|]; [|reflexivity].
  unfold find_header. f_equal.
  induction hs as [|h hs IH]; [reflexivity|]. simpl.
  rewrite (eq_ignore_ascii_case_congr (header_name h) n1 n2 H), IH. reflexivity.
Qed.

(** X6: when the payload's own body has data, [get_body_text] returns the
    text that data encodes (if it is valid UTF-8); data whose length is not
    a multiple of 4 fails to decode, and without parts the snippet is
    returned. *)
Theorem get_body_text_main_body (m : ApiMessage) (p : MessagePayload) (data : string) :
  payload m = Some p -> payload_body p = Some {| body_data := Some data |} ->
  (forall text, data = b64_encode text -> utf8_valid text = true -> get_body_text m = text) /\
  (Nat.modulo (String.length data) 4 <> 0 -> payload_parts p = None ->
   get_body_text m = msg_snippet m).
Proof.
  intros Hp Hb. unfold get_body_text. rewrite Hp, Hb. cbn [body_data]. split.
  - intros text -> Hu. unfold decode_text. rewrite b64_decode_encode, Hu. reflexivity.
  - intros Hlen Hparts. unfold decode_text.
    destruct (b64_decode data) as [bytes|] eqn:E.
    + apply b64_decode_length in E. contradiction.
    + rewrite Hparts. reflexivity.
Qed.

Lemma strip_tags_no_angle (in_tag : bool) (s : string) :
  all_chars no_angle (strip_tags in_tag s) = true.
Proof.
  revert in_tag. induction s as [|c s IH]; intros in_tag; [reflexivity|]. simpl.
  destruct (Ascii.eqb c "<") eqn:E1; [apply IH|].
  destruct (Ascii.eqb c ">") eqn:E2; [apply IH|].
  destruct in_tag; [apply IH|]. simpl. unfold no_angle at 1. rewrite E1, E2. apply IH.
Qed.

Lemma drop_leading_suffix (len : string -> nat) (skip : nat) (s : string) :
  exists pre, s = pre ++ drop_leading len skip s.
Proof.
  revert skip. induction s as [|c s IH]; intros skip; [exists EmptyString; reflexivity|].
  cbn [drop_leading]. destruct skip as [|k].
  - destruct (len (String c s)) as [|k].
    + exists EmptyString. reflexivity.
    + destruct (IH k) as [pre E]. exists (String c pre). rewrite str_app_cons. f_equal. exact E.
  - destruct (IH k) as [pre E]. exists (String c pre). rewrite str_app_cons. f_equal. exact E.
Qed.

Lemma all_chars_rev_str (p : ascii -> bool) (s : string) :
  all_chars p (rev_str s) = all_chars p s.
Proof.
  induction s as [|c s IH]; [reflexivity|]. simpl.
  rewrite all_chars_app, IH. simpl. rewrite andb_true_r. apply andb_comm.
Qed.

Lemma all_chars_drop_leading (p : ascii -> bool) (len : string -> nat) (skip : nat) (s : string) :
  all_chars p s = true -> all_chars p (drop_leading len skip s) = true.
Proof.
  destruct (drop_leading_suffix len skip s) as [pre E].
  rewrite E at 1. rewrite all_chars_app. intros H. apply andb_prop in H. tauto.
Qed.

Lemma all_chars_trim (p : ascii -> bool) (s : string) :
  all_chars p s = true -> all_chars p (trim s) = true.
Proof.
  intros H. unfold trim. rewrite all_chars_rev_str.
  apply all_chars_drop_leading. rewrite all_chars_rev_str.
  apply all_chars_drop_leading. exact H.
Qed.

(** X7: the plain-text alternative that [send_email] derives from an HTML
    body contains no [<] and no [>]. *)
Theorem html_to_plain_no_tags (body : string) :
  all_chars no_angle (html_to_plain body) = true.
Proof. unfold html_to_plain. apply all_chars_trim, strip_tags_no_angle. Qed.

(** X8: the request body of [send_email] has a [raw] field, followed by
    [threadId] when one is given, and [raw] decodes (URL-safe base64) back
    to exactly the built message. *)
Theorem send_request_raw (to subject body : string) (in_reply_to references thread_id : option string) :
  exists raw,
    send_request to subject body in_reply_to references thread_id =
    JObj (("raw", JStr raw)
          :: match thread_id with Some tid => [("threadId", JStr tid)] | None => [] end) /\
    b64_decode raw = Some (email_content to subject body in_reply_to references).
Proof.
  eexists. split; [reflexivity|]. apply b64_decode_encode.
Qed.

(** ** Rate limiter bookkeeping *)

Lemma length_filter_le {A} (f : A -> bool) (l : list A) :
  (length (List.filter f l) <= length l)%nat.
Proof. induction l as [|x l IH]; simpl; [lia|]. destruct (f x); simpl; lia. Qed.

(** X9: if no bucket records more calls than its maximum, this still holds
    after any [check_rate_limit]. *)
Theorem check_rate_limit_bounded (limits : limiter) (op : string) (now : N) :
  map_Forall (fun _ rl => N.of_nat (length (requests rl)) <= max_requests rl)%N limits ->
  map_Forall (fun _ rl => N.of_nat (length (requests rl)) <= max_requests rl)%N
             (fst (check_rate_limit limits op now)).
Proof.
  intros Hall. rewrite check_rate_limit_bucket. simpl.
  apply map_Forall_insert_2; [|exact Hall].
  assert (Hb : (N.of_nat (length (requests (bucket limits op))) <=
                max_requests (bucket limits op))%N).
  { unfold bucket. destruct (limits !! op) as [rl|] eqn:E.
    - exact (Hall op rl E).
    - unfold policy. repeat match goal with |- context [if ?c then _ else _] => destruct c end;
        simpl; lia. }
  unfold is_allowed.
  pose proof (length_filter_le (fun t => (now - t <=? window_duration (bucket limits op))%N)
                (requests (bucket limits op))) as Hf.
  destruct (N.of_nat (length (List.filter _ _)) <? max_requests (bucket limits op))%N eqn:E;
    simpl.
  - apply N.ltb_lt in E. rewrite length_app. simpl. lia.
  - lia.
Qed.

(** X10: a check on one operation does not change the answer of a later
    check on another operation. *)
Theorem check_rate_limit_independent (limits : limiter) (op op' : string) (now now' : N) :
  op <> op' ->
  snd (check_rate_limit (fst (check_rate_limit limits op now)) op' now') =
  snd (check_rate_limit limits op' now').
Proof.
  intros Hne. rewrite (check_rate_limit_bucket limits op now). simpl.
  rewrite !check_rate_limit_bucket.
  unfold bucket. rewrite lookup_insert_ne by exact Hne. reflexivity.
Qed.

(** X11: after [reset_all], or after [reset_operation] on the operation,
    the next check of that operation succeeds; [reset_operation] leaves the
    other operations' buckets as they were. *)
Theorem reset_then_allowed (limits : limiter) (op op' : string) (now : N) :
  snd (check_rate_limit (reset_all limits) op now) = Ok tt /\
  snd (check_rate_limit (reset_operation limits op) op now) = Ok tt /\
  (op' <> op -> reset_operation limits op !! op' = limits !! op').
Proof.
  assert (Hp : forall l : limiter, l !! op = None -> snd (check_rate_limit l op now) = Ok tt).
  { intros l Hl. apply check_after_window; unfold bucket; rewrite Hl.
    - apply policy_window.
    - replace (requests (policy op)) with (@nil N); [constructor|].
      unfold policy. repeat match goal with |- context [if ?c then _ else _] => destruct c end;
        reflexivity. }
  split; [|split].
  - apply Hp. apply lookup_empty.
  - apply Hp. apply lookup_delete_eq.
  - intros Hne. apply lookup_delete_ne. congruence.
Qed.

(** ** The keyring store *)

Lemma keyring_delete_available (kr : Keyring) :
  kr_available kr = true ->
  delete_tokens kr =
  ({| kr_entries := delete (SERVICE_NAME, TOKEN_KEY) (kr_entries kr); kr_available := true |},
   Ok tt).
Proof.
  intros H. unfold delete_tokens. simpl. unfold keyring_delete_password, entry_delete_password.
  simpl. rewrite H.
  destruct (kr_entries kr !! (SERVICE_NAME, TOKEN_KEY)) eqn:E; [reflexivity|].
  rewrite delete_id by exact E. destruct kr as [entries av]. simpl in *. subst. reflexivity.
Qed.

(** X12: on an answering keyring: deleting succeeds (also when there is
    nothing to delete), after which there are no tokens and loading fails
    with [No tokens found in keyring]; saving then succeeds, the tokens are
    present and load back equal; deleting again succeeds and removes them. *)
Theorem keyring_token_lifecycle (kr : Keyring) (t : AuthTokens) :
  kr_available kr = true -> tokens_wf t ->
  let kr1 := fst (delete_tokens kr) in
  let kr2 := fst (save_tokens kr1 t) in
  snd (delete_tokens kr) = Ok tt /\ has_tokens kr1 = false /\
  load_tokens kr1 = Err "No tokens found in keyring" /\
  snd (save_tokens kr1 t) = Ok tt /\ has_tokens kr2 = true /\ load_tokens kr2 = Ok t /\
  snd (delete_tokens kr2) = Ok tt /\ has_tokens (fst (delete_tokens kr2)) = false.
Proof.
  intros Hav Hwf kr1 kr2.
  assert (E1 : delete_tokens kr = (kr1, Ok tt)).
  { unfold kr1. rewrite keyring_delete_available by exact Hav. reflexivity. }
  assert (Hk1 : kr1 = {| kr_entries := delete (SERVICE_NAME, TOKEN_KEY) (kr_entries kr);
                         kr_available := true |}).
  { unfold kr1. rewrite keyring_delete_available by exact Hav. reflexivity. }
  assert (E2 : save_tokens kr1 t = (kr2, Ok tt)).
  { unfold kr2, save_tokens. simpl. rewrite keyring_save_available by (rewrite Hk1; reflexivity).
    reflexivity. }
  assert (Hk2 : kr2 = {| kr_entries := <[(SERVICE_NAME, TOKEN_KEY) := tokens_to_string t]>
                                         (kr_entries kr1); kr_available := true |}).
  { unfold kr2, save_tokens. simpl. rewrite keyring_save_available by (rewrite Hk1; reflexivity).
    reflexivity. }
  rewrite E1, E2. cbn [fst snd].
  split; [reflexivity|]. split.
  { unfold has_tokens. simpl. unfold keyring_has_password, entry_get_password. simpl.
    rewrite Hk1. simpl. rewrite lookup_delete_eq. reflexivity. }
  split.
  { unfold load_tokens. simpl. unfold keyring_get_password, entry_get_password. simpl.
    rewrite Hk1. simpl. rewrite lookup_delete_eq. reflexivity. }
  split; [reflexivity|]. split.
  { unfold has_tokens. simpl. unfold keyring_has_password, entry_get_password. simpl.
    rewrite Hk2. simpl. rewrite lookup_insert_eq. reflexivity. }
  split; [exact (keyring_save_load kr1 kr2 t Hwf E2)|].
  rewrite keyring_delete_available by (rewrite Hk2; reflexivity). split; [reflexivity|].
  unfold has_tokens. simpl. unfold keyring_has_password, entry_get_password. simpl.
  rewrite lookup_delete_eq. reflexivity.
Qed.

Lemma keyring_unavailable_spec (kr : Keyring) (fs : Fs) (path : string) (t : AuthTokens) :
  kr_available kr = false ->
  fst (save_tokens kr t) = kr /\ is_ok (snd (save_tokens kr t)) = false /\
  is_ok (load_tokens kr) = false /\ has_tokens kr = false /\
  fst (delete_tokens kr) = kr /\ is_ok (snd (delete_tokens kr)) = false /\
  (is_Some (fs !! path) ->
   snd (fst (migrate_from_file kr fs path)) = fs /\
   is_ok (snd (migrate_from_file kr fs path)) = false).
Proof.
  intros H. unfold save_tokens, load_tokens, has_tokens, delete_tokens. simpl.
  unfold keyring_save_password, keyring_get_password, keyring_has_password,
    keyring_delete_password, entry_set_password, entry_get_password, entry_delete_password.
  simpl. rewrite H. simpl.
  repeat (split; [reflexivity|]).
  intros [f Hj]. unfold migrate_from_file.
  rewrite bool_decide_eq_true_2 by (rewrite Hj; eexists; reflexivity). simpl negb. cbv iota.
  destruct (read_to_string fs path) as [json|e]; [|split; reflexivity].
  destruct (tokens_from_str json) as [t'|e]; [|split; reflexivity].
  unfold save_tokens. simpl. unfold keyring_save_password, entry_set_password. simpl.
  rewrite H. split; reflexivity.
Qed.

(** X13: when the keyring does not answer, saving and deleting fail and
    leave it unchanged, loading fails, [has_tokens] is false, and a
    migration from an existing file fails and keeps the file. *)
Theorem keyring_unavailable (kr : Keyring) (fs : Fs) (path : string) (t : AuthTokens) :
  kr_available kr = false ->
  fst (save_tokens kr t) = kr /\ is_ok (snd (save_tokens kr t)) = false /\
  is_ok (load_tokens kr) = false /\ has_tokens kr = false /\
  fst (delete_tokens kr) = kr /\ is_ok (snd (delete_tokens kr)) = false /\
  (is_Some (fs !! path) ->
   snd (fst (migrate_from_file kr fs path)) = fs /\
   is_ok (snd (migrate_from_file kr fs path)) = false).
Proof. exact (keyring_unavailable_spec kr fs path t). Qed.

(** ** Start-up *)

(** X14: at start-up, when the keyring holds no loadable tokens but
    answers and the legacy file can be read and removed and holds valid
    tokens, the application starts with these tokens in memory, the file
    is removed and the keyring now loads them. *)
Theorem startup_migrates_legacy_file (kr : Keyring) (fs : Fs) (f : File) (t : AuthTokens) (c : N) :
  is_ok (load_tokens kr) = false -> kr_available kr = true -> tokens_wf t ->
  fs !! token_file_path = Some f -> read_to_string fs token_file_path = Ok (tokens_to_string t) ->
  file_remove_error f = None ->
  auth_tokens (main_state kr fs c) = Some t /\
  files (main_state kr fs c) !! token_file_path = None /\
  load_tokens (keyring (main_state kr fs c)) = Ok t.
Proof.
  intros Hl Hav Hwf Hf Hr Hrm.
  assert (Hs : save_tokens kr t = (fst (save_tokens kr t), Ok tt)).
  { unfold save_tokens. simpl. rewrite keyring_save_available by exact Hav. reflexivity. }
  assert (Hload : load_tokens (fst (save_tokens kr t)) = Ok t)
    by exact (keyring_save_load _ _ t Hwf Hs).
  unfold main_state, startup_load_tokens.
  destruct (load_tokens kr) as [t0|e]; [discriminate|].
  rewrite bool_decide_eq_true_2 by (rewrite Hf; eexists; reflexivity).
  unfold migrate_from_file.
  rewrite bool_decide_eq_true_2 by (rewrite Hf; eexists; reflexivity). simpl negb. cbv iota.
  rewrite Hr, tokens_from_str_to_string by exact Hwf.
  rewrite Hs. unfold fs_remove_file. rewrite Hf, Hrm, Hload. simpl.
  split; [reflexivity|]. split; [apply lookup_delete_eq|exact Hload].
Qed.

(** X15: at start-up, when the keyring holds no loadable tokens and the
    migration cannot happen (the keyring does not answer, the file cannot
    be read, or it does not parse), the application starts signed out and
    the file system is unchanged. *)
Theorem startup_keeps_file_on_failure (kr : Keyring) (fs : Fs) (c : N) :
  is_ok (load_tokens kr) = false ->
  (kr_available kr = false \/
   (exists e, read_to_string fs token_file_path = Err e) \/
   exists json e, read_to_string fs token_file_path = Ok json /\ tokens_from_str json = Err e) ->
  auth_tokens (main_state kr fs c) = None /\ files (main_state kr fs c) = fs.
Proof.
  intros Hl Hcase. unfold main_state, startup_load_tokens.
  destruct (load_tokens kr) as [t0|e]; [discriminate|].
  destruct (bool_decide (is_Some (fs !! token_file_path))) eqn:Hex; [|split; reflexivity].
  apply bool_decide_eq_true in Hex.
  destruct Hcase as [Hav | [(e' & Hr) | (json & e' & Hr & He)]].
  - destruct (keyring_unavailable_spec kr fs token_file_path
                {| access_token := ""; refresh_token := None; expires_in := None |} Hav)
      as (_&_&_&_&_&_&Hm).
    destruct (Hm Hex) as [Hfs Hok].
    destruct (migrate_from_file kr fs token_file_path) as [[kr' fs'] [[|]|m]];
      simpl in *; try discriminate; split; congruence.
  - unfold migrate_from_file. rewrite bool_decide_eq_true_2 by exact Hex. simpl negb. cbv iota.
    rewrite Hr. split; reflexivity.
  - unfold migrate_from_file. rewrite bool_decide_eq_true_2 by exact Hex. simpl negb. cbv iota.
    rewrite Hr, He. split; reflexivity.
Qed.

(** ** Credentials *)

(** X1: [validate_credentials] accepts a pair exactly when the client id
    contains [.apps.googleusercontent.com], the secret starts with
    [GOCSPX-], and both are at least 20 bytes long. *)
Theorem validate_credentials_ok (client_id client_secret : string) :
  validate_credentials client_id client_secret = Ok tt <->
  contains ".apps.googleusercontent.com" client_id = true /\
  String.prefix "GOCSPX-" client_secret = true /\
  20 <= String.length client_id /\ 20 <= String.length client_secret.
Proof.
  unfold validate_credentials.
  destruct (contains _ client_id); simpl;
    [|split; [discriminate|intros (H&_); discriminate]].
  destruct (String.prefix "GOCSPX-" client_secret); simpl.
  2:{ split; [|intros (_&H&_); discriminate].
      destruct (is_char_boundary _ _); discriminate. }
  destruct (Nat.ltb_spec (String.length client_id) 20);
    [split; [discriminate|lia]|].
  destruct (Nat.ltb_spec (String.length client_secret) 20);
    [split; [discriminate|lia]|].
  split; [intros _; repeat split; lia|reflexivity].
Qed.

(** X2: with [CI] or [TESTING] set, [from_env] returns the built-in test
    credentials, which [validate_credentials] itself rejects; otherwise a
    successful [from_env] returns the client id and secret of the
    environment, and they pass [validate_credentials]. *)
Theorem from_env_cases (env : gmap string string) :
  (is_Some (env !! "CI") \/ is_Some (env !! "TESTING") -> from_env env = Ok test_credentials) /\
  is_ok (validate_credentials (client_id test_credentials) (client_secret test_credentials))
    = false /\
  (forall app, env !! "CI" = None -> env !! "TESTING" = None -> from_env env = Ok app ->
   env !! "GOOGLE_CLIENT_ID" = Some (client_id app) /\
   env !! "GOOGLE_CLIENT_SECRET" = Some (client_secret app) /\
   validate_credentials (client_id app) (client_secret app) = Ok tt).
Proof.
  split; [|split; [vm_compute; reflexivity|]].
  - intros H. unfold from_env.
    destruct H as [H|H]; rewrite (bool_decide_eq_true_2 _ H); [reflexivity|].
    rewrite orb_true_r. reflexivity.
  - intros app Hci Ht. unfold from_env. rewrite Hci, Ht. simpl.
    destruct (env !! "GOOGLE_CLIENT_ID") as [cid|]; [|discriminate].
    destruct (env !! "GOOGLE_CLIENT_SECRET") as [sec|]; [|discriminate].
    destruct (validate_credentials cid sec) as [[]|e] eqn:Hv; [|discriminate].
    intros H. inversion H; subst. simpl. auto.
Qed.

(** ** Handlers *)

Ltac run_m := unfold mbind, M_bind, mret, M_ret; simpl.

(** X16: [logout_gmail] always clears the tokens in memory, so
    [get_auth_status] then answers false; on success the keyring has no
    tokens and the legacy file is gone; on failure the file system is
    unchanged and either the keyring did not answer, or it deleted the
    tokens and the legacy file could not be removed. *)
Theorem logout_gmail_clears (s : AppState) :
  let '(s', r) := logout_gmail s in
  auth_tokens s' = None /\ snd (get_auth_status s') = Ok false /\
  match r with
  | Ok _ => has_tokens (keyring s') = false /\ files s' !! token_file_path = None
  | Err _ =>
      files s' = files s /\
      (kr_available (keyring s) = false \/
       (has_tokens (keyring s') = false /\
        exists f e, files s !! token_file_path = Some f /\ file_remove_error f = Some e))
  end.
Proof.
  assert (Hgone : forall kr, has_tokens
            {| kr_entries := delete (SERVICE_NAME, TOKEN_KEY) (kr_entries kr);
               kr_available := true |} = false).
  { intros kr. unfold has_tokens. simpl. unfold keyring_has_password, entry_get_password.
    simpl. rewrite lookup_delete_eq. reflexivity. }
  unfold logout_gmail, erase_tokens, file_exists, remove_file. run_m.
  change (keyring_delete_password (keyring s) TOKEN_KEY) with (delete_tokens (keyring s)).
  destruct (kr_available (keyring s)) eqn:Hav.
  - rewrite keyring_delete_available by exact Hav. simpl.
    destruct (bool_decide (is_Some (files s !! token_file_path))) eqn:Hf; simpl.
    + unfold fs_remove_file.
      destruct (files s !! token_file_path) as [f|] eqn:Ef.
      2:{ apply bool_decide_eq_true in Hf. destruct Hf as [? Hf]; discriminate. }
      destruct (file_remove_error f) as [e|] eqn:Ee; simpl.
      * split; [reflexivity|]. split; [reflexivity|]. split; [reflexivity|].
        right. split; [exact (Hgone (keyring s))|]. exists f, e. split; [reflexivity|exact Ee].
      * split; [reflexivity|]. split; [reflexivity|]. split; [exact (Hgone (keyring s))|].
        apply lookup_delete_eq.
    + split; [reflexivity|]. split; [reflexivity|]. split; [exact (Hgone (keyring s))|].
      apply bool_decide_eq_false in Hf. destruct (files s !! token_file_path); [|reflexivity].
      exfalso. apply Hf. eexists; reflexivity.
  - destruct (keyring_unavailable_spec (keyring s) (files s) token_file_path
                {| access_token := ""; refresh_token := None; expires_in := None |} Hav)
      as (_&_&_&_&Hk&Hok&_).
    destruct (delete_tokens (keyring s)) as [kr' [[]|e]]; simpl in *; [discriminate|].
    split; [reflexivity|]. split; [reflexivity|]. split; [reflexivity|]. left; reflexivity.
Qed.

(** X17: after a successful [complete_gmail_auth] the tokens in memory are
    the ones written to the keyring entry; after a failure the tokens in
    memory are unchanged, unless the keyring did not answer, in which case
    the new tokens are in memory but not saved. *)
Theorem complete_gmail_auth_stores (U : Upstream) (callback_url : string) (s : AppState) :
  let '(s', r) := complete_gmail_auth U callback_url s in
  match r with
  | Ok _ => exists t, auth_tokens s' = Some t /\
              kr_entries (keyring s') !! (SERVICE_NAME, TOKEN_KEY) = Some (tokens_to_string t)
  | Err _ => auth_tokens s' = auth_tokens s \/
              (kr_available (keyring s) = false /\ exists t, auth_tokens s' = Some t)
  end.
Proof.
  unfold complete_gmail_auth, lift, read_session, ok_or, net, log, write_tokens, map_err_m,
    persist_tokens. run_m.
  destruct (parse_callback_url callback_url) as [[code st]|e]; simpl; [|left; reflexivity].
  destruct (gmail_auth s) as [g|]; simpl; [|left; reflexivity].
  destruct (up_exchange U g code) as [tr|e]; simpl; [|left; reflexivity].
  destruct (kr_available (keyring s)) eqn:Hav.
  - unfold save_tokens. simpl. rewrite keyring_save_available by exact Hav. simpl.
    eexists. split; [reflexivity|]. apply lookup_insert_eq.
  - unfold save_tokens. simpl. unfold keyring_save_password, entry_set_password. simpl.
    rewrite Hav. simpl. right. split; [reflexivity|]. eexists; reflexivity.
Qed.

(** X18: the tokens [refresh_tokens_if_needed] returns are the tokens in
    memory afterwards; a failure leaves memory unchanged, except when only
    the keyring save failed, where the renewed tokens stay in memory. *)
Theorem refresh_tokens_if_needed_memory (U : Upstream) (s : AppState) :
  let '(s', r) := refresh_tokens_if_needed U s in
  match r with
  | Ok t => auth_tokens s' = Some t
  | Err _ => auth_tokens s' = auth_tokens s \/
              (kr_available (keyring s) = false /\ exists t, auth_tokens s' = Some t)
  end.
Proof.
  unfold refresh_tokens_if_needed, gmail_auth_new, read_tokens, lift, ok_or, attempt, net,
    log, write_tokens, map_err_m, persist_tokens, fail. run_m.
  destruct (auth_tokens s) as [t|] eqn:Ht; simpl; [|left; exact Ht].
  destruct (up_get_profile U t); simpl; [exact Ht|].
  destruct (refresh_token t) as [rt|]; simpl; [|left; exact Ht].
  destruct (up_config U) as [g|]; simpl; [|left; exact Ht].
  destruct (up_refresh U g rt) as [tr|]; simpl; [|left; exact Ht].
  destruct (kr_available (keyring s)) eqn:Hav.
  - unfold save_tokens. simpl. rewrite keyring_save_available by exact Hav. reflexivity.
  - unfold save_tokens. simpl. unfold keyring_save_password, entry_set_password. simpl.
    rewrite Hav. simpl. right. split; [reflexivity|]. eexists; reflexivity.
Qed.

Lemma keeps_check_refl (s : AppState) : keeps_check s s.
Proof. split; [reflexivity|split; [reflexivity|exists []; rewrite app_nil_r; reflexivity]]. Qed.

Lemma keeps_check_trans (s1 s2 s3 : AppState) :
  keeps_check s1 s2 -> keeps_check s2 s3 -> keeps_check s1 s3.
Proof.
  intros (H1&C1&tr1&E1) (H2&C2&tr2&E2). split; [congruence|split; [congruence|]].
  exists (tr1 ++ tr2)%list. rewrite E2, E1, app_assoc. reflexivity.
Qed.

Ltac keeps_prim :=
  intro; simpl;
  lazymatch goal with
  | |- keeps_check ?s (fst (let '(_, _) := ?x in _)) => destruct x; simpl
  | _ => idtac
  end;
  split; [reflexivity|split; [reflexivity|eexists; reflexivity]].

Ltac keeps_prims :=
  first [ unfold read_tokens, write_tokens, persist_tokens, log; keeps_prim ].

Lemma keeps_check_refresh (U : Upstream) : within keeps_check (refresh_tokens_if_needed U).
Proof.
  unfold refresh_tokens_if_needed, gmail_auth_new, net.
  footprint keeps_check_refl keeps_check_trans keeps_prims.
Qed.

(** X19: a successful [check_for_new_emails_since_last_check] has queried
    the provider with the previously recorded time and records the current
    time in seconds; a failure leaves the recorded time unchanged. *)
Theorem check_for_new_emails_records_time (U : Upstream) (s : AppState) :
  let '(s', r) := check_for_new_emails_since_last_check U s in
  match r with
  | Ok _ => last_check_time s' = Some (N_to_string (as_secs (clock s))) /\
            exists t, In (EvNetwork (Some t) (CallCheckForNewEmails (last_check_time s)))
                         (trace s')
  | Err _ => last_check_time s' = last_check_time s
  end.
Proof.
  pose proof (keeps_check_refresh U s) as (Hl&Hc&tr&Htr).
  unfold check_for_new_emails_since_last_check, attempt, read_last_check, net, log, lift,
    now, write_last_check, fail. run_m.
  destruct (refresh_tokens_if_needed U s) as [s1 [t|e]]; simpl in *; [|exact Hl].
  destruct (up_check_for_new_emails U t (last_check_time s1)); simpl; [|exact Hl].
  rewrite Hc, Hl. split; [reflexivity|]. exists t.
  apply in_or_app. left. apply in_or_app. right. left. reflexivity.
Qed.

(** ** Replies *)

Lemma index_char_none (c : ascii) (s : string) :
  all_chars (notin c) s = true -> index 0 (String c EmptyString) s = None.
Proof.
  induction s as [|d s IH]; [reflexivity|]. simpl. unfold notin at 1.
  destruct (Ascii.eqb_spec c d); simpl; [discriminate|]. intros H.
  destruct (ascii_dec c d); [contradiction|]. rewrite (IH H). reflexivity.
Qed.

Lemma index_char_app (c : ascii) (a r : string) :
  all_chars (notin c) a = true ->
  index 0 (String c EmptyString) (a ++ String c r) = Some (String.length a).
Proof.
  induction a as [|d a IH]; simpl.
  - intros _. destruct (ascii_dec c c); [destruct r; reflexivity|contradiction].
  - unfold notin at 1. destruct (Ascii.eqb_spec c d); simpl; [discriminate|]. intros H.
    destruct (ascii_dec c d); [contradiction|]. rewrite (IH H). reflexivity.
Qed.

Lemma str_length_app (a b : string) :
  String.length (a ++ b) = String.length a + String.length b.
Proof. induction a as [|d a IH]; [reflexivity|]. simpl. rewrite IH. reflexivity. Qed.

Lemma substring_app_r (a b : string) (k n : nat) :
  substring (String.length a + k) n (a ++ b) = substring k n b.
Proof. induction a as [|d a IH]; [reflexivity|]. simpl. exact IH. Qed.

Lemma substring_app_l (a b : string) :
  substring 0 (String.length a) (a ++ b) = a.
Proof. induction a as [|d a IH]; [destruct b; reflexivity|]. simpl. rewrite IH. reflexivity. Qed.

Lemma all_chars_and (p q : ascii -> bool) (s : string) :
  all_chars (fun c => p c && q c) s = true -> all_chars p s = true /\ all_chars q s = true.
Proof.
  induction s as [|d s IH]; [auto|]. simpl.
  intros H. apply andb_prop in H as [Hd Hs]. apply andb_prop in Hd as [Hp Hq].
  destruct (IH Hs) as [H1 H2]. rewrite Hp, Hq, H1, H2. auto.
Qed.

(** X20: [send_reply] answers a sender without [<] or without [>] at the
    whole sender string, [Name <addr> ...] at [addr] (no [<] or [>] in the
    name, no [>] in the address), and a sender whose first [>] comes before
    its first [<] makes it panic. *)
Theorem reply_address_cases (original_sender name addr rest : string) :
  (all_chars (notin "<") original_sender = true \/ all_chars (notin ">") original_sender = true ->
   reply_address original_sender = Ok original_sender) /\
  (all_chars (fun c => notin "<" c && notin ">" c) name = true ->
   all_chars (notin ">") addr = true ->
   reply_address (name ++ "<" ++ addr ++ ">" ++ rest) = Ok addr) /\
  (all_chars (fun c => notin "<" c && notin ">" c) name = true ->
   all_chars (notin "<") addr = true ->
   reply_address (name ++ ">" ++ addr ++ "<" ++ rest) =
     Err "panic: slice index starts after its end").
Proof.
  split; [|split].
  - intros [H|H]; unfold reply_address.
    + rewrite index_char_none by exact H. reflexivity.
    + destruct (index 0 "<" original_sender); [|reflexivity].
      rewrite index_char_none by exact H. reflexivity.
  - intros Hn Ha. apply all_chars_and in Hn as [Hn1 Hn2]. unfold reply_address.
    change ("<" ++ (addr ++ ">" ++ rest)) with (String "<" (addr ++ ">" ++ rest)).
    change (">" ++ rest) with (String ">" rest).
    rewrite index_char_app by exact Hn1.
    replace (name ++ String "<" (addr ++ String ">" rest))
      with ((name ++ String "<" addr) ++ String ">" rest)
      by (rewrite str_app_assoc; reflexivity).
    rewrite index_char_app
      by (rewrite all_chars_app; simpl; rewrite Hn2, Ha; reflexivity).
    rewrite str_length_app. simpl String.length.
    replace (String.length name + S (String.length addr) - (String.length name + 1))
      with (String.length addr) by lia.
    destruct (Nat.leb_spec (String.length name + 1)
                (String.length name + S (String.length addr))); [|lia].
    f_equal. rewrite str_app_assoc, substring_app_r. simpl. apply substring_app_l.
  - intros Hn Ha. apply all_chars_and in Hn as [Hn1 Hn2]. unfold reply_address.
    change (">" ++ (addr ++ "<" ++ rest)) with (String ">" (addr ++ "<" ++ rest)).
    change ("<" ++ rest) with (String "<" rest).
    replace (name ++ String ">" (addr ++ String "<" rest))
      with ((name ++ String ">" addr) ++ String "<" rest)
      by (rewrite str_app_assoc; reflexivity).
    rewrite index_char_app
      by (rewrite all_chars_app; simpl; rewrite Hn1, Ha; reflexivity).
    rewrite str_app_assoc, str_app_cons.
    rewrite index_char_app by exact Hn2.
    rewrite str_length_app. simpl String.length.
    destruct (Nat.leb_spec (String.length name + S (String.length addr) + 1)
                (String.length name)); [lia|reflexivity].
Qed.

(** X21: the reply subject always starts with [Re: ], and building it again
    from a reply subject changes nothing. *)
Theorem reply_subject_prefixed (original_subject : string) :
  String.prefix "Re: " (reply_subject original_subject) = true /\
  reply_subject (reply_subject original_subject) = reply_subject original_subject.
Proof.
  unfold reply_subject.
  destruct (String.prefix "Re: " original_subject) eqn:E; [rewrite E; auto|].
  simpl. rewrite str_app_nil_l. destruct original_subject; auto.
Qed.

(** ** Witnesses of the client properties *)

Lemma get_header_ignores_case_witness :
  eq_ignore_ascii_case "subject" "SUBJECT" = true /\
  get_header sample_message "subject" = get_header sample_message "SUBJECT".
Proof.
  split; [reflexivity|]. apply get_header_ignores_case. reflexivity.
Defined.

Lemma get_body_text_main_body_witness :
  payload sample_message = Some sample_payload /\
  payload_body sample_payload = Some {| body_data := Some "SGVsbG8=" |} /\
  (forall text, "SGVsbG8=" = b64_encode text -> utf8_valid text = true ->
     get_body_text sample_message = text) /\
  (Nat.modulo (String.length "SGVsbG8=") 4 <> 0 -> payload_parts sample_payload = None ->
   get_body_text sample_message = msg_snippet sample_message).
Proof.
  split; [reflexivity|]. split; [reflexivity|].
  apply (get_body_text_main_body sample_message sample_payload "SGVsbG8="); reflexivity.
Defined.

Lemma list_messages_url_query_witness :
  (forall token, Some "CiAKGgoYMTg" = Some token ->
     all_chars (fun d => notin "&" d && notin "+" d && notin "%" d && notin "#" d &&
                         not_c0_or_space d) token = true /\ utf8_valid token = true) /\
  (forall q, Some "is:unread" = Some q -> utf8_valid q = true) /\
  exists u, url_parse (list_messages_url (Some 50%N) (Some "CiAKGgoYMTg") (Some "is:unread"))
              = Ok u /\
    url_path u = "//gmail.googleapis.com/gmail/v1/users/me/messages" /\
    query_pairs u = [("maxResults", "50"); ("pageToken", "CiAKGgoYMTg"); ("q", "is:unread")].
Proof.
  assert (H : forall token, Some "CiAKGgoYMTg" = Some token ->
     all_chars (fun d => notin "&" d && notin "+" d && notin "%" d && notin "#" d &&
                         not_c0_or_space d) token = true /\ utf8_valid token = true)
    by (intros token E; injection E as <-; split; reflexivity).
  assert (Hq : forall q, Some "is:unread" = Some q -> utf8_valid q = true)
    by (intros q E; injection E as <-; reflexivity).
  split; [exact H|]. split; [exact Hq|].
  exact (list_messages_url_query (Some 50%N) (Some "CiAKGgoYMTg") (Some "is:unread") H Hq).
Defined.

Lemma check_rate_limit_bounded_witness :
  map_Forall (fun _ rl => N.of_nat (length (requests rl)) <= max_requests rl)%N
             (∅ : limiter) /\
  map_Forall (fun _ rl => N.of_nat (length (requests rl)) <= max_requests rl)%N
             (fst (check_rate_limit ∅ "get_emails" (from_secs 5))).
Proof.
  split; [apply map_Forall_empty|]. apply check_rate_limit_bounded, map_Forall_empty.
Defined.

Lemma check_rate_limit_independent_witness :
  "get_inbox_stats" <> "send_reply" /\
  snd (check_rate_limit
         (fst (check_rate_limit saturated_inbox_stats "get_inbox_stats" (from_secs 1000)))
         "send_reply" (from_secs 1000)) =
  snd (check_rate_limit saturated_inbox_stats "send_reply" (from_secs 1000)).
Proof.
  split; [discriminate|]. apply check_rate_limit_independent. discriminate.
Defined.

Lemma keyring_token_lifecycle_witness :
  kr_available vault = true /\ tokens_wf sample_tokens /\
  (let kr1 := fst (delete_tokens vault) in
   let kr2 := fst (save_tokens kr1 sample_tokens) in
   snd (delete_tokens vault) = Ok tt /\ has_tokens kr1 = false /\
   load_tokens kr1 = Err "No tokens found in keyring" /\
   snd (save_tokens kr1 sample_tokens) = Ok tt /\ has_tokens kr2 = true /\
   load_tokens kr2 = Ok sample_tokens /\
   snd (delete_tokens kr2) = Ok tt /\ has_tokens (fst (delete_tokens kr2)) = false).
Proof.
  assert (Hw : tokens_wf sample_tokens) by (cbv; reflexivity).
  split; [reflexivity|]. split; [exact Hw|].
  exact (keyring_token_lifecycle vault sample_tokens eq_refl Hw).
Defined.

Lemma keyring_unavailable_witness :
  kr_available locked_vault = false /\
  (fst (save_tokens locked_vault sample_tokens) = locked_vault /\
   is_ok (snd (save_tokens locked_vault sample_tokens)) = false /\
   is_ok (load_tokens locked_vault) = false /\ has_tokens locked_vault = false /\
   fst (delete_tokens locked_vault) = locked_vault /\
   is_ok (snd (delete_tokens locked_vault)) = false /\
   (is_Some (legacy_fs !! token_file_path) ->
    snd (fst (migrate_from_file locked_vault legacy_fs token_file_path)) = legacy_fs /\
    is_ok (snd (migrate_from_file locked_vault legacy_fs token_file_path)) = false)).
Proof.
  split; [reflexivity|].
  exact (keyring_unavailable locked_vault legacy_fs token_file_path sample_tokens eq_refl).
Defined.

Lemma startup_migrates_legacy_file_witness :
  is_ok (load_tokens vault) = false /\ kr_available vault = true /\
  tokens_wf sample_tokens /\
  legacy_fs !! token_file_path = Some (plain_file (tokens_to_string sample_tokens)) /\
  read_to_string legacy_fs token_file_path = Ok (tokens_to_string sample_tokens) /\
  (auth_tokens (main_state vault legacy_fs 0) = Some sample_tokens /\
   files (main_state vault legacy_fs 0) !! token_file_path = None /\
   load_tokens (keyring (main_state vault legacy_fs 0)) = Ok sample_tokens).
Proof.
  assert (Hl : is_ok (load_tokens vault) = false) by reflexivity.
  assert (Hw : tokens_wf sample_tokens) by (cbv; reflexivity).
  assert (Hf : legacy_fs !! token_file_path = Some (plain_file (tokens_to_string sample_tokens)))
    by (unfold legacy_fs; apply lookup_insert_eq).
  assert (Hr : read_to_string legacy_fs token_file_path = Ok (tokens_to_string sample_tokens))
    by (vm_compute; reflexivity).
  split; [exact Hl|]. split; [reflexivity|]. split; [exact Hw|]. split; [exact Hf|].
  split; [exact Hr|].
  exact (startup_migrates_legacy_file vault legacy_fs _ sample_tokens 0 Hl eq_refl Hw Hf Hr
           eq_refl).
Defined.

Lemma startup_keeps_file_on_failure_witness :
  is_ok (load_tokens locked_vault) = false /\
  (kr_available locked_vault = false \/
   (exists e, read_to_string legacy_fs token_file_path = Err e) \/
   exists json e, read_to_string legacy_fs token_file_path = Ok json /\
                  tokens_from_str json = Err e) /\
  (auth_tokens (main_state locked_vault legacy_fs 0) = None /\
   files (main_state locked_vault legacy_fs 0) = legacy_fs).
Proof.
  assert (Hl : is_ok (load_tokens locked_vault) = false) by reflexivity.
  assert (Hc : kr_available locked_vault = false \/
   (exists e, read_to_string legacy_fs token_file_path = Err e) \/
   exists json e, read_to_string legacy_fs token_file_path = Ok json /\
                  tokens_from_str json = Err e)
    by (left; reflexivity).
  split; [exact Hl|]. split; [exact Hc|].
  exact (startup_keeps_file_on_failure locked_vault legacy_fs 0 Hl Hc).
Defined.

Lemma parse_callback_url_redirect_witness :
  utf8_valid "4/0AY0e-g7xyz" = true /\ utf8_valid "st=1&a b" = true /\
  parse_callback_url (REDIRECT_URI ++ "?code=" ++ urlencode "4/0AY0e-g7xyz" ++ "&state="
                      ++ urlencode "st=1&a b") = Ok ("4/0AY0e-g7xyz", Some "st=1&a b").
Proof.
  split; [reflexivity|]. split; [reflexivity|].
  exact (parse_callback_url_redirect "4/0AY0e-g7xyz" "st=1&a b" eq_refl eq_refl).
Defined.
